(** * labi-chat: the Chainlink price service and the price bot

  A shallow embedding of [src/lib/chainlink-price-feeds.ts] (the class
  [ChainlinkPriceService]) and of [src/lib/price-bot.ts] (the class
  [PriceBot]), and of what the settings panel
  ([src/components/price-bot-settings.tsx]) and the chat window
  ([chat-window.tsx], [price-message.tsx]) do with the bot, with the
  properties of the specification, and further properties of the code,
  stated and proved over it.

  Modelling conventions.
  - A JavaScript [number] is an IEEE 754 binary64 value: [spec_float] with
    precision 53 and maximal exponent 1024.  [Date.now()] and the lengths
    of intervals are integers and are kept in [Z].
  - A [throw], a rejected promise and [try]/[catch] are an explicit
    [outcome]; an [async] function returns the outcome its promise settles
    with.  [Promise.all] awaits its promises in order.
  - Objects that the program shares by reference (configuration objects,
    arrays of symbols, [Map]s) live in a store and are named by a location.
  - One update cycle of the bot is one step of the model: the suspension
    points inside a cycle are not interleaved with other operations.  The
    cycle that [start] launches, and the cycle of an interval that fires,
    is run where it is launched; when the host does something to the bot
    before such a cycle is over, the run of the code is the run of the
    model in which that cycle meets no price, followed by a manual update
    where the cycle ends.
  - The clock is read anew at each [Date.now()] and at each [new Date()]:
    the readings of one cycle are independent integers.
  - A handler of a component takes the state it reads to the state it
    sets; what a component renders is the data it shows, without the
    mark-up. *)

From Stdlib Require Import ZArith Lia Floats.SpecFloat.
From stdpp Require Import gmap strings list functions pretty.

Open Scope Z_scope.

(** ** JavaScript values *)

Module JS.

(** What a [throw] carries: [new Error(message)], or whatever a rejected
    call of the chain-access layer was rejected with. *)
Record Error := mkError { message : string }.

(** How the evaluation of an expression, or an awaited promise, ends. *)
Inductive outcome (A : Type) : Type :=
| Returned (a : A)
| Thrown (e : Error).
Arguments Returned {A} a.
Arguments Thrown {A} e.

Definition bind {A B} (x : outcome A) (k : A -> outcome B) : outcome B :=
  match x with
  | Returned a => k a
  | Thrown e => Thrown e
  end.

(** [try { body } catch (error) { handler }] *)
Definition try_catch {A} (body : outcome A) (handler : Error -> outcome A)
  : outcome A :=
  match body with
  | Thrown e => handler e
  | Returned a => Returned a
  end.

(** [await Promise.all([p, q])] *)
Definition Promise_all2 {A B} (p : outcome A) (q : outcome B) : outcome (A * B) :=
  bind p (fun a => bind q (fun b => Returned (a, b))).

(** [await Promise.all(ps)] *)
Fixpoint Promise_all {A} (ps : list (outcome A)) : outcome (list A) :=
  match ps with
  | [] => Returned []
  | p :: ps' => bind p (fun a => bind (Promise_all ps') (fun l => Returned (a :: l)))
  end.

(** *** Numbers *)

Definition prec : Z := 53.
Definition emax : Z := 1024.

Abbreviation number := spec_float.

Definition NaN : number := S754_nan.
Definition zero : number := S754_zero false.

(** [Number(z)] for a bigint (or an integer literal) [z]: the nearest
    double. *)
Definition ofBigInt (z : Z) : number := binary_normalize prec emax z 0 false.

Definition mul : number -> number -> number := SFmul prec emax.
Definition div : number -> number -> number := SFdiv prec emax.
Definition sub : number -> number -> number := SFsub prec emax.
Definition ltb : number -> number -> bool := SFltb.
Definition leb : number -> number -> bool := SFleb.

(** [Math.max(a, b)]: [NaN] when an argument is; [+0] is larger than [-0]. *)
Definition Math_max (a b : number) : number :=
  match SFcompare a b with
  | None => NaN
  | Some Lt => b
  | Some Gt => a
  | Some Eq => match a with S754_zero true => b | _ => a end
  end.

(** The double nearest to [value / 10^decimals]. *)
Definition scaleDown (value decimals : Z) : number :=
  let scale := S754_finite false (Z.to_pos (10 ^ decimals)) 0 in
  match value with
  | Z0 => zero
  | Zpos m => div (S754_finite false m 0) scale
  | Zneg m => div (S754_finite true m 0) scale
  end.

(** [Number(ethers.formatUnits(value, decimals))]: [formatUnits] writes
    the exact decimal expansion of [value / 10^decimals], and [Number]
    reads it back as the nearest double.  [formatUnits] builds a
    [FixedNumber] format, which takes 80 decimals at most and throws on
    more. *)
Definition Number_formatUnits (value decimals : Z) : outcome number :=
  if decide (0 <= decimals <= 80)
  then Returned (scaleDown value decimals)
  else Thrown (mkError "invalid FixedNumber decimals (too large)").

#[global] Arguments ofBigInt : simpl never.
#[global] Arguments mul : simpl never.
#[global] Arguments div : simpl never.
#[global] Arguments sub : simpl never.
#[global] Arguments Math_max : simpl never.
#[global] Arguments scaleDown : simpl never.

(** [s.includes(sub)] on strings *)
Definition String_includes (sub s : string) : bool :=
  match String.index 0 sub s with
  | Some _ => true
  | None => false
  end.

End JS.

Import JS.

(** ** The price feed service ([chainlink-price-feeds.ts]) *)

Module Chainlink.

Definition CHAINLINK_PRICE_FEEDS : list (string * string) :=
  [ ("BTC/USD", "0xF4030086522a5bEEa4988F8cA5B36dbC97BeE88c");
    ("ETH/USD", "0x5f4eC3Df9cbd43714FE2740f5E3616155c5b8419");
    ("BNB/USD", "0x14e613AC84a31f709eadbdF89C6CC390fDc9540A") ]%string.

Definition CHAINLINK_PRICE_FEEDS_SEPOLIA : list (string * string) :=
  [ ("BTC/USD", "0x1b44F3514812d835EB1BDB0acB33d3fA3351Ee43");
    ("ETH/USD", "0x694AA1769357215DE4FAC081bf1f309aDC325306");
    ("BNB/USD", "0x2c9972C4C4C4C4C4C4C4C4C4C4C4C4C4C4C4C4C4") ]%string.

Record PriceData := mkPriceData {
  symbol : string;
  price : number;
  timestamp : number;
  decimals : number
}.

Record PriceFeedConfig := mkPriceFeedConfig {
  rpcUrl : string;
  chainId : Z;
  isTestnet : option bool
}.

(** The tuple [latestRoundData()] returns. *)
Record RoundData := mkRoundData {
  roundId : Z;
  answer : Z;
  startedAt : Z;
  updatedAt : Z;
  answeredInRound : Z
}.

(** An [ethers.Contract] built from the three-function ABI of
    [getPriceFeedContract]: what its two read calls settle with.  A call
    that reverts, or that the RPC endpoint fails, is [Thrown]. *)
Record Contract := mkContract {
  latestRoundData : outcome RoundData;
  getDecimals : outcome Z
}.

(** [ethers.JsonRpcProvider]: the chain as one endpoint shows it during a
    fetch, a contract behind every address. *)
Definition JsonRpcProvider := string -> Contract.

Record ChainlinkPriceService := mkService {
  provider : JsonRpcProvider;
  priceFeeds : list (string * string)
}.

(** The constructor; [network] resolves an RPC URL to what it serves. *)
Definition new (network : string -> JsonRpcProvider) (config : PriceFeedConfig)
  : ChainlinkPriceService :=
  {| provider := network (rpcUrl config);
     priceFeeds := match isTestnet config with
                   | Some true => CHAINLINK_PRICE_FEEDS_SEPOLIA
                   | _ => CHAINLINK_PRICE_FEEDS
                   end |}.

(** [this.priceFeeds[symbol]] *)
Fixpoint lookupFeed (table : list (string * string)) (sym : string) : option string :=
  match table with
  | [] => None
  | (k, v) :: rest => if decide (k = sym) then Some v else lookupFeed rest sym
  end.

(** [getPriceFeedContract]: the handle is fixed by the address, the
    [contracts] map only saves building it twice. *)
Definition getPriceFeedContract (this : ChainlinkPriceService) (address : string)
  : Contract := provider this address.

(** The part of [getPrice] after the two derived symbols have been
    dispatched: a read of one feed. *)
Definition readFeed (this : ChainlinkPriceService) (sym : string)
  : outcome (option PriceData) :=
  bind (match lookupFeed (priceFeeds this) sym with
        | Some feedAddress =>
            if decide (feedAddress = EmptyString)
            then Thrown (mkError ("Price feed not found for " +:+ sym))
            else Returned feedAddress
        | None => Thrown (mkError ("Price feed not found for " +:+ sym))
        end)
    (fun feedAddress =>
       let contract := getPriceFeedContract this feedAddress in
       bind (Promise_all2 (latestRoundData contract) (getDecimals contract))
         (fun '(roundData, decimals) =>
            bind (Number_formatUnits (answer roundData) decimals)
              (fun price =>
                 Returned (Some {| symbol := sym;
                                   price := price;
                                   timestamp := mul (ofBigInt (updatedAt roundData))
                                                    (ofBigInt 1000);
                                   decimals := ofBigInt decimals |})))).

(** The handler of both [catch] blocks: the error is logged, [null] is
    returned. *)
Definition returnNull (error : Error) : outcome (option PriceData) :=
  Returned None.

(** [getCalculatedPrice], once both fetches have settled. *)
Definition quotient (sym : string) (numeratorPrice denominatorPrice : option PriceData)
  : outcome (option PriceData) :=
  match numeratorPrice, denominatorPrice with
  | Some numeratorPrice, Some denominatorPrice =>
      let calculatedPrice := div (price numeratorPrice) (price denominatorPrice) in
      let timestamp :=
        Math_max (timestamp numeratorPrice) (timestamp denominatorPrice) in
      Returned (Some {| symbol := sym;
                        price := calculatedPrice;
                        timestamp := timestamp;
                        decimals := ofBigInt 18 |})
  | _, _ => Thrown (mkError ("Failed to fetch prices for " +:+ sym))
  end.

(** [getPrice] and [getCalculatedPrice] call each other; [fuel] bounds the
    depth of the calls, and [None] is a recursion cut short for want of it. *)
Fixpoint getPrice (fuel : nat) (this : ChainlinkPriceService) (sym : string)
  : option (outcome (option PriceData)) :=
  match fuel with
  | O => None
  | S fuel' =>
      body ← (if decide (sym = "BTC/ETH"%string)
              then getCalculatedPrice fuel' this "BTC/ETH"
              else if decide (sym = "BNB/ETH"%string)
              then getCalculatedPrice fuel' this "BNB/ETH"
              else Some (readFeed this sym));
      Some (try_catch body returnNull)
  end
with getCalculatedPrice (fuel : nat) (this : ChainlinkPriceService) (sym : string)
  : option (outcome (option PriceData)) :=
  match fuel with
  | O => None
  | S fuel' =>
      match (if decide (sym = "BTC/ETH"%string)
             then Returned ("BTC/USD", "ETH/USD")%string
             else if decide (sym = "BNB/ETH"%string)
             then Returned ("BNB/USD", "ETH/USD")%string
             else Thrown (mkError ("Unsupported calculated price symbol: " +:+ sym)))
      with
      | Thrown error => Some (returnNull error)
      | Returned (numeratorSymbol, denominatorSymbol) =>
          numeratorFetch ← getPrice fuel' this numeratorSymbol;
          denominatorFetch ← getPrice fuel' this denominatorSymbol;
          Some (try_catch
                  (bind (Promise_all2 numeratorFetch denominatorFetch)
                     (fun '(numeratorPrice, denominatorPrice) =>
                        quotient sym numeratorPrice denominatorPrice))
                  returnNull)
      end
  end.

(** Depth three is all the calls ever need: [getPrice] of a derived
    symbol, [getCalculatedPrice], [getPrice] of a direct symbol. *)
Definition enough : nat := 3.

Definition canonicalSymbols : list string :=
  ["BTC/USD"; "ETH/USD"; "BTC/ETH"; "BNB/ETH"]%string.

(** [prices.filter(price => price !== null)] *)
Definition dropNull (prices : list (option PriceData)) : list PriceData :=
  omap id prices.

Definition getAllPrices (fuel : nat) (this : ChainlinkPriceService)
  : option (outcome (list PriceData)) :=
  let symbols := canonicalSymbols in
  fetches ← mapM (fun sym => getPrice fuel this sym) symbols;
  Some (bind (Promise_all fetches) (fun prices => Returned (dropNull prices))).

(** *** Formatting

    The locale-dependent renderings are the host's: [toLocaleString] is
    [price.toLocaleString('en-US', {minimumFractionDigits, maximumFractionDigits})],
    [toLocaleTimeString] is [new Date(timestamp).toLocaleTimeString()] and
    [nowLocaleString] is [new Date().toLocaleString()]. *)

Section Formatting.

Variable toLocaleString : number -> Z -> Z -> string.
Variable toLocaleTimeString : number -> string.
Variable nowLocaleString : string.

Definition newline : string := String (Ascii.ascii_of_nat 10) EmptyString.

Definition formatPrice (priceData : PriceData) : string :=
  let formattedPrice :=
    toLocaleString (price priceData) 2
      (if String_includes "/ETH" (symbol priceData) then 6 else 2) in
  let time := toLocaleTimeString (timestamp priceData) in
  symbol priceData +:+ ": $" +:+ formattedPrice +:+ " (" +:+ time +:+ ")".

(** [xs.join(sep)] *)
Fixpoint join (sep : string) (xs : list string) : string :=
  match xs with
  | [] => EmptyString
  | [x] => x
  | x :: rest => x +:+ sep +:+ join sep rest
  end.

Definition formatPriceMessage (priceData : list PriceData) : string :=
  if (Z.of_nat (length priceData) =? 0)
  then "ðŸ“Š No price data available"
  else
    let header := "ðŸ“Š **Crypto Price Update** ðŸ“Š" +:+ newline in
    let prices := join newline (map formatPrice priceData) in
    let footer := newline +:+ "_Updated: " +:+ nowLocaleString +:+ "_" in
    header +:+ prices +:+ footer.

End Formatting.

Definition defaultPriceFeedConfig : PriceFeedConfig :=
  {| rpcUrl := "https://sepolia-explorer.monad.xyz";
     chainId := 4202;
     isTestnet := Some true |}.

(** The singleton [priceService], on a given network. *)
Definition priceService (network : string -> JsonRpcProvider) : ChainlinkPriceService :=
  new network defaultPriceFeedConfig.

End Chainlink.

(** ** The cache of contract objects ([chainlink-price-feeds.ts]) *)

Module ContractCache.

(** An [ethers.Contract] object of a service: the ABI and the provider
    are the service's, so the object is known by the address it was built
    for. *)
Record ContractObject := mkContractObject { target : string }.

(** The field [contracts]; it is [new Map()] in a new service. *)
Abbreviation Contracts := (gmap string ContractObject).

(** [getPriceFeedContract], with the cache it keeps: what
    [this.contracts.get(address)] gives, and the cache after the call. *)
Definition getPriceFeedContract (contracts : Contracts) (address : string)
  : option ContractObject * Contracts :=
  let contracts :=
    if negb (bool_decide (is_Some (contracts !! address)))
    then <[address := mkContractObject address]> contracts
    else contracts in
  (contracts !! address, contracts).

End ContractCache.

(** ** The price bot ([price-bot.ts]) *)

Module Bot.

Import Chainlink.

(** A reference to an object of the store. *)
Definition loc := nat.

(** A handle of [setInterval] (a [NodeJS.Timeout]: always truthy). *)
Definition TimerId := positive.

Inductive MessageType := user | price_bot.

Record ChatMessage := mkChatMessage {
  id : string;
  type : MessageType;
  content : string;
  timestamp : Z;
  priceData : option (list PriceData);
  senderName : option string
}.

(** A configuration object; its [symbols] is a reference to an array. *)
Record PriceBotConfig := mkConfig {
  intervalMinutes : Z;
  enabled : bool;
  symbols : loc
}.

(** [Partial<PriceBotConfig>]: each field present, with a value, or not.
    A field that is present holds a value of its declared type: an object
    with a field set to [undefined] is not of this type (the type checker
    rejects it under [exactOptionalPropertyTypes], and the only caller of
    [updateConfig], the chat window, passes a whole configuration). *)
Record PartialConfig := mkPartial {
  intervalMinutes_opt : option Z;
  enabled_opt : option bool;
  symbols_opt : option loc
}.

(** The world a bot runs in: the store of the objects it can share with
    its callers ([fresh] is the first location not allocated yet), the
    intervals of the bot that are armed (each with its period in
    milliseconds), and every invocation of the message callback so far,
    oldest first. *)
Record World := mkWorld {
  configs : loc -> PriceBotConfig;
  arrays : loc -> list string;
  maps : loc -> gmap string PriceData;
  fresh : loc;
  timers : gmap TimerId Z;
  nextTimer : TimerId;
  calls : list ChatMessage
}.

(** The fields of a [PriceBot] object. *)
Record PriceBot := mkPriceBot {
  intervalId : option TimerId;
  config : loc;
  messageCallback : ChatMessage -> outcome unit;
  previousPrices : loc
}.

(** The places where a cycle reads the clock: [Date.now()] for the id of
    the price message, [new Date()] for the footer of its text (in
    [formatPriceMessage] of the price service), [Date.now()] for its time
    stamp, and [Date.now()] for the id and for the time stamp of the error
    message.  A cycle goes through each place once at most. *)
Inductive Reading :=
| PriceId
| PriceFooter
| PriceTimestamp
| ErrorId
| ErrorTimestamp.

(** What one update cycle meets outside the bot: what the imported
    [priceService] answers, and what the clock shows at each of its
    readings. *)
Record Env := mkEnv {
  getAllPrices : outcome (list PriceData);
  formatPriceMessage : list PriceData -> outcome string;
  Date_now : Reading -> Z
}.

(** *** The store *)

Definition allocConfig (c : PriceBotConfig) (w : World) : loc * World :=
  (fresh w,
   {| configs := <[fresh w := c]> (configs w); arrays := arrays w; maps := maps w;
      fresh := S (fresh w); timers := timers w; nextTimer := nextTimer w;
      calls := calls w |}).

Definition allocArray (a : list string) (w : World) : loc * World :=
  (fresh w,
   {| configs := configs w; arrays := <[fresh w := a]> (arrays w); maps := maps w;
      fresh := S (fresh w); timers := timers w; nextTimer := nextTimer w;
      calls := calls w |}).

Definition allocMap (m : gmap string PriceData) (w : World) : loc * World :=
  (fresh w,
   {| configs := configs w; arrays := arrays w; maps := <[fresh w := m]> (maps w);
      fresh := S (fresh w); timers := timers w; nextTimer := nextTimer w;
      calls := calls w |}).

Definition writeConfig (l : loc) (c : PriceBotConfig) (w : World) : World :=
  {| configs := <[l := c]> (configs w); arrays := arrays w; maps := maps w;
     fresh := fresh w; timers := timers w; nextTimer := nextTimer w;
     calls := calls w |}.

Definition writeArray (l : loc) (a : list string) (w : World) : World :=
  {| configs := configs w; arrays := <[l := a]> (arrays w); maps := maps w;
     fresh := fresh w; timers := timers w; nextTimer := nextTimer w;
     calls := calls w |}.

Definition writeMap (l : loc) (m : gmap string PriceData) (w : World) : World :=
  {| configs := configs w; arrays := arrays w; maps := <[l := m]> (maps w);
     fresh := fresh w; timers := timers w; nextTimer := nextTimer w;
     calls := calls w |}.

(** [setInterval(handler, period)] *)
Definition setInterval (period : Z) (w : World) : TimerId * World :=
  (nextTimer w,
   {| configs := configs w; arrays := arrays w; maps := maps w; fresh := fresh w;
      timers := <[nextTimer w := period]> (timers w);
      nextTimer := Pos.succ (nextTimer w); calls := calls w |}).

(** [clearInterval(handle)] *)
Definition clearInterval (handle : TimerId) (w : World) : World :=
  {| configs := configs w; arrays := arrays w; maps := maps w; fresh := fresh w;
     timers := delete handle (timers w); nextTimer := nextTimer w;
     calls := calls w |}.

(** [this.messageCallback(message)]: the invocation is recorded, whatever
    the callback then does. *)
Definition invokeCallback (this : PriceBot) (message : ChatMessage) (w : World)
  : World * outcome unit :=
  ({| configs := configs w; arrays := arrays w; maps := maps w; fresh := fresh w;
      timers := timers w; nextTimer := nextTimer w;
      calls := calls w ++ [message] |},
   messageCallback this message).

(** *** The class *)

Definition setIntervalId (v : option TimerId) (this : PriceBot) : PriceBot :=
  {| intervalId := v; config := config this;
     messageCallback := messageCallback this;
     previousPrices := previousPrices this |}.

Definition setConfig (l : loc) (this : PriceBot) : PriceBot :=
  {| intervalId := intervalId this; config := l;
     messageCallback := messageCallback this;
     previousPrices := previousPrices this |}.

(** [new PriceBot(config, messageCallback)]: the configuration object is
    kept by reference; [previousPrices] is a new [Map]. *)
Definition new (config : loc) (messageCallback : ChatMessage -> outcome unit)
  (w : World) : PriceBot * World :=
  let '(m, w) := allocMap ∅ w in
  ({| intervalId := None; config := config;
      messageCallback := messageCallback; previousPrices := m |}, w).

(** [this.config], read through the reference. *)
Definition theConfig (this : PriceBot) (w : World) : PriceBotConfig :=
  configs w (config this).

(** [this.config.symbols], read through both references. *)
Definition theSymbols (this : PriceBot) (w : World) : list string :=
  arrays w (symbols (theConfig this w)).

Definition priceMessage (env : Env) (content : string)
  (filteredPrices : list PriceData) : ChatMessage :=
  {| id := "price-bot-" +:+ pretty (Date_now env PriceId);
     type := price_bot;
     content := content;
     timestamp := Date_now env PriceTimestamp;
     priceData := Some filteredPrices;
     senderName := Some "Price Bot"%string |}.

Definition failureText : string := "❌ Failed to fetch latest prices. Please try again later.".

Definition errorMessage (env : Env) : ChatMessage :=
  {| id := "price-bot-error-" +:+ pretty (Date_now env ErrorId);
     type := price_bot;
     content := failureText;
     timestamp := Date_now env ErrorTimestamp;
     priceData := None;
     senderName := Some "Price Bot"%string |}.

(** [filteredPrices.forEach(price => this.previousPrices.set(price.symbol, price))] *)
Definition rememberPrices (filteredPrices : list PriceData)
  (m : gmap string PriceData) : gmap string PriceData :=
  foldl (fun m price => <[symbol price := price]> m) m filteredPrices.

(** The [try] block of [sendPriceUpdate]. *)
Definition sendPriceUpdate_try (env : Env) (this : PriceBot) (w : World)
  : World * outcome unit :=
  match getAllPrices env with
  | Returned allPrices =>
      let filteredPrices :=
        filter (fun price => symbol price ∈ theSymbols this w) allPrices in
      if (Z.of_nat (length filteredPrices) =? 0)
      then (w, Returned tt)
      else
        match formatPriceMessage env filteredPrices with
        | Returned content =>
            let message := priceMessage env content filteredPrices in
            let w :=
              writeMap (previousPrices this)
                (rememberPrices filteredPrices (maps w (previousPrices this))) w in
            invokeCallback this message w
        | Thrown e => (w, Thrown e)
        end
  | Thrown e => (w, Thrown e)
  end.

(** [sendPriceUpdate]: the [try] block, and the [catch] block when it
    threw.  The outcome is what the promise settles with. *)
Definition sendPriceUpdate (env : Env) (this : PriceBot) (w : World)
  : World * outcome unit :=
  match sendPriceUpdate_try env this w with
  | (w', Thrown error) => invokeCallback this (errorMessage env) w'
  | (w', Returned tt) => (w', Returned tt)
  end.

Definition stop (this : PriceBot) (w : World) : PriceBot * World :=
  match intervalId this with
  | Some handle => (setIntervalId None this, clearInterval handle w)
  | None => (this, w)
  end.

(** [start]: the promise of the first cycle is dropped, not awaited.  The
    code arms the interval while that cycle is suspended at its fetch; the
    model runs the cycle where it is launched, and arms the interval
    after it.  The interval that is armed, its period and the handle are
    the same either way: a cycle touches neither the configuration nor
    the intervals. *)
Definition start (env : Env) (this : PriceBot) (w : World) : PriceBot * World :=
  let '(this, w) :=
    match intervalId this with
    | Some _ => stop this w
    | None => (this, w)
    end in
  if negb (enabled (theConfig this w))
  then (this, w)
  else
    let w := fst (sendPriceUpdate env this w) in
    let '(handle, w) :=
      setInterval (intervalMinutes (theConfig this w) * 60 * 1000) w in
    (setIntervalId (Some handle) this, w).

(** [{ ...config, ...newConfig }] *)
Definition spread (c : PriceBotConfig) (newConfig : PartialConfig) : PriceBotConfig :=
  {| intervalMinutes := default (intervalMinutes c) (intervalMinutes_opt newConfig);
     enabled := default (enabled c) (enabled_opt newConfig);
     symbols := default (symbols c) (symbols_opt newConfig) |}.

Definition isRunning (this : PriceBot) : bool :=
  match intervalId this with
  | Some _ => true
  | None => false
  end.

Definition updateConfig (env : Env) (newConfig : PartialConfig)
  (this : PriceBot) (w : World) : PriceBot * World :=
  let '(l, w) := allocConfig (spread (theConfig this w) newConfig) w in
  let this := setConfig l this in
  if enabled (theConfig this w) && negb (isRunning this)
  then start env this w
  else if negb (enabled (theConfig this w)) && isRunning this
  then stop this w
  else (this, w).

(** [new Map(this.previousPrices)]: a new map with the entries of the
    bot's own.  The store holds the [PriceData] of an entry by value; in
    the code the entries of the two maps, and the [priceData] of the
    message that was sent, refer to the same [PriceData] objects.  The bot
    never changes such an object and never reads one back from its map: it
    only replaces entries.  What a caller does to the returned map is the
    setting, the deleting and the clearing of entries; a caller that
    changes a [PriceData] object in place is not followed. *)
Definition getPreviousPrices (this : PriceBot) (w : World) : loc * World :=
  allocMap (maps w (previousPrices this)) w.

(** [{ ...this.config }] *)
Definition getConfig (this : PriceBot) (w : World) : loc * World :=
  allocConfig (theConfig this w) w.

Definition triggerManualUpdate (env : Env) (this : PriceBot) (w : World)
  : World * outcome unit :=
  sendPriceUpdate env this w.

(** The interval [handle] fires: its handler starts a cycle and drops the
    promise.  A cleared interval does not fire. *)
Definition tick (handle : TimerId) (env : Env) (this : PriceBot) (w : World) : World :=
  match timers w !! handle with
  | Some _ => fst (sendPriceUpdate env this w)
  | None => w
  end.

(** The module's top level: [defaultPriceBotConfig] and its array of
    symbols are the first objects of the store.  What the store holds at
    the locations that are not allocated yet is immaterial. *)
Definition moduleWorld : World :=
  {| configs := fun _ => {| intervalMinutes := 5; enabled := true; symbols := 0%nat |};
     arrays := fun _ => ["BTC/USD"; "ETH/USD"; "BTC/ETH"; "BNB/ETH"]%string;
     maps := fun _ => ∅;
     fresh := 1%nat;
     timers := ∅;
     nextTimer := 1%positive;
     calls := [] |}.

Definition defaultPriceBotConfig : loc := 0%nat.

Definition createPriceBot (messageCallback : ChatMessage -> outcome unit) (w : World)
  : PriceBot * World :=
  new defaultPriceBotConfig messageCallback w.

(** *** The imported price service *)

(** What the promise of a call settles with; a recursion that is cut
    short is a stack that overflows. *)
Definition settled {A} (call : option (outcome A)) : outcome A :=
  match call with
  | Some r => r
  | None => Thrown (mkError "Maximum call stack size exceeded")
  end.

(** [price-bot.ts] imports the singleton [priceService].  What a cycle
    meets when that service runs on [network] and the clock shows [now]
    at each reading, with the host's renderings of numbers, of times of
    day and of dates. *)
Definition priceServiceEnv (toLocaleString : number -> Z -> Z -> string)
  (toLocaleTimeString : number -> string) (dateToLocaleString : Z -> string)
  (network : string -> JsonRpcProvider) (now : Reading -> Z) : Env :=
  {| getAllPrices := settled (Chainlink.getAllPrices enough (priceService network));
     formatPriceMessage := fun priceData =>
       Returned (Chainlink.formatPriceMessage toLocaleString toLocaleTimeString
                   (dateToLocaleString (now PriceFooter)) priceData);
     Date_now := now |}.

Definition formatPriceBotMessage (env : Env) (priceData : list PriceData)
  : outcome string :=
  formatPriceMessage env priceData.

End Bot.

(** ** The settings panel ([price-bot-settings.tsx]) *)

Module Settings.

Import Chainlink Bot.

Definition availableSymbols : list string :=
  ["BTC/USD"; "ETH/USD"; "BTC/ETH"; "BNB/ETH"]%string.

(** The state of the panel is the configuration that is being edited: a
    configuration object of the store.  Its first value is
    [priceBot?.getConfig() || { ... }]. *)
Definition initialConfig (priceBot : option PriceBot) (w : World) : loc * World :=
  match priceBot with
  | Some bot => getConfig bot w
  | None =>
      let '(a, w) := allocArray ["BTC/USD"; "ETH/USD"; "BTC/ETH"; "BNB/ETH"]%string w in
      allocConfig {| intervalMinutes := 5; enabled := true; symbols := a |} w
  end.

(** [checked ? [...config.symbols, symbol] : config.symbols.filter(s => s !== symbol)] *)
Definition newSymbols (current : list string) (symbol : string) (checked : bool)
  : list string :=
  if checked then current ++ [symbol]
  else filter (fun s => s <> symbol) current.

(** [handleSymbolToggle]: the new state is [{ ...prev, symbols: newSymbols }],
    where [prev] is the state the handler has read [config.symbols] from. *)
Definition handleSymbolToggle (config : loc) (symbol : string) (checked : bool)
  (w : World) : loc * World :=
  let prev := configs w config in
  let '(a, w) := allocArray (newSymbols (arrays w (symbols prev)) symbol checked) w in
  allocConfig {| intervalMinutes := intervalMinutes prev; enabled := enabled prev;
                 symbols := a |} w.

(** The switch: the new state is [{ ...prev, enabled: checked }]. *)
Definition handleEnabledChange (config : loc) (checked : bool) (w : World)
  : loc * World :=
  let prev := configs w config in
  allocConfig {| intervalMinutes := intervalMinutes prev; enabled := checked;
                 symbols := symbols prev |} w.

(** The whole configuration, as the partial one [onConfigChange] takes. *)
Definition asPartial (c : PriceBotConfig) : PartialConfig :=
  {| intervalMinutes_opt := Some (intervalMinutes c);
     enabled_opt := Some (enabled c);
     symbols_opt := Some (symbols c) |}.

(** [handleApply]: [onConfigChange(config)], then [onClose()]; [config]
    is the state of the panel, [s] the state of its parent. *)
Definition handleApply {S} (onConfigChange : PartialConfig -> S -> S)
  (onClose : S -> S) (config : PriceBotConfig) (s : S) : S :=
  onClose (onConfigChange (asPartial config) s).

(** [handleTest]: the manual update is awaited inside [try]; the [catch]
    block logs. *)
Definition handleTest (env : Env) (priceBot : option PriceBot) (w : World)
  : World * outcome unit :=
  match priceBot with
  | Some bot =>
      let '(w, r) := triggerManualUpdate env bot w in
      (w, try_catch r (fun error => Returned tt))
  | None => (w, Returned tt)
  end.

End Settings.

(** ** The chat window ([chat-window.tsx], [price-message.tsx]) *)

Module ChatWindow.

Import Chainlink Bot.

(** The state of the window that the bot bears on: the bot, whether the
    settings panel is shown, and the world.  The state [priceBotMessages]
    grows by one message at each invocation of the callback; the world
    records these invocations. *)
Record State := mkState {
  priceBot : option PriceBot;
  showPriceBotSettings : bool;
  world : World
}.

(** The callback the window gives the bot:
    [setPriceBotMessages(prev => [...prev, message])]. *)
Definition onPriceBotMessage : ChatMessage -> outcome unit :=
  fun message => Returned tt.

(** The effect that runs when a user is connected: the bot is created and
    started. *)
Definition mount (env : Env) (w : World) : State :=
  let '(bot, w) := createPriceBot onPriceBotMessage w in
  let '(bot, w) := start env bot w in
  {| priceBot := Some bot; showPriceBotSettings := false; world := w |}.

(** The clean-up of that effect: [bot.stop()]. *)
Definition unmount (s : State) : State :=
  match priceBot s with
  | Some bot =>
      let '(bot, w) := stop bot (world s) in
      {| priceBot := Some bot; showPriceBotSettings := showPriceBotSettings s;
         world := w |}
  | None => s
  end.

Definition handlePriceBotConfigChange (env : Env) (newConfig : PartialConfig)
  (s : State) : State :=
  match priceBot s with
  | Some bot =>
      let '(bot, w) := updateConfig env newConfig bot (world s) in
      {| priceBot := Some bot; showPriceBotSettings := showPriceBotSettings s;
         world := w |}
  | None => s
  end.

(** [onClose] of the panel: [setShowPriceBotSettings(false)]. *)
Definition closeSettings (s : State) : State :=
  {| priceBot := priceBot s; showPriceBotSettings := false; world := world s |}.

(** *** What is shown of a message of the bot *)

Section Rendering.

Variable toLocaleString : number -> Z -> Z -> string.
Variable dateToLocaleTimeString : Z -> string.

(** The card of [SimplePriceMessage]: the time in its head, and a row,
    of a label and a price, for each entry. *)
Record Card := mkCard {
  time : string;
  rows : list (string * string)
}.

(** [formatPrice] of [SimplePriceMessage] and of [PriceMessage] *)
Definition formatPrice (price : number) (symbol : string) : string :=
  toLocaleString price 2 (if String_includes "/ETH" symbol then 6 else 2).

Definition SimplePriceMessage (priceData : list PriceData) (timestamp : Z) : Card :=
  {| time := dateToLocaleTimeString timestamp;
     rows := map (fun data => (symbol data +:+ ":",
                               "$" +:+ formatPrice (price data) (symbol data)))
               priceData |}.

(** The branch of the list for a message of type price-bot:
    [<SimplePriceMessage priceData={message.priceData || []}
    timestamp={message.timestamp} />]. *)
Definition renderPriceBotMessage (message : ChatMessage) : Card :=
  SimplePriceMessage (default [] (priceData message)) (timestamp message).

End Rendering.

End ChatWindow.

(** ** The price card with trends ([price-message.tsx]) *)

Module PriceMessage.

Import Chainlink.

Inductive Icon := Minus | TrendingUp | TrendingDown.

(** [previousPrices?.find(p => p.symbol === data.symbol)] *)
Definition previousOf (previousPrices : option (list PriceData)) (data : PriceData)
  : option PriceData :=
  match previousPrices with
  | Some previousPrices =>
      List.find (fun p => bool_decide (symbol p = symbol data)) previousPrices
  | None => None
  end.

(** [getPriceChange]: [null] without a previous price, else the change in
    per cent. *)
Definition getPriceChange (current : PriceData) (previous : option PriceData)
  : option number :=
  match previous with
  | None => None
  | Some previous =>
      Some (mul (div (sub (price current) (price previous)) (price previous))
              (ofBigInt 100))
  end.

Definition getTrendIcon (change : option number) : Icon :=
  match change with
  | None => Minus
  | Some change =>
      if ltb zero change then TrendingUp
      else if ltb change zero then TrendingDown
      else Minus
  end.

Definition getTrendColor (change : option number) : string :=
  match change with
  | None => "text-gray-400"
  | Some change =>
      if ltb zero change then "text-green-500"
      else if ltb change zero then "text-red-500"
      else "text-gray-400"
  end.

End PriceMessage.

(** ** The vocabulary of the specification *)

Module NumberSpec.

(** [x] is a zero, a finite number or an infinity of sign bit [s]; in
    particular it is not [NaN]. *)
Definition hasSign (s : bool) (x : number) : Prop :=
  match x with
  | S754_zero s' | S754_finite s' _ _ | S754_infinity s' => s' = s
  | S754_nan => False
  end.

(** The normal double of mantissa [M] and exponent [E], whose value is
    [M * 2^E], is the double nearest to the fraction [a / b] (with [0 <= a]
    and [0 < b]), a tie going to the even mantissa.  The double, the
    fraction and the gap [2^E] to the next double are compared after
    scaling all three by [b] and by the power of two that makes them
    integers: [x], [v] and [ulp].  Above [x] the next double is [ulp]
    away; below, it is [ulp] away too, unless [M] is the smallest
    mantissa, where the doubles below are twice as dense; so [x] is
    nearest when [v] lies within half of the gap on its side. *)
Definition nearestMantissa (a b : Z) (M : positive) (E : Z) : Prop :=
  2 ^ 52 <= Z.pos M < 2 ^ 53 /\ -1074 < E <= 971 /\
  let up := 2 ^ Z.max E 0 in
  let down := 2 ^ Z.max (- E) 0 in
  let x := Z.pos M * up * b in
  let v := a * down in
  let ulp := up * b in
  (x <= v ->
     2 * (v - x) <= ulp /\ (2 * (v - x) = ulp -> Z.even (Z.pos M) = true)) /\
  (v < x ->
     if Z.pos M =? 2 ^ 52 then 4 * (x - v) <= ulp
     else 2 * (x - v) <= ulp /\
          (2 * (x - v) = ulp -> Z.even (Z.pos M) = true)).

(** [x] is the double nearest to [a / b]: [+0] for a zero numerator, and
    otherwise the normal double of the sign of [a] whose magnitude is
    nearest to [|a| / b]. *)
Definition nearestDouble (a b : Z) (x : number) : Prop :=
  match x with
  | S754_zero s => a = 0 /\ s = false
  | S754_finite s M E => s = (a <? 0) /\ nearestMantissa (Z.abs a) b M E
  | _ => False
  end.

(** The shifted mantissa [shr_m mrs], with its round and sticky bits,
    locates the fraction [a / b]: the mantissa is its integer part, and
    the two bits tell whether the rest is zero, below, at or above one
    half. *)
Definition locates (a b : Z) (mrs : shr_record) : Prop :=
  0 < b /\ shr_m mrs * b <= a < (shr_m mrs + 1) * b /\
  match loc_of_shr_record mrs with
  | loc_Exact => a = shr_m mrs * b
  | loc_Inexact c => a <> shr_m mrs * b /\ (2 * (a - shr_m mrs * b) ?= b) = c
  end.

End NumberSpec.

Module ChainlinkSpec.

Import Chainlink.

(** The derived symbols, each with its numerator and its denominator. *)
Definition constituents (sym : string) : option (string * string) :=
  if decide (sym = "BTC/ETH"%string) then Some ("BTC/USD", "ETH/USD")%string
  else if decide (sym = "BNB/ETH"%string) then Some ("BNB/USD", "ETH/USD")%string
  else None.

Definition isDirect (sym : string) : Prop := constituents sym = None.

(** What [getPrice] settles with when it has fuel enough: [None] is the
    "no result" of the specification. *)
Definition fetched (this : ChainlinkPriceService) (sym : string) : option PriceData :=
  match getPrice enough this sym with
  | Some (Returned r) => r
  | _ => None
  end.

(** A network on which every call is rejected. *)
Definition deadNetwork : string -> JsonRpcProvider :=
  fun _ _ => {| latestRoundData := Thrown (mkError "network error");
                getDecimals := Thrown (mkError "network error") |}.

Definition btcRound : RoundData :=
  {| roundId := 1; answer := 4512345000000; startedAt := 1700000000;
     updatedAt := 1700000000; answeredInRound := 1 |}.

Definition ethRound : RoundData :=
  {| roundId := 1; answer := 250000000000; startedAt := 1700000100;
     updatedAt := 1700000100; answeredInRound := 1 |}.

(** A network that serves the Sepolia feeds of BTC/USD and ETH/USD, with
    eight decimals each, and nothing behind the address of BNB/USD. *)
Definition sepoliaNetwork : string -> JsonRpcProvider :=
  fun _ address =>
    if decide (address = "0x1b44F3514812d835EB1BDB0acB33d3fA3351Ee43"%string)
    then {| latestRoundData := Returned btcRound; getDecimals := Returned 8 |}
    else if decide (address = "0x694AA1769357215DE4FAC081bf1f309aDC325306"%string)
    then {| latestRoundData := Returned ethRound; getDecimals := Returned 8 |}
    else {| latestRoundData := Thrown (mkError "call revert exception");
            getDecimals := Thrown (mkError "call revert exception") |}.

(** What that network gives for the two direct symbols. *)
Definition btcPrice : PriceData :=
  {| symbol := "BTC/USD";
     price := scaleDown (answer btcRound) 8;
     timestamp := mul (ofBigInt (updatedAt btcRound)) (ofBigInt 1000);
     decimals := ofBigInt 8 |}.

Definition ethPrice : PriceData :=
  {| symbol := "ETH/USD";
     price := scaleDown (answer ethRound) 8;
     timestamp := mul (ofBigInt (updatedAt ethRound)) (ofBigInt 1000);
     decimals := ofBigInt 8 |}.

(** The symbols a feed table has an address for, and those [getPrice]
    has a way to fetch. *)
Definition feedSymbols : list string := ["BTC/USD"; "ETH/USD"; "BNB/USD"]%string.

Definition supportedSymbols : list string :=
  feedSymbols ++ ["BTC/ETH"; "BNB/ETH"]%string.

(** [Number.isFinite(x)] *)
Definition isFinite (x : number) : bool :=
  match x with
  | S754_zero _ | S754_finite _ _ _ => true
  | S754_infinity _ | S754_nan => false
  end.

(** A round whose answer is zero, and a network that serves it for
    ETH/USD beside the round of BTC/USD. *)
Definition zeroRound : RoundData :=
  {| roundId := 2; answer := 0; startedAt := 1700000200;
     updatedAt := 1700000200; answeredInRound := 2 |}.

Definition zeroEthNetwork : string -> JsonRpcProvider :=
  fun _ address =>
    if decide (address = "0x1b44F3514812d835EB1BDB0acB33d3fA3351Ee43"%string)
    then {| latestRoundData := Returned btcRound; getDecimals := Returned 8 |}
    else {| latestRoundData := Returned zeroRound; getDecimals := Returned 8 |}.

(** A round of BTC/USD whose answer is below zero, and one that differs
    from [btcRound] in what [getPrice] does not read: it was started
    earlier and was answered in an earlier round. *)
Definition negativeRound : RoundData :=
  {| roundId := 3; answer := -150000000; startedAt := 1700000300;
     updatedAt := 1700000300; answeredInRound := 3 |}.

Definition staleRound : RoundData :=
  {| roundId := 9; answer := 4512345000000; startedAt := 1600000000;
     updatedAt := 1700000000; answeredInRound := 1 |}.

(** The Sepolia network of the examples, with another round of BTC/USD. *)
Definition withBtcRound (rd : RoundData) : string -> JsonRpcProvider :=
  fun url address =>
    if decide (address = "0x1b44F3514812d835EB1BDB0acB33d3fA3351Ee43"%string)
    then {| latestRoundData := Returned rd; getDecimals := Returned 8 |}
    else sepoliaNetwork url address.

(** Two services read the same: they have the same feed table, and at
    every address their contracts report the same decimals and rounds with
    the same answer and the same time of update, or both fail. *)
Definition readAlike (this this' : ChainlinkPriceService) : Prop :=
  priceFeeds this = priceFeeds this' /\
  forall address,
    match getDecimals (provider this address), getDecimals (provider this' address) with
    | Returned dec, Returned dec' => dec = dec'
    | Thrown _, Thrown _ => True
    | _, _ => False
    end /\
    match latestRoundData (provider this address),
          latestRoundData (provider this' address) with
    | Returned rd, Returned rd' => answer rd = answer rd' /\ updatedAt rd = updatedAt rd'
    | Thrown _, Thrown _ => True
    | _, _ => False
    end.

(** *** Texts *)

Definition lineFeed : Ascii.ascii := Ascii.ascii_of_nat 10.

(** [s.split('\n')]: the lines of a text, one at least. *)
Fixpoint lines (s : string) : list string :=
  match s with
  | EmptyString => [EmptyString]
  | String a s' =>
      if decide (a = lineFeed) then EmptyString :: lines s'
      else match lines s' with
           | l :: ls => String a l :: ls
           | [] => [String a EmptyString]
           end
  end.

(** There is no line break in [s]. *)
Fixpoint oneLine (s : string) : bool :=
  match s with
  | EmptyString => true
  | String a s' => if decide (a = lineFeed) then false else oneLine s'
  end.

(** The two fixed lines of [formatPriceMessage]. *)
Definition noDataLine : string := "ðŸ“Š No price data available".

Definition headerLine : string := "ðŸ“Š **Crypto Price Update** ðŸ“Š".

(** Host renderings of the examples: of a number, of a time of day, of a
    date. *)
Definition plainNumber : number -> Z -> Z -> string :=
  fun _ _ _ => "45,123.45"%string.

Definition plainTime : number -> string := fun _ => "10:13:20 PM"%string.

Definition plainDate : Z -> string := fun now => pretty now.

(** *** The cache *)

(** The contract objects a run of calls of [getPriceFeedContract]
    returns, and the cache after it. *)
Fixpoint requests (addresses : list string) (contracts : ContractCache.Contracts)
  : list (option ContractCache.ContractObject) * ContractCache.Contracts :=
  match addresses with
  | [] => ([], contracts)
  | address :: rest =>
      let '(object, contracts) := ContractCache.getPriceFeedContract contracts address in
      let '(objects, contracts) := requests rest contracts in
      (object :: objects, contracts)
  end.

End ChainlinkSpec.

Module BotSpec.

Import Chainlink Bot.

(** What the host can do with a bot: the public methods, and the firing
    of an interval. *)
Inductive Op :=
| OpStart (env : Env)
| OpStop
| OpUpdateConfig (newConfig : PartialConfig) (env : Env)
| OpTriggerManualUpdate (env : Env)
| OpTick (handle : TimerId) (env : Env)
| OpGetConfig
| OpGetPreviousPrices.

Definition step (op : Op) (s : PriceBot * World) : PriceBot * World :=
  let '(this, w) := s in
  match op with
  | OpStart env => start env this w
  | OpStop => stop this w
  | OpUpdateConfig newConfig env => updateConfig env newConfig this w
  | OpTriggerManualUpdate env => (this, fst (triggerManualUpdate env this w))
  | OpTick handle env => (this, tick handle env this w)
  | OpGetConfig => (this, snd (getConfig this w))
  | OpGetPreviousPrices => (this, snd (getPreviousPrices this w))
  end.

(** The states of a bot: built by the constructor on an allocated
    configuration object, in a world where no interval is armed yet, and
    then driven by the host. *)
Inductive reachable : PriceBot * World -> Prop :=
| reachable_new config messageCallback w :
    (config < fresh w)%nat -> timers w = ∅ ->
    reachable (new config messageCallback w)
| reachable_step op s : reachable s -> reachable (step op s).

(** A run of operations of the host, first to last. *)
Definition run (ops : list Op) (s : PriceBot * World) : PriceBot * World :=
  foldl (fun s op => step op s) s ops.




(** A run of interval firings: each names the handle that fires. *)
Definition ticks (fired : list (TimerId * Env)) (this : PriceBot) (w : World) : World :=
  foldl (fun w '(handle, env) => tick handle env this w) w fired.

(** The armed intervals are the one the bot holds the handle of, if any. *)
Definition timerShape (this : PriceBot) (w : World) : Prop :=
  match intervalId this with
  | Some handle => exists period, timers w = {[handle := period]}
  | None => timers w = ∅
  end.

(** The two objects the bot refers to have been allocated. *)
Definition allocated (this : PriceBot) (w : World) : Prop :=
  (config this < fresh w)%nat /\ (previousPrices this < fresh w)%nat.

Definition timerInvariant (s : PriceBot * World) : Prop :=
  let '(this, w) := s in
  timerShape this w /\
  (isRunning this = true -> enabled (theConfig this w) = true) /\
  allocated this w.

(** An error message of the bot: the fixed text, and no [priceData]. *)
Definition isErrorMessage (m : ChatMessage) : Prop :=
  content m = failureText /\ priceData m = None.

(** The fetched prices that pass the filter of a cycle. *)
Definition selected (this : PriceBot) (w : World) (allPrices : list PriceData)
  : list PriceData :=
  filter (fun price => symbol price ∈ theSymbols this w) allPrices.

(** A step of an update cycle throws [e]: the fetch, the formatting, or
    the callback on the price message. *)
Inductive cycleFails (env : Env) (this : PriceBot) (w : World) (e : Error) : Prop :=
| fetchFails :
    getAllPrices env = Thrown e -> cycleFails env this w e
| formatFails allPrices :
    getAllPrices env = Returned allPrices ->
    selected this w allPrices <> [] ->
    formatPriceMessage env (selected this w allPrices) = Thrown e ->
    cycleFails env this w e
| emitFails allPrices content :
    getAllPrices env = Returned allPrices ->
    selected this w allPrices <> [] ->
    formatPriceMessage env (selected this w allPrices) = Returned content ->
    messageCallback this (priceMessage env content (selected this w allPrices)) = Thrown e ->
    cycleFails env this w e.

(** *** Hosts and environments of the examples *)

(** A message sink that accepts every message, and one that is broken. *)
Definition quietCallback : ChatMessage -> outcome unit := fun _ => Returned tt.

Definition brokenCallback : ChatMessage -> outcome unit :=
  fun _ => Thrown (mkError "sink failed").

Definition plainFormat : list PriceData -> outcome string :=
  fun _ => Returned "prices"%string.

(** The service returns no price at all. *)
Definition emptyEnv : Env :=
  {| getAllPrices := Returned [];
     formatPriceMessage := plainFormat;
     Date_now := fun _ => 1700000000000 |}.

(** The service returns the price of BTC/USD. *)
Definition btcEnv : Env :=
  {| getAllPrices := Returned [ChainlinkSpec.btcPrice];
     formatPriceMessage := plainFormat;
     Date_now := fun _ => 1700000000000 |}.

(** The fetch is rejected. *)
Definition failingEnv : Env :=
  {| getAllPrices := Thrown (mkError "fetch failed");
     formatPriceMessage := plainFormat;
     Date_now := fun _ => 1700000000000 |}.

(** The service returns the price of BTC/USD while the clock moves on:
    seven milliseconds pass between the reading for the id of a message
    and the reading for its time stamp. *)
Definition driftingEnv : Env :=
  {| getAllPrices := Returned [ChainlinkSpec.btcPrice];
     formatPriceMessage := plainFormat;
     Date_now := fun reading =>
       match reading with
       | PriceId | ErrorId => 1700000000000
       | PriceFooter => 1700000000003
       | PriceTimestamp | ErrorTimestamp => 1700000000007
       end |}.

(** [createPriceBot] on the module's world, with either sink. *)
Definition quietBot : PriceBot := fst (createPriceBot quietCallback moduleWorld).
Definition brokenBot : PriceBot := fst (createPriceBot brokenCallback moduleWorld).
Definition firstWorld : World := snd (createPriceBot quietCallback moduleWorld).


(** The bot is started and then stopped. *)
Definition startedAndStopped : PriceBot * World :=
  step OpStop (step (OpStart btcEnv) (quietBot, firstWorld)).

(** *** What the bot leaves behind *)

(** Every entry of a map of previous prices is filed under its own
    symbol. *)
Definition keyedBySymbol (m : gmap string PriceData) : Prop :=
  forall k p, m !! k = Some p -> symbol p = k.

(** A message as the bot builds them: of type price-bot, signed Price
    Bot, and either a price message, with a list of prices that is not
    empty, or the error message; its id is made of its kind and of a
    reading of the clock, in decimal.  The time stamp is another reading:
    it need not be the one in the id. *)
Definition botMessage (m : ChatMessage) : Prop :=
  type m = price_bot /\ senderName m = Some "Price Bot"%string /\
  ((exists prices, priceData m = Some prices /\ prices <> [] /\
      exists reading : Z, id m = "price-bot-" +:+ pretty reading) \/
   (isErrorMessage m /\
    exists reading : Z, id m = "price-bot-error-" +:+ pretty reading)).

(** How the world of a bot whose map of previous prices is at [history]
    can differ from an earlier one: objects have been allocated, none that
    existed has been written to but the map at [history], where prices
    have been recorded; the callback has been invoked with messages of the
    bot; handles have been issued, and the armed ones were armed before or
    have been issued since. *)
Record evolves (history : loc) (w w' : World) : Prop := mkEvolves {
  evolves_fresh : (fresh w <= fresh w')%nat;
  evolves_store : forall l, (l < fresh w)%nat ->
    configs w' l = configs w l /\ arrays w' l = arrays w l /\
    (l <> history -> maps w' l = maps w l);
  evolves_history : exists recorded,
    maps w' history = rememberPrices recorded (maps w history);
  evolves_calls : exists sent,
    calls w' = calls w ++ sent /\ Forall botMessage sent;
  evolves_nextTimer : (nextTimer w <= nextTimer w')%positive;
  evolves_timers : forall handle, is_Some (timers w' !! handle) ->
    is_Some (timers w !! handle) \/
    (nextTimer w <= handle < nextTimer w')%positive
}.

End BotSpec.

Module PanelSpec.

Import Chainlink Bot Settings.

(** What the user does in the settings panel before Apply: a checkbox of
    a symbol is set or cleared, the switch is set or cleared. *)
Inductive Edit :=
| Toggle (symbol : string) (checked : bool)
| Enable (checked : bool).

(** The state of the panel after an edit, and after a run of edits. *)
Definition edit (e : Edit) (s : loc * World) : loc * World :=
  match e with
  | Toggle symbol checked => handleSymbolToggle (fst s) symbol checked (snd s)
  | Enable checked => handleEnabledChange (fst s) checked (snd s)
  end.

Definition edits (es : list Edit) (s : loc * World) : loc * World :=
  foldl (fun s e => edit e s) s es.

(** What a run of edits makes of a list of symbols, and of the switch. *)
Definition editedSymbols (es : list Edit) (current : list string) : list string :=
  foldl (fun l e => match e with
                    | Toggle symbol checked => newSymbols l symbol checked
                    | Enable _ => l
                    end) current es.

Definition editedEnabled (es : list Edit) (current : bool) : bool :=
  foldl (fun b e => match e with
                    | Toggle _ _ => b
                    | Enable checked => checked
                    end) current es.

End PanelSpec.

(** ** Properties of the numbers *)

Module NumberFacts.

Import NumberSpec.

(** Rounding a mantissa that is not negative never yields [NaN], and keeps
    the sign it was given. *)

Lemma shr_1_nonneg mrs : 0 <= shr_m mrs -> 0 <= shr_m (shr_1 mrs).
Proof.
  destruct mrs as [m r s]; simpl.
  destruct m as [|p|p]; [done| |lia].
  intros _. destruct p; simpl; lia.
Qed.

Lemma iter_shr_1_nonneg p :
  forall mrs, 0 <= shr_m mrs -> 0 <= shr_m (SpecFloat.iter_pos shr_1 p mrs).
Proof.
  induction p as [p IH|p IH|]; intros mrs H; simpl.
  - apply IH, IH, shr_1_nonneg, H.
  - apply IH, IH, H.
  - apply shr_1_nonneg, H.
Qed.

Lemma shr_fexp_nonneg m e l :
  0 <= m -> 0 <= shr_m (fst (shr_fexp prec emax m e l)).
Proof.
  intros H. unfold shr_fexp, shr.
  assert (Hm : 0 <= shr_m (shr_record_of_loc m l)).
  { destruct l as [|[]]; simpl; exact H. }
  destruct (fexp prec emax (Zdigits2 m + e) - e); simpl; auto using iter_shr_1_nonneg.
Qed.

Lemma round_nearest_even_nonneg m l : 0 <= m -> 0 <= round_nearest_even m l.
Proof.
  intros H. destruct l as [|[]]; simpl; try lia.
  destruct (Z.even m); lia.
Qed.

Lemma binary_round_aux_sign sx mx ex lx :
  0 <= mx -> hasSign sx (binary_round_aux prec emax sx mx ex lx).
Proof.
  intros H. unfold binary_round_aux.
  pose proof (shr_fexp_nonneg mx ex lx H) as H1.
  destruct (shr_fexp prec emax mx ex lx) as [mrs' e']. simpl in H1.
  pose proof (shr_fexp_nonneg _ e' loc_Exact
                (round_nearest_even_nonneg _ (loc_of_shr_record mrs') H1)) as H2.
  destruct (shr_fexp prec emax _ e' loc_Exact) as [mrs'' e'']. simpl in H2.
  destruct (shr_m mrs'') as [|m|m]; simpl; [done| |lia].
  destruct (e'' <=? emax - prec); done.
Qed.

Lemma ofBigInt_notNaN z : exists s, hasSign s (ofBigInt z).
Proof.
  unfold ofBigInt, binary_normalize.
  destruct z as [|m|m].
  - by exists false.
  - exists false. unfold binary_round. destruct (shl_align _ _ _) as [mz ez].
    apply binary_round_aux_sign. lia.
  - exists true. unfold binary_round. destruct (shl_align _ _ _) as [mz ez].
    apply binary_round_aux_sign. lia.
Qed.

Lemma ofBigInt_1000 : ofBigInt 1000 = S754_finite false 8796093022208000 (-43).
Proof. reflexivity. Qed.

Lemma mul_finite_sign sx x sy m e :
  hasSign sx x -> hasSign (xorb sx sy) (mul x (S754_finite sy m e)).
Proof.
  destruct x as [s|s| |s mx ex]; simpl; try done; intros ->; try done.
  apply binary_round_aux_sign. lia.
Qed.

Lemma div_finite_sign sx mx ex sy my ey :
  hasSign (xorb sx sy) (div (S754_finite sx mx ex) (S754_finite sy my ey)).
Proof.
  unfold div, SFdiv, SFdiv_core_binary.
  set (s := _ - _ - _).
  set (m' := match s with Z.pos _ => _ | _ => _ end).
  assert (Hm : 0 <= m').
  { subst m'. destruct s; try lia. apply Z.shiftl_nonneg. lia. }
  pose proof (Z_div_mod m' (Z.pos my) eq_refl) as Hdiv.
  destruct (Z.div_eucl m' (Z.pos my)) as [q r].
  apply binary_round_aux_sign. nia.
Qed.

Lemma scaleDown_sign value decimals :
  0 <= value -> hasSign false (scaleDown value decimals).
Proof.
  intros H. unfold scaleDown.
  destruct value as [|m|m]; [done| |lia].
  apply (div_finite_sign false m 0 false).
Qed.

Lemma hasSign_false_nonneg x :
  hasSign false x -> leb zero x = true /\ ltb x zero = false.
Proof. destruct x as [s|s| |s m e]; simpl; try done; intros ->; done. Qed.

(** The order of the numbers that are not [NaN]. *)

Lemma compare_refl s x : hasSign s x -> SFcompare x x = Some Eq.
Proof.
  destruct x as [s'|s'| |s' m e]; simpl; try done; intros _.
  - by destruct s'.
  - destruct s'; rewrite Z.compare_refl, Pos.compare_cont_refl; done.
Qed.

Lemma compare_antisym x y c :
  SFcompare x y = Some c -> SFcompare y x = Some (CompOpp c).
Proof.
  destruct x as [s|s| |s m e], y as [s'|s'| |s' m' e']; simpl; try done;
    try (intros [= <-]; by repeat match goal with b : bool |- _ => destruct b end).
  intros [= <-]. f_equal.
  rewrite (Z.compare_antisym e e').
  destruct s, s'; simpl; try done;
    destruct (e ?= e'); simpl; try done;
    by rewrite (Pos.compare_cont_antisym m m' Eq).
Qed.

(** [Math.max] of two numbers that are not [NaN] is one of them, and no
    smaller than either. *)
Lemma Math_max_spec sa a sb b :
  hasSign sa a -> hasSign sb b ->
  leb a (Math_max a b) = true /\ leb b (Math_max a b) = true /\
  (Math_max a b = a \/ Math_max a b = b).
Proof.
  intros Ha Hb. unfold Math_max, leb, SFleb.
  destruct (SFcompare a b) as [c|] eqn:Hc.
  2:{ destruct a, b; simpl in *; done. }
  pose proof (compare_antisym _ _ _ Hc) as Hc'.
  pose proof (compare_refl _ _ Ha) as Hra. pose proof (compare_refl _ _ Hb) as Hrb.
  destruct c; simpl in Hc'.
  - destruct a as [[]| | |]; rewrite ?Hc, ?Hc', ?Hra, ?Hrb; auto.
  - rewrite Hc, Hrb. auto.
  - rewrite Hc', Hra. auto.
Qed.

(** Worked examples: 45123.45 from a feed of eight decimals, a negative
    answer, one wei in ether, more decimals than [formatUnits] takes, and a
    time stamp in seconds turned into milliseconds. *)
Example Number_formatUnits_example :
  Number_formatUnits 4512345000000 8
    = Returned (S754_finite false 6201719745046118 (-37)) /\
  Number_formatUnits (-150000000) 8
    = Returned (S754_finite true 6755399441055744 (-52)) /\
  Number_formatUnits 1 18
    = Returned (S754_finite false 5192296858534828 (-112)) /\
  Number_formatUnits 0 8 = Returned zero /\
  Number_formatUnits 1 81
    = Thrown (mkError "invalid FixedNumber decimals (too large)") /\
  mul (ofBigInt 1700000000) (ofBigInt 1000) = ofBigInt 1700000000000.
Proof. repeat split; reflexivity. Qed.

(** *** Division rounds to the nearest double *)

Lemma digits2_size p : digits2_pos p = Pos.size p.
Proof. induction p as [p IH|p IH|]; simpl; by rewrite ?IH. Qed.

Lemma digits2_bounds p :
  2 ^ (Z.pos (digits2_pos p) - 1) <= Z.pos p < 2 ^ Z.pos (digits2_pos p).
Proof.
  rewrite digits2_size. pose proof (Pos.size_gt p) as Hgt.
  pose proof (Pos.size_le p) as Hle.
  apply Pos2Z.pos_lt_pos in Hgt. apply Pos2Z.pos_le_pos in Hle.
  rewrite Pos2Z.inj_pow in Hgt, Hle. change (2 * 1) with 2 in Hle.
  split; [|exact Hgt].
  assert (H2 : 2 ^ Z.pos (Pos.size p) = 2 * 2 ^ (Z.pos (Pos.size p) - 1)).
  { rewrite <- Z.pow_succ_r by lia. f_equal. lia. }
  lia.
Qed.

Lemma digits2_unique p g :
  2 ^ (g - 1) <= Z.pos p < 2 ^ g -> Z.pos (digits2_pos p) = g.
Proof.
  intros [Hlo Hhi]. pose proof (digits2_bounds p) as [Hlo' Hhi'].
  assert (0 < g).
  { destruct (Z_lt_le_dec 0 g) as [|Hg]; [done|].
    assert (2 ^ g <= 1).
    { destruct (Z.eq_dec g 0) as [->|]; [done|]. rewrite Z.pow_neg_r by lia. lia. }
    lia. }
  assert (Hlt1 : 2 ^ (g - 1) < 2 ^ Z.pos (digits2_pos p)) by lia.
  assert (Hlt2 : 2 ^ (Z.pos (digits2_pos p) - 1) < 2 ^ g) by lia.
  apply Z.pow_lt_mono_r_iff in Hlt1; [|lia|lia].
  apply Z.pow_lt_mono_r_iff in Hlt2; [|lia|lia]. lia.
Qed.

Lemma shr_1_eq m r s :
  0 <= m ->
  exists q (d : bool), m = 2 * q + (if d then 1 else 0) /\ 0 <= q /\
    shr_1 (Build_shr_record m r s) = Build_shr_record q d (r || s).
Proof.
  intros Hm. destruct m as [|[p|p|]|p]; [| | | |lia].
  - exists 0, false. done.
  - exists (Z.pos p), true. split; [lia|]. split; [lia|done].
  - exists (Z.pos p), false. split; [lia|]. split; [lia|done].
  - exists 0, true. done.
Qed.

Lemma compare_Lt_intro x y : x < y -> (x ?= y) = Lt.
Proof. apply Z.compare_lt_iff. Qed.
Lemma compare_Gt_intro x y : y < x -> (x ?= y) = Gt.
Proof. apply Z.compare_gt_iff. Qed.
Lemma compare_Eq_intro x y : x = y -> (x ?= y) = Eq.
Proof. apply Z.compare_eq_iff. Qed.

Lemma locates_intro a b m (r s : bool) :
  0 < b -> m * b <= a < (m + 1) * b ->
  (r = false -> s = false -> a = m * b) ->
  (r = false -> s = true -> a <> m * b /\ 2 * (a - m * b) < b) ->
  (r = true -> s = false -> 2 * (a - m * b) = b) ->
  (r = true -> s = true -> b < 2 * (a - m * b)) ->
  locates a b (Build_shr_record m r s).
Proof.
  intros Hb Hm H00 H01 H10 H11. split; [done|]. split; [done|].
  destruct r, s; simpl.
  - split; [lia|]. apply compare_Gt_intro. auto.
  - split; [lia|]. apply compare_Eq_intro. auto.
  - destruct (H01 eq_refl eq_refl) as [? ?]. split; [done|]. by apply compare_Lt_intro.
  - auto.
Qed.

Lemma locates_elim a b m (r s : bool) :
  locates a b (Build_shr_record m r s) ->
  0 < b /\ m * b <= a < (m + 1) * b /\
  (r = false -> s = false -> a = m * b) /\
  (r = false -> s = true -> a <> m * b /\ 2 * (a - m * b) < b) /\
  (r = true -> s = false -> 2 * (a - m * b) = b) /\
  (r = true -> s = true -> b < 2 * (a - m * b)).
Proof.
  intros (Hb & Hm & Hloc). split; [done|]. split; [done|].
  destruct r, s; simpl in Hloc.
  - destruct Hloc as [_ Hc]. apply Z.compare_gt_iff in Hc. repeat split; try done.
  - destruct Hloc as [_ Hc]. apply Z.compare_eq_iff in Hc. repeat split; try done.
  - destruct Hloc as [Hne Hc]. apply Z.compare_lt_iff in Hc. repeat split; try done.
  - repeat split; try done.
Qed.

Lemma shr_1_locates a b mrs :
  locates a b mrs -> 0 <= shr_m mrs ->
  locates a (2 * b) (shr_1 mrs) /\ 0 <= shr_m (shr_1 mrs).
Proof.
  destruct mrs as [m r s]. intros Hloc Hnn. simpl in Hnn.
  apply locates_elim in Hloc as (Hb & Hm & H00 & H01 & H10 & H11).
  destruct (shr_1_eq m r s Hnn) as (q & d & Hq & Hq0 & ->).
  split; [|done]. subst m.
  assert (Hd : (if d then 1 else 0) = 0 \/ (if d then 1 else 0) = 1)
    by (destruct d; auto).
  apply locates_intro; [lia| | | | | ].
  - destruct d; lia.
  - intros -> Hs. apply orb_false_iff in Hs as [-> ->].
    specialize (H00 eq_refl eq_refl). lia.
  - intros -> Hs. destruct r, s; try done.
    + specialize (H11 eq_refl eq_refl). lia.
    + specialize (H10 eq_refl eq_refl). lia.
    + specialize (H01 eq_refl eq_refl). lia.
  - intros -> Hs. apply orb_false_iff in Hs as [-> ->].
    specialize (H00 eq_refl eq_refl). lia.
  - intros -> Hs. destruct r, s; try done.
    + specialize (H11 eq_refl eq_refl). lia.
    + specialize (H10 eq_refl eq_refl). lia.
    + specialize (H01 eq_refl eq_refl). lia.
Qed.

Lemma iter_shr_1_locates p :
  forall a b mrs, locates a b mrs -> 0 <= shr_m mrs ->
    locates a (2 ^ Z.pos p * b) (SpecFloat.iter_pos shr_1 p mrs) /\
    0 <= shr_m (SpecFloat.iter_pos shr_1 p mrs).
Proof.
  induction p as [p IH|p IH|]; intros a b mrs Hloc Hnn; simpl SpecFloat.iter_pos.
  - destruct (shr_1_locates _ _ _ Hloc Hnn) as [H1 Hn1].
    destruct (IH _ _ _ H1 Hn1) as [H2 Hn2].
    destruct (IH _ _ _ H2 Hn2) as [H3 Hn3]. split; [|done].
    replace (2 ^ Z.pos p~1 * b) with (2 ^ Z.pos p * (2 ^ Z.pos p * (2 * b))); [done|].
    replace (Z.pos p~1) with (Z.pos p + Z.pos p + 1) by lia.
    rewrite !Z.pow_add_r by lia. change (2 ^ 1) with 2. ring.
  - destruct (IH _ _ _ Hloc Hnn) as [H2 Hn2].
    destruct (IH _ _ _ H2 Hn2) as [H3 Hn3]. split; [|done].
    replace (2 ^ Z.pos p~0 * b) with (2 ^ Z.pos p * (2 ^ Z.pos p * b)); [done|].
    replace (Z.pos p~0) with (Z.pos p + Z.pos p) by lia.
    rewrite !Z.pow_add_r by lia. ring.
  - apply shr_1_locates; done.
Qed.

Lemma shr_locates a b mrs e n :
  locates a b mrs -> 0 <= shr_m mrs -> 0 <= n ->
  snd (shr mrs e n) = e + n /\
  locates a (2 ^ n * b) (fst (shr mrs e n)) /\ 0 <= shr_m (fst (shr mrs e n)).
Proof.
  intros Hloc Hnn Hn. destruct n as [|p|p]; [| |lia]; cbn [shr fst snd].
  - split; [lia|]. split; [|done]. by replace (2 ^ 0 * b) with b by lia.
  - split; [done|]. by apply iter_shr_1_locates.
Qed.

Lemma new_location_locates q b r :
  0 < b -> 0 <= r < b ->
  locates (q * b + r) b (shr_record_of_loc q (new_location b r)).
Proof.
  intros Hb Hr. unfold new_location.
  destruct (Z.even b) eqn:Heven;
    unfold new_location_even, new_location_odd;
    (destruct (Z.eq_dec r 0) as [->|Hr0];
     [simpl; apply locates_intro; try done; lia
     |rewrite (proj2 (Z.eqb_neq r 0) Hr0)]).
  - destruct (Z.compare_spec (2 * r) b) as [Hc|Hc|Hc]; simpl;
      apply locates_intro; try done; lia.
  - assert (Hodd : Z.odd b = true) by (rewrite <- Z.negb_even, Heven; done).
    apply Z.odd_spec in Hodd as [k Hk].
    destruct (Z.compare_spec (2 * r + 1) b) as [Hc|Hc|Hc]; simpl;
      apply locates_intro; try done; lia.
Qed.

Lemma round_nearest_even_locates A B m r s :
  locates A B (Build_shr_record m r s) ->
  let M1 := round_nearest_even m (loc_of_shr_record (Build_shr_record m r s)) in
  (M1 = m /\ 2 * (A - m * B) <= B /\ (2 * (A - m * B) = B -> Z.even m = true)) \/
  (M1 = m + 1 /\ 2 * ((m + 1) * B - A) <= B /\
   (2 * ((m + 1) * B - A) = B -> Z.even (m + 1) = true)).
Proof.
  intros Hloc. apply locates_elim in Hloc as (Hb & Hm & H00 & H01 & H10 & H11).
  destruct r, s; simpl.
  - specialize (H11 eq_refl eq_refl). right. split; [done|]. split; lia.
  - specialize (H10 eq_refl eq_refl). destruct (Z.even m) eqn:Heven.
    + left. split; [done|]. split; [lia|done].
    + right. split; [done|]. split; [lia|]. intros _.
      replace (m + 1) with (Z.succ m) by lia.
      by rewrite Z.even_succ, <- Z.negb_even, Heven.
  - specialize (H01 eq_refl eq_refl). left. split; [done|]. split; lia.
  - specialize (H00 eq_refl eq_refl). left. split; [done|]. split; lia.
Qed.

Lemma shr_m_of_loc m l : shr_m (shr_record_of_loc m l) = m.
Proof. by destruct l as [|[]]. Qed.

Lemma shr_fexp_fixed M e :
  2 ^ 52 <= Z.pos M < 2 ^ 53 -> -1074 <= e ->
  shr_fexp prec emax (Z.pos M) e loc_Exact =
    (Build_shr_record (Z.pos M) false false, e).
Proof.
  intros HM He. unfold shr_fexp. cbn [Zdigits2].
  rewrite (digits2_unique M 53) by (change (53 - 1) with 52; done).
  replace (fexp prec emax (53 + e) - e) with 0
    by (unfold fexp, SpecFloat.emin, prec, emax; lia).
  reflexivity.
Qed.

Lemma shr_fexp_carry e :
  -1074 <= e ->
  shr_fexp prec emax (2 ^ 53) e loc_Exact =
    (Build_shr_record (2 ^ 52) false false, e + 1).
Proof.
  intros He. unfold shr_fexp.
  replace (Zdigits2 (2 ^ 53)) with 54 by reflexivity.
  replace (fexp prec emax (54 + e) - e) with 1
    by (unfold fexp, SpecFloat.emin, prec, emax; lia).
  reflexivity.
Qed.

Lemma binary_round_aux_nearest sx q e l A B :
  locates A B (shr_record_of_loc q l) ->
  2 ^ 52 <= q < 2 ^ (1023 - e) -> -1074 <= e ->
  exists M N,
    binary_round_aux prec emax sx q e l = S754_finite sx M (e + N) /\
    0 <= N /\ 2 ^ 52 <= Z.pos M < 2 ^ 53 /\ e + N <= 971 /\
    (Z.pos M * (2 ^ N * B) <= A ->
       2 * (A - Z.pos M * (2 ^ N * B)) <= 2 ^ N * B /\
       (2 * (A - Z.pos M * (2 ^ N * B)) = 2 ^ N * B -> Z.even (Z.pos M) = true)) /\
    (A < Z.pos M * (2 ^ N * B) ->
       if Z.pos M =? 2 ^ 52 then 4 * (Z.pos M * (2 ^ N * B) - A) <= 2 ^ N * B
       else 2 * (Z.pos M * (2 ^ N * B) - A) <= 2 ^ N * B /\
            (2 * (Z.pos M * (2 ^ N * B) - A) = 2 ^ N * B ->
             Z.even (Z.pos M) = true)).
Proof.
  intros Hloc [Hq Hqhi] He.
  destruct q as [|p|p]; [lia| |lia].
  pose proof (digits2_bounds p) as [Hg1 Hg2].
  set (g := Z.pos (digits2_pos p)) in *.
  assert (Hg : 53 <= g <= 1023 - e).
  { assert (0 <= 1023 - e).
    { destruct (Z_lt_le_dec (1023 - e) 0) as [Hneg|]; [|done].
      rewrite Z.pow_neg_r in Hqhi by done. lia. }
    assert (H1 : 2 ^ 52 < 2 ^ g) by lia.
    assert (H2 : 2 ^ (g - 1) < 2 ^ (1023 - e)) by lia.
    apply Z.pow_lt_mono_r_iff in H1; [|lia|lia].
    apply Z.pow_lt_mono_r_iff in H2; [|lia|lia]. lia. }
  unfold binary_round_aux. unfold shr_fexp at 1. cbn [Zdigits2]. fold g.
  replace (fexp prec emax (g + e) - e) with (g - 53)
    by (unfold fexp, SpecFloat.emin, prec, emax; lia).
  destruct (shr_locates A B _ e (g - 53) Hloc) as (He1 & Hloc' & Hnn);
    [rewrite shr_m_of_loc; lia|lia|].
  destruct (shr (shr_record_of_loc (Z.pos p) l) e (g - 53)) as [mrs' e1].
  cbn [fst snd] in He1, Hloc', Hnn. subst e1.
  destruct mrs' as [m1 r1 s1]. cbn [shr_m] in Hnn |- *.
  pose proof Hloc as (HB & HA & _). rewrite shr_m_of_loc in HA.
  pose proof Hloc' as (HBn & HA' & _). cbn [shr_m] in HA'.
  set (n := g - 53) in *.
  assert (Hn : 0 <= n <= 970 - e) by (unfold n; lia).
  assert (HPg : 2 ^ g = 2 ^ 53 * 2 ^ n).
  { rewrite <- Z.pow_add_r by lia. f_equal. lia. }
  assert (HPg1 : 2 ^ (g - 1) = 2 ^ 52 * 2 ^ n).
  { rewrite <- Z.pow_add_r by lia. f_equal. lia. }
  assert (HP : 0 < 2 ^ n) by (apply Z.pow_pos_nonneg; lia).
  remember (2 ^ n) as P eqn:HPdef.
  assert (Hm1hi : m1 < 2 ^ 53).
  { assert (m1 * P < Z.pos p + 1).
    { apply Z.mul_lt_mono_pos_r with B; [done|]. lia. }
    apply Z.mul_lt_mono_pos_r with P; [done|]. lia. }
  assert (Hm1lo : 2 ^ 52 <= m1).
  { assert (Z.pos p < (m1 + 1) * P).
    { apply Z.mul_lt_mono_pos_r with B; [done|]. lia. }
    assert (2 ^ 52 < m1 + 1); [|lia].
    apply Z.mul_lt_mono_pos_r with P; [done|]. lia. }
  pose proof (round_nearest_even_locates A (P * B) m1 r1 s1 Hloc') as Hround.
  cbv zeta in Hround.
  destruct Hround as [(-> & Hb1 & Ht1)|(-> & Hb1 & Ht1)].
  - destruct m1 as [|pm|pm]; [lia| |lia].
    rewrite shr_fexp_fixed by (done || lia). cbn [shr_m].
    replace (e + n <=? emax - prec) with true
      by (symmetry; apply Z.leb_le; unfold emax, prec; lia).
    exists pm, n. rewrite <- HPdef. split; [done|]. split; [lia|]. split; [done|].
    split; [lia|]. split; [|lia]. intros _. split; [lia|]. intros Htie.
    apply Ht1. lia.
  - destruct (Z.eq_dec (m1 + 1) (2 ^ 53)) as [Hcarry|Hcarry].
    + rewrite Hcarry, shr_fexp_carry by lia. cbn [shr_m].
      change (2 ^ 52) with (Z.pos (Z.to_pos (2 ^ 52))) at 1. cbv iota.
      replace (e + n + 1 <=? emax - prec) with true
        by (symmetry; apply Z.leb_le; unfold emax, prec; lia).
      exists (Z.to_pos (2 ^ 52)), (n + 1).
      change (Z.pos (Z.to_pos (2 ^ 52))) with (2 ^ 52).
      rewrite Z.pow_add_r, <- HPdef by lia. change (2 ^ 1) with 2.
      rewrite Z.eqb_refl.
      split; [f_equal; lia|]. split; [lia|]. split; [lia|]. split; [lia|].
      split; lia.
    + destruct (m1 + 1) as [|pm|pm] eqn:Hm; [lia| |lia].
      rewrite shr_fexp_fixed by lia. cbn [shr_m].
      replace (e + n <=? emax - prec) with true
        by (symmetry; apply Z.leb_le; unfold emax, prec; lia).
      exists pm, n. rewrite <- HPdef.
      replace (Z.pos pm =? 2 ^ 52) with false
        by (symmetry; apply Z.eqb_neq; lia).
      split; [done|]. split; [lia|]. split; [lia|].
      split; [lia|]. split; [lia|]. intros _. split; [lia|]. intros Htie.
      apply Ht1. lia.
Qed.

Lemma nearest_rescale C x v ulp (even : Prop) (boundary : bool) :
  0 < C ->
  (C * x <= C * v -> 2 * (C * v - C * x) <= C * ulp /\
     (2 * (C * v - C * x) = C * ulp -> even)) /\
  (C * v < C * x ->
     if boundary then 4 * (C * x - C * v) <= C * ulp
     else 2 * (C * x - C * v) <= C * ulp /\
          (2 * (C * x - C * v) = C * ulp -> even)) ->
  (x <= v -> 2 * (v - x) <= ulp /\ (2 * (v - x) = ulp -> even)) /\
  (v < x ->
     if boundary then 4 * (x - v) <= ulp
     else 2 * (x - v) <= ulp /\ (2 * (x - v) = ulp -> even)).
Proof.
  intros HC [Hle Hlt]. split.
  - intros Hxv. destruct Hle as [Hb Ht].
    { apply Z.mul_le_mono_nonneg_l; lia. }
    split.
    + apply Z.mul_le_mono_pos_l with C; [done|]. lia.
    + intros Htie. apply Ht. rewrite <- Htie. ring.
  - intros Hxv. specialize (Hlt (proj1 (Z.mul_lt_mono_pos_l C v x HC) Hxv)).
    destruct boundary.
    + apply Z.mul_le_mono_pos_l with C; [done|]. lia.
    + destruct Hlt as [Hb Ht]. split.
      * apply Z.mul_le_mono_pos_l with C; [done|]. lia.
      * intros Htie. apply Ht. rewrite <- Htie. ring.
Qed.

Lemma div_nearest sx sy mx my :
  -1020 <= Z.pos (digits2_pos mx) - Z.pos (digits2_pos my) <= 1022 ->
  exists M E,
    div (S754_finite sx mx 0) (S754_finite sy my 0) =
      S754_finite (xorb sx sy) M E /\
    nearestMantissa (Z.pos mx) (Z.pos my) M E.
Proof.
  intros Hd. unfold div, SFdiv, SFdiv_core_binary. cbn [Zdigits2].
  pose proof (digits2_bounds mx) as [Ha1 Ha2].
  pose proof (digits2_bounds my) as [Hb1 Hb2].
  set (d1 := Z.pos (digits2_pos mx)) in *.
  set (d2 := Z.pos (digits2_pos my)) in *.
  assert (Hd1 : 0 < d1) by (unfold d1; lia).
  assert (Hd2 : 0 < d2) by (unfold d2; lia).
  clearbody d1 d2.
  set (s := Z.max (53 + d2 - d1) 0).
  assert (Hs : 0 <= s <= 1073) by (unfold s; lia).
  replace (Z.min (fexp prec emax (d1 + 0 - (d2 + 0))) (0 - 0)) with (- s)
    by (unfold s, fexp, SpecFloat.emin, prec, emax; lia).
  replace (0 - 0 - - s) with s by lia.
  assert (Hm' : match s with
                | 0 => Z.pos mx
                | Z.pos _ => Z.shiftl (Z.pos mx) s
                | Z.neg _ => 0
                end = Z.pos mx * 2 ^ s).
  { destruct s as [|ps|ps] eqn:Es; [lia| |lia].
    apply Z.shiftl_mul_pow2. lia. }
  rewrite Hm'. clear Hm'.
  pose proof (Z_div_mod (Z.pos mx * 2 ^ s) (Z.pos my) eq_refl) as Hdiv.
  destruct (Z.div_eucl (Z.pos mx * 2 ^ s) (Z.pos my)) as [q r].
  destruct Hdiv as [Hqr Hr].
  assert (HS : 0 < 2 ^ s) by (apply Z.pow_pos_nonneg; lia).
  assert (HD1 : 2 ^ d1 = 2 * 2 ^ (d1 - 1)).
  { rewrite <- Z.pow_succ_r by lia. f_equal. lia. }
  assert (HD2 : 2 ^ d2 = 2 * 2 ^ (d2 - 1)).
  { rewrite <- Z.pow_succ_r by lia. f_equal. lia. }
  assert (HPD2 : 0 < 2 ^ (d2 - 1)) by (apply Z.pow_pos_nonneg; lia).
  assert (HPD1 : 0 < 2 ^ (d1 - 1)) by (apply Z.pow_pos_nonneg; lia).
  assert (Hlow : 2 ^ 53 * 2 ^ (d2 - 1) <= 2 ^ (d1 - 1) * 2 ^ s).
  { rewrite <- !Z.pow_add_r by lia. apply Z.pow_le_mono_r; [lia|]. unfold s. lia. }
  assert (Hhigh : 2 * 2 ^ (d1 - 1) * 2 ^ s <= 2 ^ (1023 + s) * 2 ^ (d2 - 1)).
  { rewrite <- HD1, <- !Z.pow_add_r by lia. apply Z.pow_le_mono_r; lia. }
  assert (HT : 0 < 2 ^ (1023 + s)) by (apply Z.pow_pos_nonneg; lia).
  remember (2 ^ s) as S eqn:HSdef.
  remember (2 ^ (d1 - 1)) as D1 eqn:HD1def.
  remember (2 ^ (d2 - 1)) as D2 eqn:HD2def.
  remember (2 ^ (1023 + s)) as T eqn:HTdef.
  assert (Hm1 : D1 * S <= Z.pos mx * S).
  { apply Z.mul_le_mono_nonneg_r; lia. }
  assert (Hm2 : Z.pos mx * S < 2 * D1 * S).
  { apply Z.mul_lt_mono_pos_r; lia. }
  assert (Hq0 : 0 <= q).
  { destruct (Z_lt_le_dec q 0) as [Hneg|]; [|done].
    assert (Z.pos my * q <= Z.pos my * (-1)); [|lia].
    apply Z.mul_le_mono_nonneg_l; lia. }
  assert (Hqlo : 2 ^ 52 <= q).
  { assert (2 ^ 52 < q + 1); [|lia].
    apply Z.mul_lt_mono_pos_l with (Z.pos my); [done|]. lia. }
  assert (Hqhi : q < T).
  { apply Z.mul_lt_mono_pos_r with D2; [done|].
    assert (q * D2 <= q * Z.pos my); [|lia].
    apply Z.mul_le_mono_nonneg_l; lia. }
  destruct (binary_round_aux_nearest (xorb sx sy) q (- s)
              (new_location (Z.pos my) r) (Z.pos mx * S) (Z.pos my))
    as (M & N & -> & HN & HM & HE & Hnear).
  { replace (Z.pos mx * S) with (q * Z.pos my + r) by lia.
    apply new_location_locates; [done|lia]. }
  { replace (1023 - - s) with (1023 + s) by lia. rewrite <- HTdef. lia. }
  { lia. }
  exists M, (- s + N). split; [done|].
  split; [done|]. split; [lia|]. cbv zeta.
  set (c := Z.min N s).
  assert (HC : 0 < 2 ^ c) by (apply Z.pow_pos_nonneg; unfold c; lia).
  assert (HupN : 2 ^ N = 2 ^ c * 2 ^ Z.max (- s + N) 0).
  { rewrite <- Z.pow_add_r by (unfold c; lia). f_equal. unfold c. lia. }
  assert (Hdowns : S = 2 ^ c * 2 ^ Z.max (- (- s + N)) 0).
  { rewrite HSdef, <- Z.pow_add_r by (unfold c; lia). f_equal. unfold c. lia. }
  rewrite HupN, Hdowns in Hnear.
  remember (2 ^ Z.max (- s + N) 0) as up eqn:Hup.
  remember (2 ^ Z.max (- (- s + N)) 0) as down eqn:Hdown.
  remember (2 ^ c) as C eqn:HCdef.
  apply (nearest_rescale C); [done|].
  replace (C * (Z.pos M * up * Z.pos my)) with (Z.pos M * (C * up * Z.pos my)) by ring.
  replace (C * (Z.pos mx * down)) with (Z.pos mx * (C * down)) by ring.
  replace (C * (up * Z.pos my)) with (C * up * Z.pos my) by ring.
  exact Hnear.
Qed.

Lemma digits2_le m k :
  0 <= k -> Z.pos m < 2 ^ k -> 1 <= Z.pos (digits2_pos m) <= k.
Proof.
  intros Hk Hm. pose proof (digits2_bounds m) as [Hm1 _].
  assert (H : 2 ^ (Z.pos (digits2_pos m) - 1) < 2 ^ k) by lia.
  apply Z.pow_lt_mono_r_iff in H; lia.
Qed.

Lemma scale_digits decimals :
  0 <= decimals <= 80 ->
  Z.pos (Z.to_pos (10 ^ decimals)) = 10 ^ decimals /\
  1 <= Z.pos (digits2_pos (Z.to_pos (10 ^ decimals))) <= 266.
Proof.
  intros Hdec.
  assert (Hscale : 0 < 10 ^ decimals) by (apply Z.pow_pos_nonneg; lia).
  assert (Hscale' : 10 ^ decimals <= 10 ^ 80) by (apply Z.pow_le_mono_r; lia).
  assert (Hb : Z.pos (Z.to_pos (10 ^ decimals)) = 10 ^ decimals)
    by (apply Z2Pos.id; done).
  split; [done|]. apply digits2_le; [lia|]. rewrite Hb.
  eapply Z.le_lt_trans; [exact Hscale'|]. reflexivity.
Qed.

Lemma scaleDown_nearest value decimals :
  - 2 ^ 255 <= value < 2 ^ 255 -> 0 <= decimals <= 80 ->
  nearestDouble value (10 ^ decimals) (scaleDown value decimals).
Proof.
  intros Hv Hdec. unfold scaleDown.
  destruct (scale_digits decimals Hdec) as [Hb Hd2].
  destruct value as [|m|m].
  - split; reflexivity.
  - assert (Hd1 : 1 <= Z.pos (digits2_pos m) <= 256).
    { apply digits2_le; [lia|]. eapply Z.lt_trans; [apply Hv|]. reflexivity. }
    clear Hv.
    destruct (div_nearest false false m (Z.to_pos (10 ^ decimals)))
      as (M & E & -> & Hnear); [lia|].
    rewrite Hb in Hnear. split; [reflexivity|]. exact Hnear.
  - assert (Hd1 : 1 <= Z.pos (digits2_pos m) <= 256).
    { apply digits2_le; [lia|]. destruct Hv as [Hv _].
      assert (Z.pos m <= 2 ^ 255) by (revert Hv; generalize (2 ^ 255); lia).
      eapply Z.le_lt_trans; [eassumption|]. reflexivity. }
    clear Hv.
    destruct (div_nearest true false m (Z.to_pos (10 ^ decimals)))
      as (M & E & -> & Hnear); [lia|].
    rewrite Hb in Hnear. split; [reflexivity|]. exact Hnear.
Qed.

End NumberFacts.

(** ** Properties of the price feed service *)

Module ChainlinkFacts.

Import Chainlink NumberSpec ChainlinkSpec NumberFacts.

Lemma isDirect_iff sym :
  isDirect sym <-> sym <> "BTC/ETH"%string /\ sym <> "BNB/ETH"%string.
Proof.
  unfold isDirect, constituents. split.
  - repeat case_decide; [done|done|]. by intros _.
  - intros [H1 H2]. by rewrite !decide_False by done.
Qed.

Lemma constituents_direct sym num den :
  constituents sym = Some (num, den) -> isDirect num /\ isDirect den.
Proof.
  unfold constituents.
  repeat case_decide; intros Heq; simplify_eq; split; reflexivity.
Qed.

Lemma constituents_cases sym num den :
  constituents sym = Some (num, den) ->
  sym = "BTC/ETH"%string \/ sym = "BNB/ETH"%string.
Proof. unfold constituents. repeat case_decide; intros; simplify_eq; auto. Qed.

(** *** Unfolding the two mutually recursive fetches *)

Lemma try_catch_returnNull body : exists r, try_catch body returnNull = Returned r.
Proof. destruct body; simpl; unfold returnNull; eauto. Qed.

Lemma try_catch_twice body :
  try_catch (try_catch body returnNull) returnNull = try_catch body returnNull.
Proof. destruct body; reflexivity. Qed.

Lemma getPrice_direct n this sym :
  isDirect sym ->
  getPrice (S n) this sym = Some (try_catch (readFeed this sym) returnNull).
Proof.
  intros [H1 H2]%isDirect_iff. simpl.
  destruct (decide (sym = "BTC/ETH"%string)) as [|_]; [done|].
  destruct (decide (sym = "BNB/ETH"%string)) as [|_]; [done|].
  done.
Qed.

Lemma getCalculatedPrice_unsupported n this sym :
  isDirect sym -> getCalculatedPrice (S n) this sym = Some (Returned None).
Proof.
  intros [H1 H2]%isDirect_iff. cbn [getCalculatedPrice].
  destruct (decide (sym = "BTC/ETH"%string)) as [|_]; [done|].
  destruct (decide (sym = "BNB/ETH"%string)) as [|_]; [done|].
  done.
Qed.

Lemma getCalculatedPrice_derived n this sym num den :
  constituents sym = Some (num, den) ->
  getCalculatedPrice (S (S n)) this sym =
    Some (try_catch
            (bind (Promise_all2 (try_catch (readFeed this num) returnNull)
                                (try_catch (readFeed this den) returnNull))
               (fun '(a, b) => quotient sym a b))
            returnNull).
Proof.
  intros H. destruct (constituents_direct _ _ _ H) as [Hn Hd].
  unfold constituents in H. cbn [getCalculatedPrice].
  destruct (decide (sym = "BTC/ETH"%string)) as [->|_].
  { injection H as <- <-. by rewrite !getPrice_direct. }
  destruct (decide (sym = "BNB/ETH"%string)) as [->|_]; [|done].
  injection H as <- <-. by rewrite !getPrice_direct.
Qed.

Lemma getPrice_derived n this sym num den :
  constituents sym = Some (num, den) ->
  getPrice (S (S (S n))) this sym =
    Some (try_catch
            (bind (Promise_all2 (try_catch (readFeed this num) returnNull)
                                (try_catch (readFeed this den) returnNull))
               (fun '(a, b) => quotient sym a b))
            returnNull).
Proof.
  intros H. pose proof (getCalculatedPrice_derived n this sym num den H) as Hc.
  destruct (constituents_cases _ _ _ H) as [->| ->]; cbn [getPrice].
  - rewrite decide_True by done. rewrite Hc. cbn [mbind option_bind].
    by rewrite try_catch_twice.
  - rewrite decide_False by done. rewrite decide_True by done.
    rewrite Hc. cbn [mbind option_bind]. by rewrite try_catch_twice.
Qed.

(** *** Fuel: three levels are enough, and more change nothing *)

Lemma getPrice_fuel extra this sym :
  getPrice (enough + extra) this sym = getPrice enough this sym.
Proof.
  unfold enough. change (3 + extra)%nat with (S (S (S extra))).
  destruct (constituents sym) as [[num den]|] eqn:H.
  - by rewrite !(getPrice_derived _ _ _ _ _ H).
  - by rewrite !getPrice_direct.
Qed.

Lemma getPrice_settles extra this sym :
  exists r, getPrice (enough + extra) this sym = Some (Returned r).
Proof.
  unfold enough. change (3 + extra)%nat with (S (S (S extra))).
  destruct (constituents sym) as [[num den]|] eqn:H.
  - rewrite (getPrice_derived _ _ _ _ _ H).
    destruct (try_catch_returnNull
      (bind (Promise_all2 (try_catch (readFeed this num) returnNull)
                          (try_catch (readFeed this den) returnNull))
            (fun '(a, b) => quotient sym a b))) as [r Hr].
    exists r. by rewrite Hr.
  - rewrite getPrice_direct by done.
    destruct (try_catch_returnNull (readFeed this sym)) as [r Hr].
    exists r. by rewrite Hr.
Qed.

Lemma getPrice_fetched extra this sym :
  getPrice (enough + extra) this sym = Some (Returned (fetched this sym)).
Proof.
  rewrite getPrice_fuel. unfold fetched.
  destruct (getPrice_settles 0 this sym) as [r Hr].
  rewrite Nat.add_0_r in Hr. by rewrite Hr.
Qed.

(** *** Reading one feed *)

Lemma readFeed_success this sym addr rd dec :
  lookupFeed (priceFeeds this) sym = Some addr -> addr <> EmptyString ->
  latestRoundData (provider this addr) = Returned rd ->
  getDecimals (provider this addr) = Returned dec ->
  0 <= dec <= 80 ->
  readFeed this sym =
    Returned (Some {| symbol := sym;
                      price := scaleDown (answer rd) dec;
                      timestamp := mul (ofBigInt (updatedAt rd)) (ofBigInt 1000);
                      decimals := ofBigInt dec |}).
Proof.
  intros Hl Ha Hr Hd Hdec. unfold readFeed, getPriceFeedContract. rewrite Hl.
  rewrite decide_False by done. simpl. rewrite Hr, Hd. simpl.
  unfold Number_formatUnits. by rewrite decide_True.
Qed.

Lemma readFeed_inv this sym pd :
  try_catch (readFeed this sym) returnNull = Returned (Some pd) ->
  exists addr rd dec,
    lookupFeed (priceFeeds this) sym = Some addr /\
    latestRoundData (provider this addr) = Returned rd /\
    getDecimals (provider this addr) = Returned dec /\
    0 <= dec <= 80 /\
    pd = {| symbol := sym;
            price := scaleDown (answer rd) dec;
            timestamp := mul (ofBigInt (updatedAt rd)) (ofBigInt 1000);
            decimals := ofBigInt dec |}.
Proof.
  unfold readFeed, getPriceFeedContract.
  destruct (lookupFeed (priceFeeds this) sym) as [addr|]; [|done].
  destruct (decide (addr = EmptyString)); [done|]. simpl.
  destruct (latestRoundData (provider this addr)) as [rd|] eqn:Hr; [|done].
  destruct (getDecimals (provider this addr)) as [dec|] eqn:Hd; [|done].
  simpl. unfold Number_formatUnits.
  destruct (decide (0 <= dec <= 80)) as [Hdec|]; [|done].
  simpl. intros [= <-]. by exists addr, rd, dec.
Qed.

Lemma direct_timestamp_notNaN this sym pd extra :
  isDirect sym ->
  getPrice (enough + extra) this sym = Some (Returned (Some pd)) ->
  exists s, hasSign s (timestamp pd).
Proof.
  intros Hd. unfold enough. change (3 + extra)%nat with (S (S (S extra))).
  rewrite getPrice_direct by done. intros [= H].
  apply readFeed_inv in H as (addr & rd & dec & _ & _ & _ & _ & ->). simpl.
  destruct (ofBigInt_notNaN (updatedAt rd)) as [s Hs].
  exists (xorb s false). rewrite ofBigInt_1000. by apply mul_finite_sign.
Qed.

(** A result carries the symbol that was asked for. *)
Lemma fetched_symbol this sym pd : fetched this sym = Some pd -> symbol pd = sym.
Proof.
  unfold fetched, enough.
  destruct (constituents sym) as [[num den]|] eqn:H.
  - rewrite (getPrice_derived _ _ _ _ _ H).
    destruct (try_catch (readFeed this num) returnNull) as [[n|]|]; simpl; try done;
    destruct (try_catch (readFeed this den) returnNull) as [[d|]|]; simpl; try done.
    by intros [= <-].
  - rewrite getPrice_direct by done.
    destruct (try_catch (readFeed this sym) returnNull) as [r|] eqn:Hr; [|done].
    intros ->.
    by apply readFeed_inv in Hr as (addr & rd & dec & _ & _ & _ & _ & ->).
Qed.

(** C7. For a direct symbol whose feed address is configured, when both
    reads of the oracle contract succeed (and the decimals are ones
    [formatUnits] takes), [getPrice] returns a [PriceData] with the symbol
    asked for, whose price is the raw answer scaled down by the reported
    decimals (read as a double), whose time stamp is [updatedAt] times
    1000, and whose decimals are the oracle's; when the raw answer is not
    negative the price is at least zero, so it is not below zero.  Scaled
    down means divided by ten to the power of the decimals: for an answer
    in the range of the contract's [int256], the price is the double
    nearest to [answer / 10^decimals], ties going to the even mantissa.
    And every [PriceData] that [getPrice] returns for a direct symbol is
    of this kind. *)
Theorem direct_fetch_scales_answer this sym addr rd dec extra :
  isDirect sym ->
  lookupFeed (priceFeeds this) sym = Some addr -> addr <> EmptyString ->
  latestRoundData (provider this addr) = Returned rd ->
  getDecimals (provider this addr) = Returned dec ->
  0 <= dec <= 80 ->
  (exists pd,
     getPrice (enough + extra) this sym = Some (Returned (Some pd)) /\
     symbol pd = sym /\
     price pd = scaleDown (answer rd) dec /\
     timestamp pd = mul (ofBigInt (updatedAt rd)) (ofBigInt 1000) /\
     decimals pd = ofBigInt dec /\
     (0 <= answer rd -> leb zero (price pd) = true /\ ltb (price pd) zero = false) /\
     (- 2 ^ 255 <= answer rd < 2 ^ 255 ->
      nearestDouble (answer rd) (10 ^ dec) (price pd))) /\
  (forall sym' pd',
     isDirect sym' ->
     getPrice (enough + extra) this sym' = Some (Returned (Some pd')) ->
     exists addr' rd' dec',
       lookupFeed (priceFeeds this) sym' = Some addr' /\
       latestRoundData (provider this addr') = Returned rd' /\
       getDecimals (provider this addr') = Returned dec' /\
       symbol pd' = sym' /\
       price pd' = scaleDown (answer rd') dec' /\
       timestamp pd' = mul (ofBigInt (updatedAt rd')) (ofBigInt 1000) /\
       decimals pd' = ofBigInt dec' /\
       (0 <= answer rd' ->
        leb zero (price pd') = true /\ ltb (price pd') zero = false) /\
       (- 2 ^ 255 <= answer rd' < 2 ^ 255 ->
        nearestDouble (answer rd') (10 ^ dec') (price pd'))).
Proof.
  intros Hdir Hl Ha Hr Hd Hdec. split.
  - eexists. split.
    + unfold enough. change (3 + extra)%nat with (S (S (S extra))).
      rewrite getPrice_direct by done.
      rewrite (readFeed_success _ _ _ _ _ Hl Ha Hr Hd Hdec). reflexivity.
    + cbn [symbol price timestamp decimals].
      split; [reflexivity|]. split; [reflexivity|]. split; [reflexivity|].
      split; [reflexivity|]. split.
      * intros Hpos. split; by apply hasSign_false_nonneg, scaleDown_sign.
      * intros Hrange. by apply scaleDown_nearest.
  - intros sym' pd' Hdir'. unfold enough.
    change (3 + extra)%nat with (S (S (S extra))).
    rewrite getPrice_direct by done. intros [= H].
    apply readFeed_inv in H as (addr' & rd' & dec' & Hl' & Hr' & Hd' & Hdec' & ->).
    exists addr', rd', dec'. cbn [symbol price timestamp decimals].
    split; [done|]. split; [done|]. split; [done|]. split; [reflexivity|].
    split; [reflexivity|]. split; [reflexivity|]. split; [reflexivity|]. split.
    + intros Hpos. split; by apply hasSign_false_nonneg, scaleDown_sign.
    + intros Hrange. by apply scaleDown_nearest.
Qed.

Lemma direct_fetch_scales_answer_witness :
  (exists pd,
     getPrice (enough + 0) (priceService sepoliaNetwork) "BTC/USD"
       = Some (Returned (Some pd)) /\
     symbol pd = "BTC/USD"%string /\
     price pd = scaleDown (answer btcRound) 8 /\
     timestamp pd = mul (ofBigInt (updatedAt btcRound)) (ofBigInt 1000) /\
     decimals pd = ofBigInt 8 /\
     (0 <= answer btcRound ->
      leb zero (price pd) = true /\ ltb (price pd) zero = false) /\
     (- 2 ^ 255 <= answer btcRound < 2 ^ 255 ->
      nearestDouble (answer btcRound) (10 ^ 8) (price pd))) /\
  (forall sym' pd',
     isDirect sym' ->
     getPrice (enough + 0) (priceService sepoliaNetwork) sym'
       = Some (Returned (Some pd')) ->
     exists addr' rd' dec',
       lookupFeed (priceFeeds (priceService sepoliaNetwork)) sym' = Some addr' /\
       latestRoundData (provider (priceService sepoliaNetwork) addr') = Returned rd' /\
       getDecimals (provider (priceService sepoliaNetwork) addr') = Returned dec' /\
       symbol pd' = sym' /\
       price pd' = scaleDown (answer rd') dec' /\
       timestamp pd' = mul (ofBigInt (updatedAt rd')) (ofBigInt 1000) /\
       decimals pd' = ofBigInt dec' /\
       (0 <= answer rd' ->
        leb zero (price pd') = true /\ ltb (price pd') zero = false) /\
       (- 2 ^ 255 <= answer rd' < 2 ^ 255 ->
        nearestDouble (answer rd') (10 ^ dec') (price pd'))).
Proof.
  apply (direct_fetch_scales_answer (priceService sepoliaNetwork) "BTC/USD"
           "0x1b44F3514812d835EB1BDB0acB33d3fA3351Ee43" btcRound 8 0).
  - reflexivity.
  - reflexivity.
  - discriminate.
  - reflexivity.
  - reflexivity.
  - lia.
Defined.

(** C2. For a derived symbol, when the fetches of its numerator and of its
    denominator both succeed, [getPrice] returns a [PriceData] whose price
    is the numerator's price divided by the denominator's, whose time stamp
    is the maximum of the two time stamps (one of them, and no smaller than
    either), and whose decimals are 18. *)
Theorem derived_price_is_quotient this sym num den n d extra :
  constituents sym = Some (num, den) ->
  getPrice (enough + extra) this num = Some (Returned (Some n)) ->
  getPrice (enough + extra) this den = Some (Returned (Some d)) ->
  exists pd,
    getPrice (enough + extra) this sym = Some (Returned (Some pd)) /\
    symbol pd = sym /\
    price pd = div (price n) (price d) /\
    timestamp pd = Math_max (timestamp n) (timestamp d) /\
    leb (timestamp n) (timestamp pd) = true /\
    leb (timestamp d) (timestamp pd) = true /\
    (timestamp pd = timestamp n \/ timestamp pd = timestamp d) /\
    decimals pd = ofBigInt 18.
Proof.
  intros Hc Hn Hd.
  destruct (constituents_direct _ _ _ Hc) as [Hdn Hdd].
  destruct (direct_timestamp_notNaN _ _ _ _ Hdn Hn) as [sn Hsn].
  destruct (direct_timestamp_notNaN _ _ _ _ Hdd Hd) as [sd Hsd].
  destruct (Math_max_spec _ _ _ _ Hsn Hsd) as (Hle1 & Hle2 & Hor).
  revert Hn Hd. unfold enough. change (3 + extra)%nat with (S (S (S extra))).
  rewrite (getPrice_derived _ _ _ _ _ Hc), !getPrice_direct by done.
  intros [= ->] [= ->]. simpl. eexists. split; [reflexivity|]. simpl.
  repeat split; done.
Qed.

Lemma derived_price_is_quotient_witness :
  exists pd,
    getPrice (enough + 0) (priceService sepoliaNetwork) "BTC/ETH"
      = Some (Returned (Some pd)) /\
    symbol pd = "BTC/ETH"%string /\
    price pd = div (price btcPrice) (price ethPrice) /\
    timestamp pd = Math_max (timestamp btcPrice) (timestamp ethPrice) /\
    leb (timestamp btcPrice) (timestamp pd) = true /\
    leb (timestamp ethPrice) (timestamp pd) = true /\
    (timestamp pd = timestamp btcPrice \/ timestamp pd = timestamp ethPrice) /\
    decimals pd = ofBigInt 18.
Proof.
  apply (derived_price_is_quotient (priceService sepoliaNetwork) "BTC/ETH"
           "BTC/USD" "ETH/USD" btcPrice ethPrice 0).
  - reflexivity.
  - reflexivity.
  - reflexivity.
Defined.

(** The quotient of the worked example: 45123.45 / 2500, stamped with the
    later of the two updates. *)
Example derived_price_example :
  getPrice enough (priceService sepoliaNetwork) "BTC/ETH" =
    Some (Returned (Some {| symbol := "BTC/ETH";
                            price := S754_finite false 5080448815141780 (-48);
                            timestamp := ofBigInt 1700000100000;
                            decimals := ofBigInt 18 |})).
Proof. reflexivity. Qed.

(** *** Fetching the canonical set *)

Lemma mapM_getPrice extra this (l : list string) :
  mapM (fun sym => getPrice (enough + extra) this sym) l =
    Some (map (fun sym => Returned (fetched this sym)) l).
Proof.
  induction l as [|sym l IH]; [done|].
  cbn [mapM map]. rewrite IH, getPrice_fetched. reflexivity.
Qed.

Lemma Promise_all_Returned {A B} (f : A -> B) (l : list A) :
  Promise_all (map (fun a => Returned (f a)) l) = Returned (map f l).
Proof. induction l as [|a l IH]; [done|]. simpl. by rewrite IH. Qed.

Lemma dropNull_map {A} (f : A -> option PriceData) (l : list A) :
  dropNull (map f l) = omap f l.
Proof.
  unfold dropNull. induction l as [|a l IH]; [done|].
  cbn [map omap list_omap]. rewrite IH. by destruct (f a).
Qed.

Lemma getAllPrices_fetched extra this :
  getAllPrices (enough + extra) this =
    Some (Returned (omap (fetched this) canonicalSymbols)).
Proof.
  unfold getAllPrices. rewrite mapM_getPrice. cbn [mbind option_bind].
  rewrite (Promise_all_Returned (fetched this)). cbn [bind].
  by rewrite dropNull_map.
Qed.

Lemma length_omap_filter {A B} (f : A -> option B) (l : list A) :
  (length (omap f l) + length (filter (fun a => f a = None) l) = length l)%nat.
Proof.
  induction l as [|a l IH]; [done|].
  rewrite filter_cons. cbn [omap list_omap].
  destruct (f a) eqn:Hf; case_decide; simplify_eq; simpl; lia.
Qed.

Lemma fetched_deadNetwork :
  omap (fetched (priceService deadNetwork)) canonicalSymbols = [].
Proof. vm_compute. reflexivity. Qed.

Lemma fetched_sepoliaNetwork :
  omap (fetched (priceService sepoliaNetwork)) canonicalSymbols =
    [btcPrice; ethPrice;
     {| symbol := "BTC/ETH";
        price := div (price btcPrice) (price ethPrice);
        timestamp := Math_max (timestamp btcPrice) (timestamp ethPrice);
        decimals := ofBigInt 18 |}].
Proof. vm_compute. reflexivity. Qed.

(** Every entry of a result carries one of the canonical symbols. *)
Lemma getAllPrices_symbols extra this prices pd :
  getAllPrices (enough + extra) this = Some (Returned prices) ->
  pd ∈ prices -> symbol pd ∈ canonicalSymbols.
Proof.
  rewrite getAllPrices_fetched. intros Hall Hin.
  assert (Heq : prices = omap (fetched this) canonicalSymbols) by congruence.
  rewrite Heq in Hin. apply list_elem_of_omap in Hin as (sym & Hsym & Hf).
  by rewrite (fetched_symbol _ _ _ Hf).
Qed.

(** C4. [getAllPrices] settles with the results of the fetches of the four
    canonical symbols that succeeded, in the order of the symbols: a
    [PriceData] is in the list exactly when it is what the fetch of a
    canonical symbol returned; no entry carries a symbol whose fetch
    returned no result; the lengths of the list and of the failed fetches
    add up to four, so one failure leaves three entries; and the list can
    be empty, or partial. *)
Theorem getAllPrices_keeps_what_succeeded this extra :
  let prices := omap (fetched this) canonicalSymbols in
  let failed := filter (fun sym => fetched this sym = None) canonicalSymbols in
  getAllPrices (enough + extra) this = Some (Returned prices) /\
  (forall pd, pd ∈ prices <->
     exists sym, sym ∈ canonicalSymbols /\ fetched this sym = Some pd) /\
  (forall sym pd, fetched this sym = None -> pd ∈ prices -> symbol pd <> sym) /\
  (length prices + length failed = 4)%nat /\
  (length failed = 1%nat -> length prices = 3%nat) /\
  (exists this0, getAllPrices (enough + extra) this0 = Some (Returned [])) /\
  (exists this1 a b c,
     getAllPrices (enough + extra) this1 = Some (Returned [a; b; c])).
Proof.
  intros prices failed.
  assert (Hmem : forall pd, pd ∈ prices <->
            exists sym, sym ∈ canonicalSymbols /\ fetched this sym = Some pd).
  { intros pd. subst prices. apply list_elem_of_omap. }
  assert (Hlen : (length prices + length failed = 4)%nat).
  { apply (length_omap_filter (fetched this) canonicalSymbols). }
  split; [apply getAllPrices_fetched|].
  split; [exact Hmem|].
  split.
  { intros sym pd Hnone [sym' [_ Hsome]]%Hmem Heq.
    pose proof (fetched_symbol _ _ _ Hsome) as Hsym. congruence. }
  split; [exact Hlen|].
  split; [lia|].
  split.
  - exists (priceService deadNetwork). rewrite getAllPrices_fetched.
    by rewrite fetched_deadNetwork.
  - exists (priceService sepoliaNetwork). rewrite getAllPrices_fetched.
    rewrite fetched_sepoliaNetwork. by do 3 eexists.
Qed.

(** On the Sepolia network of the example the feed of BNB/USD fails, and
    with it BNB/ETH alone: one fetch of the four fails, three results. *)
Example getAllPrices_one_of_four_fails :
  filter (fun sym => fetched (priceService sepoliaNetwork) sym = None) canonicalSymbols
    = ["BNB/ETH"%string] /\
  map symbol (omap (fetched (priceService sepoliaNetwork)) canonicalSymbols)
    = ["BTC/USD"; "ETH/USD"; "BTC/ETH"]%string.
Proof. split; vm_compute; reflexivity. Qed.

(** C5. [getPrice] never throws: whatever the symbol and the chain, its
    promise is fulfilled, with a [PriceData] or with [null]; so is that of
    [getCalculatedPrice].  It is fulfilled with [null] when the symbol is
    unknown, when a read of the oracle contract is rejected, and, for a
    derived symbol, when the fetch of its numerator or of its denominator
    returned [null]. *)
Theorem getPrice_never_throws this sym extra :
  (exists r, getPrice (enough + extra) this sym = Some (Returned r)) /\
  (exists r, getCalculatedPrice (2 + extra) this sym = Some (Returned r)) /\
  (isDirect sym -> lookupFeed (priceFeeds this) sym = None ->
   getPrice (enough + extra) this sym = Some (Returned None)) /\
  (forall addr e, isDirect sym -> lookupFeed (priceFeeds this) sym = Some addr ->
     latestRoundData (provider this addr) = Thrown e \/
     getDecimals (provider this addr) = Thrown e ->
     getPrice (enough + extra) this sym = Some (Returned None)) /\
  (forall num den, constituents sym = Some (num, den) ->
     getPrice (enough + extra) this num = Some (Returned None) \/
     getPrice (enough + extra) this den = Some (Returned None) ->
     getPrice (enough + extra) this sym = Some (Returned None)).
Proof.
  split; [apply getPrice_settles|].
  split.
  { change (2 + extra)%nat with (S (S extra)).
    destruct (constituents sym) as [[num den]|] eqn:H.
    - rewrite (getCalculatedPrice_derived _ _ _ _ _ H).
      destruct (try_catch_returnNull
        (bind (Promise_all2 (try_catch (readFeed this num) returnNull)
                            (try_catch (readFeed this den) returnNull))
              (fun '(a, b) => quotient sym a b))) as [r Hr].
      exists r. by rewrite Hr.
    - exists None. by apply getCalculatedPrice_unsupported. }
  unfold enough. change (3 + extra)%nat with (S (S (S extra))).
  split.
  { intros Hd Hl. rewrite getPrice_direct by done. unfold readFeed. by rewrite Hl. }
  split.
  { intros addr e Hd Hl Hcall. rewrite getPrice_direct by done.
    unfold readFeed, getPriceFeedContract. rewrite Hl.
    destruct (decide (addr = EmptyString)); [done|]. simpl.
    destruct Hcall as [-> | ->]; [done|].
    by destruct (latestRoundData (provider this addr)). }
  intros num den Hc Hfail.
  destruct (constituents_direct _ _ _ Hc) as [Hdn Hdd].
  revert Hfail. rewrite (getPrice_derived _ _ _ _ _ Hc), !getPrice_direct by done.
  intros [[= ->] | [= ->]]; simpl.
  - by destruct (try_catch (readFeed this den) returnNull) as [[]|].
  - by destruct (try_catch (readFeed this num) returnNull) as [[]|].
Qed.

(** An unknown symbol, a dead network, and a derived symbol whose
    numerator has no feed behind its address. *)
Example getPrice_null_examples :
  getPrice enough (priceService sepoliaNetwork) "DOGE/USD" = Some (Returned None) /\
  getPrice enough (priceService deadNetwork) "BTC/USD" = Some (Returned None) /\
  getPrice enough (priceService sepoliaNetwork) "BNB/ETH" = Some (Returned None).
Proof. repeat split; reflexivity. Qed.

End ChainlinkFacts.

(** ** Properties of the price bot *)

Module BotFacts.

Import Chainlink Bot BotSpec.

(** *** What one cycle leaves alone *)

Lemma sendPriceUpdate_try_frame env this w :
  let w' := fst (sendPriceUpdate_try env this w) in
  configs w' = configs w /\ arrays w' = arrays w /\
  fresh w' = fresh w /\ timers w' = timers w /\ nextTimer w' = nextTimer w.
Proof.
  unfold sendPriceUpdate_try.
  destruct (getAllPrices env) as [allPrices|e]; [|done].
  destruct (Z.of_nat _ =? 0); [done|].
  destruct (formatPriceMessage env _); done.
Qed.

Lemma sendPriceUpdate_frame env this w :
  let w' := fst (sendPriceUpdate env this w) in
  configs w' = configs w /\ arrays w' = arrays w /\
  fresh w' = fresh w /\ timers w' = timers w /\ nextTimer w' = nextTimer w.
Proof.
  unfold sendPriceUpdate.
  pose proof (sendPriceUpdate_try_frame env this w) as H.
  destruct (sendPriceUpdate_try env this w) as [w1 [[]|e]]; exact H.
Qed.

Lemma theConfig_sendPriceUpdate env this w :
  theConfig this (fst (sendPriceUpdate env this w)) = theConfig this w.
Proof.
  unfold theConfig.
  by destruct (sendPriceUpdate_frame env this w) as (-> & _).
Qed.

Lemma filter_none {A} (P : A -> Prop) `{forall x, Decision (P x)} (l : list A) :
  (forall x, x ∈ l -> ~ P x) -> filter P l = [].
Proof.
  induction l as [|x l IH]; [done|]. intros Hall.
  rewrite filter_cons, decide_False.
  - apply IH. intros y Hy. apply Hall. by right.
  - apply Hall. by left.
Qed.

(** *** The four ways a cycle can go *)

Lemma length_zero_nil {A} (l : list A) : (Z.of_nat (length l) =? 0) = true <-> l = [].
Proof. destruct l; simpl; split; intros; try done; lia. Qed.

Lemma cycle_skipped env this w allPrices :
  getAllPrices env = Returned allPrices ->
  selected this w allPrices = [] ->
  sendPriceUpdate env this w = (w, Returned tt).
Proof.
  intros Hf Hs. unfold sendPriceUpdate, sendPriceUpdate_try. rewrite Hf.
  fold (selected this w allPrices). by rewrite Hs.
Qed.

Lemma cycle_try_emits env this w allPrices content :
  getAllPrices env = Returned allPrices ->
  selected this w allPrices <> [] ->
  formatPriceMessage env (selected this w allPrices) = Returned content ->
  sendPriceUpdate_try env this w =
    invokeCallback this (priceMessage env content (selected this w allPrices))
      (writeMap (previousPrices this)
         (rememberPrices (selected this w allPrices) (maps w (previousPrices this))) w).
Proof.
  intros Hf Hs Hc. unfold sendPriceUpdate_try. rewrite Hf.
  fold (selected this w allPrices).
  destruct (Z.of_nat (length (selected this w allPrices)) =? 0) eqn:Hz.
  { by apply length_zero_nil in Hz. }
  by rewrite Hc.
Qed.

Lemma cycleFails_try env this w e :
  cycleFails env this w e <-> exists w1, sendPriceUpdate_try env this w = (w1, Thrown e).
Proof.
  split.
  - intros [Hf | allPrices Hf Hs Hc | allPrices content Hf Hs Hc Hcb].
    + exists w. unfold sendPriceUpdate_try. by rewrite Hf.
    + exists w. unfold sendPriceUpdate_try. rewrite Hf.
      fold (selected this w allPrices).
      destruct (Z.of_nat (length (selected this w allPrices)) =? 0) eqn:Hz.
      { by apply length_zero_nil in Hz. }
      by rewrite Hc.
    + rewrite (cycle_try_emits _ _ _ _ _ Hf Hs Hc). unfold invokeCallback.
      rewrite Hcb. eauto.
  - intros [w1 H]. unfold sendPriceUpdate_try in H.
    destruct (getAllPrices env) as [allPrices|e'] eqn:Hf.
    2:{ injection H as _ <-. by apply fetchFails. }
    fold (selected this w allPrices) in H.
    destruct (Z.of_nat (length (selected this w allPrices)) =? 0) eqn:Hz; [done|].
    assert (Hs : selected this w allPrices <> []).
    { intros Hn. apply length_zero_nil in Hn. congruence. }
    destruct (formatPriceMessage env (selected this w allPrices)) as [content|e'] eqn:Hc.
    + unfold invokeCallback in H. injection H as _ Hcb.
      by apply (emitFails _ _ _ _ allPrices content).
    + injection H as _ <-. by apply (formatFails _ _ _ _ allPrices).
Qed.

(** *** Manual updates *)

(** C1, as the code has it.  A call of [triggerManualUpdate] runs one
    update cycle whatever [enabled] and [intervalId] are, and leaves the
    intervals alone; it is the cycle an armed interval runs when it fires.
    When the fetched and filtered list is empty the cycle is skipped in
    silence: the world is unchanged and the callback is not invoked, for a
    manual update as for a tick.  When the list is not empty and nothing
    throws, the callback is invoked exactly once, with the price message.
    When the fetch or the formatting throws, the callback is invoked exactly
    once, with the error message: the fixed text and no [priceData].  In
    every case the callback is invoked at most twice, and at most once when
    it does not throw. *)
Theorem manual_update_runs_one_cycle env this w :
  let w' := fst (triggerManualUpdate env this w) in
  let settled := snd (triggerManualUpdate env this w) in
  (timers w' = timers w /\ nextTimer w' = nextTimer w) /\
  (forall handle, is_Some (timers w !! handle) -> tick handle env this w = w') /\
  (forall allPrices,
     getAllPrices env = Returned allPrices ->
     selected this w allPrices = [] ->
     w' = w /\ settled = Returned tt) /\
  (forall allPrices content,
     getAllPrices env = Returned allPrices ->
     selected this w allPrices <> [] ->
     formatPriceMessage env (selected this w allPrices) = Returned content ->
     messageCallback this (priceMessage env content (selected this w allPrices))
       = Returned tt ->
     calls w' = calls w ++ [priceMessage env content (selected this w allPrices)] /\
     settled = Returned tt) /\
  (forall e,
     getAllPrices env = Thrown e \/
     (exists allPrices,
        getAllPrices env = Returned allPrices /\
        selected this w allPrices <> [] /\
        formatPriceMessage env (selected this w allPrices) = Thrown e) ->
     calls w' = calls w ++ [errorMessage env] /\
     isErrorMessage (errorMessage env)) /\
  (exists invoked,
     calls w' = calls w ++ invoked /\
     (length invoked <= 2)%nat /\
     ((forall m, messageCallback this m = Returned tt) -> (length invoked <= 1)%nat)).
Proof.
  intros w' settled. subst w' settled. unfold triggerManualUpdate.
  split.
  { by destruct (sendPriceUpdate_frame env this w) as (_ & _ & _ & -> & ->). }
  split.
  { intros handle [period Hp]. unfold tick. by rewrite Hp. }
  split.
  { intros allPrices Hf Hs. by rewrite (cycle_skipped _ _ _ _ Hf Hs). }
  split.
  { intros allPrices content Hf Hs Hc Hcb. unfold sendPriceUpdate.
    rewrite (cycle_try_emits _ _ _ _ _ Hf Hs Hc). unfold invokeCallback.
    by rewrite Hcb. }
  split.
  { intros e H. split; [|done].
    assert (Hfail : sendPriceUpdate_try env this w = (w, Thrown e)).
    { unfold sendPriceUpdate_try.
      destruct H as [Hf | (allPrices & Hf & Hs & Hc)]; rewrite Hf; [done|].
      fold (selected this w allPrices).
      destruct (Z.of_nat (length (selected this w allPrices)) =? 0) eqn:Hz.
      { by apply length_zero_nil in Hz. }
      by rewrite Hc. }
    unfold sendPriceUpdate. by rewrite Hfail. }
  unfold sendPriceUpdate, sendPriceUpdate_try.
  destruct (getAllPrices env) as [allPrices|e].
  2:{ exists [errorMessage env]. simpl. repeat split; lia. }
  fold (selected this w allPrices).
  destruct (Z.of_nat (length (selected this w allPrices)) =? 0).
  { exists []. simpl. rewrite app_nil_r. repeat split; lia. }
  destruct (formatPriceMessage env (selected this w allPrices)) as [content|e].
  2:{ exists [errorMessage env]. simpl. repeat split; lia. }
  unfold invokeCallback.
  destruct (messageCallback this _) as [[]|e] eqn:Hcb; simpl.
  - eexists [_]. simpl. repeat split; lia.
  - eexists [_; _]. simpl. rewrite <- app_assoc. simpl. repeat split; try lia.
    intros Hq. rewrite Hq in Hcb. done.
Qed.

(** The claim C1 fails on an empty list.  On a network where every call
    is rejected [getAllPrices] returns no price; the manual update then
    invokes the callback not once but never, and no error message reaches
    the chat. *)
Lemma manual_update_of_empty_list_is_silent :
  Chainlink.getAllPrices enough (priceService ChainlinkSpec.deadNetwork)
    = Some (getAllPrices emptyEnv) /\
  getAllPrices emptyEnv = Returned [] /\
  triggerManualUpdate emptyEnv quietBot firstWorld = (firstWorld, Returned tt) /\
  calls (fst (triggerManualUpdate emptyEnv quietBot firstWorld)) = [] /\
  ~ (exists m, calls (fst (triggerManualUpdate emptyEnv quietBot firstWorld))
               = calls firstWorld ++ [m]).
Proof.
  split; [vm_compute; reflexivity|].
  split; [reflexivity|]. split; [reflexivity|]. split; [reflexivity|].
  intros [m Hm]. change (calls (fst (triggerManualUpdate emptyEnv quietBot firstWorld)))
    with (@nil ChatMessage) in Hm.
  by destruct (calls firstWorld).
Qed.

(** *** Failures inside a cycle *)

(** C3, as the code has it.  When a step of an update cycle throws (the
    fetch, the formatting, or the callback on the price message), the
    [catch] block invokes the callback with the error message, once: what
    was invoked before it in the cycle, if anything, is the price message.
    The error message has the fixed text and no [priceData].  The promise of
    the cycle settles with what the callback does on the error message, so
    no exception leaves the cycle when the callback accepts that message.
    The intervals are left as they were. *)
Theorem failed_cycle_emits_one_error env this w e :
  cycleFails env this w e ->
  let w' := fst (sendPriceUpdate env this w) in
  let settled := snd (sendPriceUpdate env this w) in
  (exists before,
     calls w' = calls w ++ before ++ [errorMessage env] /\
     (forall m, m ∈ before -> priceData m <> None)) /\
  isErrorMessage (errorMessage env) /\
  settled = messageCallback this (errorMessage env) /\
  (messageCallback this (errorMessage env) = Returned tt -> settled = Returned tt) /\
  timers w' = timers w /\ nextTimer w' = nextTimer w.
Proof.
  intros Hfail w' settled. subst w' settled.
  assert (Hframe := sendPriceUpdate_frame env this w).
  destruct Hframe as (_ & _ & _ & Ht & Hn).
  assert (Hcalls : exists before,
            calls (fst (sendPriceUpdate env this w))
              = calls w ++ before ++ [errorMessage env] /\
            (forall m, m ∈ before -> priceData m <> None) /\
            snd (sendPriceUpdate env this w) = messageCallback this (errorMessage env)).
  { destruct Hfail as [Hf | allPrices Hf Hs Hc | allPrices content Hf Hs Hc Hcb].
    - exists []. unfold sendPriceUpdate, sendPriceUpdate_try. rewrite Hf. simpl.
      split; [done|]. split; [|done]. by intros m ?%elem_of_nil.
    - exists []. unfold sendPriceUpdate, sendPriceUpdate_try. rewrite Hf.
      fold (selected this w allPrices).
      destruct (Z.of_nat (length (selected this w allPrices)) =? 0) eqn:Hz.
      { by apply length_zero_nil in Hz. }
      rewrite Hc. simpl. split; [done|]. split; [|done]. by intros m ?%elem_of_nil.
    - exists [priceMessage env content (selected this w allPrices)].
      unfold sendPriceUpdate. rewrite (cycle_try_emits _ _ _ _ _ Hf Hs Hc).
      unfold invokeCallback. rewrite Hcb. simpl. rewrite <- app_assoc.
      split; [done|]. split; [|done].
      by intros m ->%list_elem_of_singleton. }
  destruct Hcalls as (before & Hc & Hb & Hs).
  split; [by exists before|]. split; [done|]. split; [done|].
  split; [by intros <-|]. done.
Qed.

Lemma failed_cycle_emits_one_error_witness :
  (exists before,
     calls (fst (sendPriceUpdate failingEnv quietBot firstWorld))
       = calls firstWorld ++ before ++ [errorMessage failingEnv] /\
     (forall m, m ∈ before -> priceData m <> None)) /\
  isErrorMessage (errorMessage failingEnv) /\
  snd (sendPriceUpdate failingEnv quietBot firstWorld)
    = messageCallback quietBot (errorMessage failingEnv) /\
  (messageCallback quietBot (errorMessage failingEnv) = Returned tt ->
   snd (sendPriceUpdate failingEnv quietBot firstWorld) = Returned tt) /\
  timers (fst (sendPriceUpdate failingEnv quietBot firstWorld)) = timers firstWorld /\
  nextTimer (fst (sendPriceUpdate failingEnv quietBot firstWorld)) = nextTimer firstWorld.
Proof.
  apply (failed_cycle_emits_one_error failingEnv quietBot firstWorld
           (mkError "fetch failed")).
  apply fetchFails. reflexivity.
Defined.

(** The claim C3 fails when the sink is broken: the fetch is rejected, the
    [catch] block invokes the callback with the error message, the callback
    throws, and the promise of the cycle is rejected: the exception leaves
    the cycle, through [triggerManualUpdate] as well. *)
Lemma failed_cycle_can_reject :
  cycleFails failingEnv brokenBot firstWorld (mkError "fetch failed") /\
  snd (sendPriceUpdate failingEnv brokenBot firstWorld) = Thrown (mkError "sink failed") /\
  snd (triggerManualUpdate failingEnv brokenBot firstWorld)
    = Thrown (mkError "sink failed").
Proof.
  split; [by apply fetchFails|]. split; reflexivity.
Qed.

(** *** The interval and the [enabled] flag *)

Lemma start_running env this w handle :
  intervalId this = Some handle ->
  start env this w = start env (setIntervalId None this) (clearInterval handle w).
Proof. intros H. unfold start, stop. by rewrite H. Qed.

Lemma start_stopped_disabled env this w :
  intervalId this = None -> enabled (theConfig this w) = false ->
  start env this w = (this, w).
Proof. intros H He. unfold start. by rewrite H, He. Qed.

Lemma start_stopped_enabled env this w :
  intervalId this = None -> enabled (theConfig this w) = true ->
  let w1 := fst (sendPriceUpdate env this w) in
  start env this w =
    (setIntervalId (Some (nextTimer w1)) this,
     snd (setInterval (intervalMinutes (theConfig this w) * 60 * 1000) w1)).
Proof.
  intros H He. unfold start. rewrite H, He. simpl.
  by rewrite theConfig_sendPriceUpdate.
Qed.

Lemma allocConfig_elsewhere c this w :
  (config this < fresh w)%nat ->
  theConfig this (snd (allocConfig c w)) = theConfig this w.
Proof.
  intros H. unfold theConfig, allocConfig. simpl.
  apply fn_lookup_insert_ne. lia.
Qed.

Lemma isRunning_Some this : isRunning this = true <-> is_Some (intervalId this).
Proof.
  unfold isRunning. destruct (intervalId this).
  - split; eauto.
  - split; [done|]. by intros [? ?].
Qed.

Lemma timerInvariant_intro this w :
  timerShape this w ->
  (isRunning this = true -> enabled (theConfig this w) = true) ->
  allocated this w ->
  timerInvariant (this, w).
Proof. done. Qed.

Lemma stop_shape this w :
  timerShape this w ->
  intervalId (fst (stop this w)) = None /\ timers (snd (stop this w)) = ∅ /\
  config (fst (stop this w)) = config this /\
  previousPrices (fst (stop this w)) = previousPrices this /\
  configs (snd (stop this w)) = configs w /\ fresh (snd (stop this w)) = fresh w /\
  calls (snd (stop this w)) = calls w.
Proof.
  unfold timerShape, stop.
  destruct (intervalId this) as [handle|] eqn:Hi; simpl.
  - intros [period ->]. by rewrite delete_singleton_eq.
  - by rewrite Hi.
Qed.

Lemma stop_invariant this w :
  timerShape this w -> allocated this w -> timerInvariant (stop this w).
Proof.
  intros Hs Ha.
  destruct (stop_shape this w Hs) as (Hi & Ht & Hc & Hp & Hcf & Hf & _).
  destruct (stop this w) as [this' w']. simpl in *.
  unfold timerInvariant, timerShape, allocated, isRunning.
  rewrite Hi, Ht, Hc, Hp, Hf. done.
Qed.

Lemma start_stopped_invariant env this w :
  intervalId this = None -> timers w = ∅ -> allocated this w ->
  timerInvariant (start env this w).
Proof.
  intros Hi Ht Ha. destruct (enabled (theConfig this w)) eqn:He.
  - rewrite (start_stopped_enabled _ _ _ Hi He).
    destruct (sendPriceUpdate_frame env this w) as (Hcf & _ & Hfr & Htm & _).
    unfold timerInvariant, timerShape, allocated, isRunning, theConfig. simpl.
    rewrite Htm, Ht, insert_empty, Hfr, Hcf. eauto.
  - rewrite (start_stopped_disabled _ _ _ Hi He).
    unfold timerInvariant, timerShape, allocated, isRunning. by rewrite Hi.
Qed.

Lemma start_invariant env this w :
  timerShape this w -> allocated this w -> timerInvariant (start env this w).
Proof.
  intros Hs Ha. destruct (intervalId this) as [handle|] eqn:Hi.
  - rewrite (start_running _ _ _ _ Hi).
    destruct (stop_shape this w Hs) as (_ & Ht & _). unfold stop in Ht.
    rewrite Hi in Ht. by apply start_stopped_invariant.
  - unfold timerShape in Hs. rewrite Hi in Hs. by apply start_stopped_invariant.
Qed.

Lemma cycle_invariant env this w :
  timerInvariant (this, w) -> timerInvariant (this, fst (sendPriceUpdate env this w)).
Proof.
  unfold timerInvariant, timerShape, allocated, theConfig.
  destruct (sendPriceUpdate_frame env this w) as (Hcf & _ & Hfr & Htm & _).
  by rewrite Hcf, Hfr, Htm.
Qed.

Lemma updateConfig_unfold env newConfig this w :
  let merged := spread (theConfig this w) newConfig in
  let this0 := setConfig (fresh w) this in
  let w0 := snd (allocConfig merged w) in
  theConfig this0 w0 = merged /\
  updateConfig env newConfig this w =
    if enabled merged && negb (isRunning this) then start env this0 w0
    else if negb (enabled merged) && isRunning this then stop this0 w0
    else (this0, w0).
Proof.
  intros merged this0 w0.
  assert (Hcfg : theConfig this0 w0 = merged).
  { unfold theConfig, this0, w0. simpl. apply fn_lookup_insert. }
  split; [exact Hcfg|].
  subst merged this0 w0. unfold updateConfig.
  cbn [allocConfig snd] in Hcfg |- *. rewrite Hcfg. reflexivity.
Qed.

Lemma updateConfig_invariant env newConfig this w :
  timerInvariant (this, w) -> timerInvariant (updateConfig env newConfig this w).
Proof.
  intros (Hs & He & Hc & Hp).
  destruct (updateConfig_unfold env newConfig this w) as [Hcfg ->].
  set (merged := spread (theConfig this w) newConfig) in *.
  set (this0 := setConfig (fresh w) this) in *.
  set (w0 := snd (allocConfig merged w)) in *.
  assert (Hs0 : timerShape this0 w0) by exact Hs.
  assert (Ha0 : allocated this0 w0).
  { unfold allocated, this0, w0. simpl. lia. }
  destruct (enabled merged) eqn:Hen, (isRunning this) eqn:Hr; simpl.
  - apply timerInvariant_intro; [done| |done]. by rewrite Hcfg.
  - by apply start_invariant.
  - by apply stop_invariant.
  - apply timerInvariant_intro; [done| |done].
    change (isRunning this0) with (isRunning this). by rewrite Hr.
Qed.

Lemma step_invariant op s : timerInvariant s -> timerInvariant (step op s).
Proof.
  destruct s as [this w]. intros Hinv.
  destruct op as [env| |newConfig env|env|handle env| |]; cbn [step].
  - destruct Hinv as (Hs & _ & Ha). by apply start_invariant.
  - destruct Hinv as (Hs & _ & Ha). by apply stop_invariant.
  - by apply updateConfig_invariant.
  - by apply cycle_invariant.
  - unfold tick. destruct (timers w !! handle); [by apply cycle_invariant|done].
  - destruct Hinv as (Hs & He & Hc & Hp). apply timerInvariant_intro.
    + exact Hs.
    + unfold getConfig. by rewrite (allocConfig_elsewhere _ _ _ Hc).
    + unfold allocated. simpl. lia.
  - destruct Hinv as (Hs & He & Hc & Hp). apply timerInvariant_intro.
    + exact Hs.
    + exact He.
    + unfold allocated. simpl. lia.
Qed.

Lemma reachable_invariant s : reachable s -> timerInvariant s.
Proof.
  induction 1 as [config messageCallback w Hc Ht|op s _ IH].
  - unfold new, timerInvariant, timerShape, allocated, isRunning. simpl.
    split; [exact Ht|]. split; [done|lia].
  - by apply step_invariant.
Qed.

Lemma start_enabled env this w :
  timerShape this w -> enabled (theConfig this w) = true ->
  let s1 := start env this w in
  isRunning (fst s1) = true /\ size (timers (snd s1)) = 1%nat /\
  theConfig (fst s1) (snd s1) = theConfig this w.
Proof.
  intros Hs He.
  assert (Hstopped : forall this' w',
            intervalId this' = None -> timers w' = ∅ ->
            enabled (theConfig this' w') = true ->
            isRunning (fst (start env this' w')) = true /\
            size (timers (snd (start env this' w'))) = 1%nat /\
            theConfig (fst (start env this' w')) (snd (start env this' w'))
              = theConfig this' w').
  { intros this' w' Hi Ht He'. rewrite (start_stopped_enabled _ _ _ Hi He').
    destruct (sendPriceUpdate_frame env this' w') as (Hcf & _ & _ & Htm & _).
    unfold theConfig. simpl. rewrite Htm, Ht, insert_empty, Hcf.
    by rewrite map_size_singleton. }
  destruct (intervalId this) as [handle|] eqn:Hi.
  - cbv zeta. rewrite (start_running _ _ _ _ Hi).
    destruct (stop_shape this w Hs) as (_ & Ht & _). unfold stop in Ht.
    rewrite Hi in Ht.
    exact (Hstopped (setIntervalId None this) (clearInterval handle w) eq_refl Ht He).
  - unfold timerShape in Hs. rewrite Hi in Hs. by apply Hstopped.
Qed.

(** C6, as the code has it.  In every state the host can drive a bot to:
    while [enabled] is false no interval is armed; there is never more than
    one interval; there is exactly one when the bot is running ([intervalId]
    is set), and then [enabled] is true.  [enabled] alone arms nothing: a
    bot is running only from [start] on.  Calling [start] twice, with
    [enabled] true, leaves exactly one interval; calling [start] while
    [enabled] is false changes nothing: no interval, no callback. *)
Theorem interval_follows_running this w :
  reachable (this, w) ->
  (enabled (theConfig this w) = false -> timers w = ∅ /\ isRunning this = false) /\
  (size (timers w) <= 1)%nat /\
  (isRunning this = true <-> size (timers w) = 1%nat) /\
  (isRunning this = true -> enabled (theConfig this w) = true) /\
  (forall env1 env2,
     enabled (theConfig this w) = true ->
     let s1 := start env1 this w in
     let s2 := start env2 (fst s1) (snd s1) in
     size (timers (snd s2)) = 1%nat /\ isRunning (fst s2) = true) /\
  (forall env,
     enabled (theConfig this w) = false -> start env this w = (this, w)).
Proof.
  intros Hreach. pose proof (reachable_invariant _ Hreach) as (Hs & He & Ha).
  assert (Hsize : isRunning this = true <-> size (timers w) = 1%nat).
  { unfold timerShape, isRunning in *. destruct (intervalId this) as [handle|].
    - destruct Hs as [period ->]. by rewrite map_size_singleton.
    - by rewrite Hs, map_size_empty. }
  assert (Hoff : enabled (theConfig this w) = false -> isRunning this = false).
  { intros Hd. destruct (isRunning this); [|done]. rewrite He in Hd; done. }
  split.
  { intros Hd. split; [|by apply Hoff].
    apply Hoff in Hd. unfold timerShape, isRunning in *.
    by destruct (intervalId this). }
  split.
  { unfold timerShape in Hs. destruct (intervalId this) as [handle|].
    - destruct Hs as [period ->]. by rewrite map_size_singleton.
    - rewrite Hs, map_size_empty. lia. }
  split; [exact Hsize|]. split; [exact He|]. split.
  - intros env1 env2 Hen s1 s2.
    destruct (start_enabled env1 this w Hs Hen) as (_ & _ & Hcfg).
    assert (Hinv1 : timerInvariant s1).
    { apply (reachable_invariant _ (reachable_step (OpStart env1) _ Hreach)). }
    fold s1 in Hcfg. destruct s1 as [this1 w1]. simpl in Hcfg.
    destruct Hinv1 as (Hs1 & _ & _).
    assert (Hen1 : enabled (theConfig this1 w1) = true) by by rewrite Hcfg.
    destruct (start_enabled env2 this1 w1 Hs1 Hen1) as (Hr2 & Hsz2 & _).
    done.
  - intros env Hd. apply start_stopped_disabled; [|done].
    apply Hoff in Hd. unfold isRunning in Hd. by destruct (intervalId this).
Qed.

Lemma quietBot_reachable : reachable (quietBot, firstWorld).
Proof. exact (reachable_new defaultPriceBotConfig quietCallback moduleWorld
                (Nat.lt_0_1) eq_refl). Qed.

Lemma interval_follows_running_witness :
  (enabled (theConfig quietBot firstWorld) = false ->
   timers firstWorld = ∅ /\ isRunning quietBot = false) /\
  (size (timers firstWorld) <= 1)%nat /\
  (isRunning quietBot = true <-> size (timers firstWorld) = 1%nat) /\
  (isRunning quietBot = true -> enabled (theConfig quietBot firstWorld) = true) /\
  (forall env1 env2,
     enabled (theConfig quietBot firstWorld) = true ->
     let s1 := start env1 quietBot firstWorld in
     let s2 := start env2 (fst s1) (snd s1) in
     size (timers (snd s2)) = 1%nat /\ isRunning (fst s2) = true) /\
  (forall env,
     enabled (theConfig quietBot firstWorld) = false ->
     start env quietBot firstWorld = (quietBot, firstWorld)).
Proof.
  apply (interval_follows_running quietBot firstWorld).
  exact (reachable_new defaultPriceBotConfig quietCallback moduleWorld
           (Nat.lt_0_1) eq_refl).
Defined.

(** The claim C6 fails where it says that [enabled] implies an armed
    interval: a bot fresh from [createPriceBot] has [enabled] true and no
    interval, and so has a bot that was started and then stopped. *)
Lemma enabled_without_interval :
  reachable (quietBot, firstWorld) /\
  enabled (theConfig quietBot firstWorld) = true /\
  size (timers firstWorld) = 0%nat /\
  reachable startedAndStopped /\
  enabled (theConfig (fst startedAndStopped) (snd startedAndStopped)) = true /\
  size (timers (snd startedAndStopped)) = 0%nat.
Proof.
  split; [exact quietBot_reachable|]. split; [reflexivity|]. split; [reflexivity|].
  split; [|split; vm_compute; reflexivity].
  unfold startedAndStopped. do 2 apply reachable_step. exact quietBot_reachable.
Qed.

(** The states above are those the bot's own operations lead to.  The
    constructor keeps the configuration object it is given, so a host that
    holds on to [defaultPriceBotConfig] and clears its [enabled] leaves a
    running bot with [enabled] false and its interval armed. *)
Example constructor_keeps_the_reference :
  let '(bot, w) := start btcEnv quietBot firstWorld in
  let w' := writeConfig defaultPriceBotConfig
              {| intervalMinutes := 5; enabled := false; symbols := 0%nat |} w in
  isRunning bot = true /\ enabled (theConfig bot w') = false /\
  size (timers w') = 1%nat.
Proof. vm_compute. repeat split; reflexivity. Qed.

(** *** Changing the configuration *)

Lemma tick_cleared handle env this w : timers w = ∅ -> tick handle env this w = w.
Proof. intros H. unfold tick. by rewrite H, lookup_empty. Qed.

Lemma ticks_cleared fired this w : timers w = ∅ -> ticks fired this w = w.
Proof.
  intros H. unfold ticks. induction fired as [|[handle env] fired IH]; [done|].
  simpl. by rewrite tick_cleared.
Qed.

Lemma start_config env this w :
  theConfig (fst (start env this w)) (snd (start env this w)) = theConfig this w.
Proof.
  assert (Hstopped : forall this' w', intervalId this' = None ->
            theConfig (fst (start env this' w')) (snd (start env this' w'))
              = theConfig this' w').
  { intros this' w' Hi. destruct (enabled (theConfig this' w')) eqn:He.
    - rewrite (start_stopped_enabled _ _ _ Hi He).
      destruct (sendPriceUpdate_frame env this' w') as (Hcf & _).
      unfold theConfig. simpl. by rewrite Hcf.
    - by rewrite (start_stopped_disabled _ _ _ Hi He). }
  destruct (intervalId this) as [handle|] eqn:Hi.
  - rewrite (start_running _ _ _ _ Hi).
    exact (Hstopped (setIntervalId None this) (clearInterval handle w) eq_refl).
  - by apply Hstopped.
Qed.

(** C8.  [updateConfig] stores the configuration merged from the current
    one and the partial one: field by field, the stored configuration has
    the value that the partial one gives, and where it gives none the
    value that the bot had.  When the merged [enabled] is true and the bot
    is stopped it does what [start] does, and the bot is running after it.
    When the merged [enabled] is false and the bot is running it does what
    [stop] does: no interval is left, the callback has not been invoked, and
    however the intervals are fired afterwards the callback is not invoked
    again.  In the two other cases nothing else happens: the handle, the
    armed intervals with their periods (so a new [intervalMinutes] does not
    re-arm a running bot) and the invocations of the callback are as they
    were. *)
Theorem updateConfig_follows_enabled env newConfig this w :
  reachable (this, w) ->
  let merged := spread (theConfig this w) newConfig in
  let this0 := setConfig (fresh w) this in
  let w0 := snd (allocConfig merged w) in
  let s' := updateConfig env newConfig this w in
  theConfig (fst s') (snd s') = merged /\
  (let stored := theConfig (fst s') (snd s') in
   let current := theConfig this w in
   intervalMinutes stored =
     match intervalMinutes_opt newConfig with
     | Some given => given
     | None => intervalMinutes current
     end /\
   enabled stored =
     match enabled_opt newConfig with
     | Some given => given
     | None => enabled current
     end /\
   symbols stored =
     match symbols_opt newConfig with
     | Some given => given
     | None => symbols current
     end) /\
  (enabled merged = true -> isRunning this = false ->
     s' = start env this0 w0 /\ isRunning (fst s') = true) /\
  (enabled merged = false -> isRunning this = true ->
     s' = stop this0 w0 /\ isRunning (fst s') = false /\
     timers (snd s') = ∅ /\ calls (snd s') = calls w /\
     forall fired, calls (ticks fired (fst s') (snd s')) = calls w) /\
  (enabled merged = isRunning this ->
     s' = (this0, w0) /\ intervalId (fst s') = intervalId this /\
     timers (snd s') = timers w /\ nextTimer (snd s') = nextTimer w /\
     calls (snd s') = calls w).
Proof.
  intros Hreach merged this0 w0 s'.
  pose proof (reachable_invariant _ Hreach) as (Hs & He & Ha).
  destruct (updateConfig_unfold env newConfig this w) as [Hcfg Hupd].
  fold merged this0 w0 in Hcfg, Hupd. fold s' in Hupd.
  assert (Hs0 : timerShape this0 w0) by exact Hs.
  assert (Hstored : theConfig (fst s') (snd s') = merged).
  { rewrite Hupd. destruct (enabled merged), (isRunning this); simpl.
    - exact Hcfg.
    - by rewrite start_config.
    - destruct (stop_shape this0 w0 Hs0) as (_ & _ & Hc & _ & Hcf & _).
      unfold theConfig in *. by rewrite Hc, Hcf.
    - exact Hcfg. }
  split; [exact Hstored|].
  split.
  { cbv zeta. rewrite Hstored. unfold merged, spread. cbn [intervalMinutes enabled symbols].
    destruct newConfig as [[given1|] [given2|] [given3|]]; done. }
  split.
  { intros Hen Hr. rewrite Hupd, Hen, Hr. simpl. split; [done|].
    apply start_enabled; [exact Hs0|]. by rewrite Hcfg. }
  split.
  { intros Hen Hr. rewrite Hupd, Hen, Hr. simpl.
    destruct (stop_shape this0 w0 Hs0) as (Hi & Ht & _ & _ & _ & _ & Hcalls).
    split; [done|]. split; [unfold isRunning; by rewrite Hi|].
    split; [done|]. split; [done|].
    intros fired. by rewrite ticks_cleared. }
  intros Heq. rewrite Hupd.
  destruct (enabled merged), (isRunning this); try done.
Qed.

(** A bot fresh from [createPriceBot] is given a new interval of ten
    minutes: it is started.  The running bot is then disabled: it is
    stopped, and no firing of an interval invokes the callback again. *)
Lemma updateConfig_follows_enabled_witness :
  let slower := {| intervalMinutes_opt := Some 10; enabled_opt := None;
                   symbols_opt := None |} in
  let disabled := {| intervalMinutes_opt := None; enabled_opt := Some false;
                     symbols_opt := None |} in
  let started := updateConfig btcEnv slower quietBot firstWorld in
  let stopped := updateConfig btcEnv disabled (fst started) (snd started) in
  (isRunning quietBot = false /\
   theConfig (fst started) (snd started)
     = {| intervalMinutes := 10; enabled := true; symbols := 0%nat |} /\
   started = start btcEnv (setConfig (fresh firstWorld) quietBot)
               (snd (allocConfig (spread (theConfig quietBot firstWorld) slower)
                       firstWorld)) /\
   isRunning (fst started) = true) /\
  (theConfig (fst stopped) (snd stopped)
     = {| intervalMinutes := 10; enabled := false; symbols := 0%nat |} /\
   isRunning (fst stopped) = false /\
   timers (snd stopped) = ∅ /\
   calls (snd stopped) = calls (snd started) /\
   forall fired,
     calls (ticks fired (fst stopped) (snd stopped)) = calls (snd started)).
Proof.
  intros slower disabled started stopped.
  assert (Hfresh : reachable (quietBot, firstWorld)).
  { exact (reachable_new defaultPriceBotConfig quietCallback moduleWorld
             (Nat.lt_0_1) eq_refl). }
  assert (Hstarted : reachable (fst started, snd started)).
  { generalize (reachable_step (OpUpdateConfig slower btcEnv) _ Hfresh).
    cbn [step]. fold started. destruct started. exact (fun H => H). }
  destruct (updateConfig_follows_enabled btcEnv slower quietBot firstWorld Hfresh)
    as (Hcfg1 & _ & Hstart1 & _ & _).
  destruct (Hstart1 eq_refl eq_refl) as (Heq1 & Hrun1).
  destruct (updateConfig_follows_enabled btcEnv disabled (fst started) (snd started)
              Hstarted)
    as (Hcfg2 & _ & _ & Hstop2 & _).
  destruct (Hstop2 eq_refl Hrun1) as (_ & Hrun2 & Htimers2 & Hcalls2 & Hticks2).
  split.
  - split; [reflexivity|]. split; [exact Hcfg1|]. split; [exact Heq1|exact Hrun1].
  - split; [|done].
    fold stopped in Hcfg2. rewrite Hcfg2. fold started in Hcfg1. rewrite Hcfg1.
    reflexivity.
Defined.

(** A bot that is given an array of symbols of its own reads that array
    from then on. *)
Example updateConfig_symbols_example :
  let '(a, w) := allocArray ["ETH/USD"%string] firstWorld in
  let chosen := {| intervalMinutes_opt := None; enabled_opt := None;
                   symbols_opt := Some a |} in
  let '(bot, w') := updateConfig btcEnv chosen quietBot w in
  theSymbols bot w' = ["ETH/USD"%string] /\
  theSymbols quietBot w' = ["BTC/USD"; "ETH/USD"; "BTC/ETH"; "BNB/ETH"]%string.
Proof. vm_compute. split; reflexivity. Qed.

(** A running bot whose interval is changed from five minutes to ten
    keeps its interval of 300000 ms; disabled, it loses it, and a tick of
    the old handle does nothing. *)
Example updateConfig_example :
  let '(bot, w) := start btcEnv quietBot firstWorld in
  let slower := {| intervalMinutes_opt := Some 10; enabled_opt := None;
                   symbols_opt := None |} in
  let disabled := {| intervalMinutes_opt := None; enabled_opt := Some false;
                     symbols_opt := None |} in
  map_to_list (timers w) = [(1%positive, 300000)] /\
  map_to_list (timers (snd (updateConfig btcEnv slower bot w))) = [(1%positive, 300000)] /\
  intervalMinutes (theConfig (fst (updateConfig btcEnv slower bot w))
                             (snd (updateConfig btcEnv slower bot w))) = 10 /\
  map_to_list (timers (snd (updateConfig btcEnv disabled bot w))) = [] /\
  length (calls (snd (updateConfig btcEnv disabled bot w))) = 1%nat /\
  length (calls (tick 1%positive btcEnv (fst (updateConfig btcEnv disabled bot w))
                   (snd (updateConfig btcEnv disabled bot w)))) = 1%nat.
Proof. vm_compute. repeat split; reflexivity. Qed.

(** *** The accessors *)

(** The bot never looks at an object it does not refer to: two worlds
    that differ in such an object only stay that way, and the bot does the
    same in both. *)









Lemma run_cons op ops s : run (op :: ops) s = run ops (step op s).
Proof. reflexivity. Qed.





(** *** The canonical symbols and the configured ones *)

(** C10.  [getAllPrices] fetches exactly BTC/USD, ETH/USD, BTC/ETH and
    BNB/ETH.  BNB/USD has an address in both tables, yet no result of
    [getAllPrices] carries that symbol; so for a bot whose configured
    symbols are BNB/USD alone, every cycle that is fed by [getAllPrices] is
    skipped: the world is unchanged, the callback is not invoked. *)
Theorem BNB_USD_is_never_sent :
  canonicalSymbols = ["BTC/USD"; "ETH/USD"; "BTC/ETH"; "BNB/ETH"]%string /\
  is_Some (lookupFeed CHAINLINK_PRICE_FEEDS "BNB/USD") /\
  is_Some (lookupFeed CHAINLINK_PRICE_FEEDS_SEPOLIA "BNB/USD") /\
  (forall service extra prices pd,
     Chainlink.getAllPrices (enough + extra) service = Some (Returned prices) ->
     pd ∈ prices -> symbol pd <> "BNB/USD"%string) /\
  (forall service extra env this w,
     Chainlink.getAllPrices (enough + extra) service = Some (getAllPrices env) ->
     theSymbols this w = ["BNB/USD"%string] ->
     sendPriceUpdate env this w = (w, Returned tt) /\
     triggerManualUpdate env this w = (w, Returned tt) /\
     forall handle, tick handle env this w = w).
Proof.
  assert (Hnever : forall service extra prices pd,
            Chainlink.getAllPrices (enough + extra) service = Some (Returned prices) ->
            pd ∈ prices -> symbol pd <> "BNB/USD"%string).
  { intros service extra prices pd Hall Hin Heq.
    pose proof (ChainlinkFacts.getAllPrices_symbols _ _ _ _ Hall Hin) as Hsym.
    rewrite Heq in Hsym. unfold canonicalSymbols in Hsym.
    repeat (apply elem_of_cons in Hsym as [Hsym | Hsym]; [done|]).
    by apply elem_of_nil in Hsym. }
  split; [reflexivity|]. split; [by eexists|]. split; [by eexists|].
  split; [exact Hnever|].
  intros service extra env this w Hall Hsym.
  assert (Hskip : sendPriceUpdate env this w = (w, Returned tt)).
  { destruct (getAllPrices env) as [allPrices|e] eqn:Hf.
    2:{ rewrite ChainlinkFacts.getAllPrices_fetched in Hall. done. }
    apply (cycle_skipped _ _ _ allPrices Hf).
    unfold selected. rewrite Hsym. apply filter_none.
    intros pd Hin Heq%list_elem_of_singleton.
    apply (Hnever service extra allPrices pd); [|done..].
    by rewrite Hall. }
  split; [exact Hskip|]. split; [exact Hskip|].
  intros handle. unfold tick. rewrite Hskip. by destruct (timers w !! handle).
Qed.

(** On the Sepolia network of the example, a bot configured for BNB/USD
    alone stays silent, where the default bot sends one message, of three
    prices. *)
Example BNB_USD_example :
  forall prices,
    Chainlink.getAllPrices enough (priceService ChainlinkSpec.sepoliaNetwork)
      = Some (Returned prices) ->
    let env := {| getAllPrices := Returned prices; formatPriceMessage := plainFormat;
                  Date_now := fun _ => 1700000000000 |} in
    let w := writeArray 0%nat ["BNB/USD"%string] firstWorld in
    calls (fst (triggerManualUpdate env quietBot w)) = [] /\
    (priceData <$> calls (fst (triggerManualUpdate env quietBot firstWorld)))
      = [Some prices] /\
    length prices = 3%nat.
Proof.
  intros prices H. vm_compute in H. injection H as <-.
  repeat split; vm_compute; reflexivity.
Qed.

End BotFacts.

(** ** More on the price feed service *)

Module ServiceFacts.

Import Chainlink NumberSpec ChainlinkSpec NumberFacts ChainlinkFacts.

(** *** The lines of a message *)

Lemma append_nil (b : string) : EmptyString +:+ b = b.
Proof. reflexivity. Qed.

Lemma append_cons x (a b : string) : String x a +:+ b = String x (a +:+ b).
Proof. reflexivity. Qed.

Lemma append_assoc (a b c : string) : (a +:+ b) +:+ c = a +:+ (b +:+ c).
Proof.
  induction a as [|x a IH]; [done|]. by rewrite !append_cons, IH.
Qed.

Lemma lines_nonempty s : lines s <> [].
Proof.
  destruct s as [|a s]; [done|]. simpl.
  destruct (decide (a = lineFeed)); [done|]. by destruct (lines s).
Qed.

Lemma lines_append a b : lines (a +:+ newline +:+ b) = lines a ++ lines b.
Proof.
  induction a as [|x a IH].
  - rewrite append_nil. unfold newline. rewrite append_cons, append_nil.
    reflexivity.
  - rewrite append_cons. simpl.
    destruct (decide (x = lineFeed)); [by rewrite IH|].
    rewrite IH. pose proof (lines_nonempty a). by destruct (lines a).
Qed.

Lemma lines_oneLine s : oneLine s = true -> lines s = [s].
Proof.
  induction s as [|a s IH]; [done|]. simpl.
  destruct (decide (a = lineFeed)); [done|]. intros H. by rewrite IH.
Qed.

Lemma oneLine_append a b : oneLine (a +:+ b) = oneLine a && oneLine b.
Proof.
  induction a as [|x a IH]; [done|]. rewrite append_cons. simpl.
  by destruct (decide (x = lineFeed)).
Qed.

Lemma lines_join xs :
  xs <> [] -> Forall (fun x => oneLine x = true) xs -> lines (join newline xs) = xs.
Proof.
  induction xs as [|x xs IH]; [done|]. intros _ Hall.
  apply Forall_cons in Hall as [Hx Hxs].
  destruct xs as [|y xs]; [by apply lines_oneLine|].
  change (join newline (x :: y :: xs)) with (x +:+ newline +:+ join newline (y :: xs)).
  rewrite lines_append, lines_oneLine, IH by done. done.
Qed.

Lemma oneLine_formatPrice toLocaleString toLocaleTimeString p :
  oneLine (symbol p) = true ->
  (forall x lo hi, oneLine (toLocaleString x lo hi) = true) ->
  (forall t, oneLine (toLocaleTimeString t) = true) ->
  oneLine (formatPrice toLocaleString toLocaleTimeString p) = true.
Proof.
  intros Hs Hn Ht. unfold formatPrice.
  rewrite !oneLine_append, Hs, Hn, Ht. reflexivity.
Qed.

(** X1.  The text [formatPriceMessage] builds, read line by line: for an
    empty list it is the one line that says that there is no data; for
    any other list it is the header, then one line for each price, in the
    order of the list, each what [formatPrice] makes of that price, then
    the line of the update time.  This is so when the symbols and the
    host's renderings hold no line break. *)
Theorem formatPriceMessage_is_one_line_per_price
  (toLocaleString : number -> Z -> Z -> string)
  (toLocaleTimeString : number -> string)
  (nowLocaleString : string) (priceData : list PriceData) :
  (forall p, p ∈ priceData -> oneLine (symbol p) = true) ->
  (forall x lo hi, oneLine (toLocaleString x lo hi) = true) ->
  (forall t, oneLine (toLocaleTimeString t) = true) ->
  oneLine nowLocaleString = true ->
  lines (formatPriceMessage toLocaleString toLocaleTimeString nowLocaleString priceData)
    = match priceData with
      | [] => [noDataLine]
      | _ => headerLine
               :: map (formatPrice toLocaleString toLocaleTimeString) priceData
               ++ ["_Updated: " +:+ nowLocaleString +:+ "_"]
      end.
Proof.
  intros Hsym Hnum Htime Hnow.
  destruct priceData as [|p rest] eqn:Hp; [reflexivity|].
  rewrite <- Hp in *. unfold formatPriceMessage.
  assert (Hlen : (Z.of_nat (length priceData) =? 0) = false).
  { rewrite Hp. simpl. lia. }
  rewrite Hlen. cbv zeta. rewrite !append_assoc. rewrite !lines_append.
  rewrite lines_join.
  - rewrite !lines_oneLine; [done| |done].
    rewrite !oneLine_append, Hnow. reflexivity.
  - rewrite Hp. done.
  - apply Forall_map, Forall_forall. intros q Hq.
    apply oneLine_formatPrice; auto.
Qed.

Lemma formatPriceMessage_is_one_line_per_price_witness :
  lines (formatPriceMessage plainNumber plainTime (plainDate 1700000000000)
           [btcPrice; ethPrice])
    = [headerLine;
       formatPrice plainNumber plainTime btcPrice;
       formatPrice plainNumber plainTime ethPrice;
       "_Updated: " +:+ plainDate 1700000000000 +:+ "_"].
Proof.
  apply (formatPriceMessage_is_one_line_per_price plainNumber plainTime
           (plainDate 1700000000000) [btcPrice; ethPrice]).
  - intros p Hp. apply elem_of_cons in Hp as [->|Hp]; [reflexivity|].
    apply list_elem_of_singleton in Hp as ->. reflexivity.
  - reflexivity.
  - reflexivity.
  - vm_compute. reflexivity.
Defined.

(** *** The symbols *)

Lemma symbols_of_fetched this (l : list string) :
  map symbol (omap (fetched this) l) `sublist_of` l.
Proof.
  induction l as [|sym l IH]; [constructor|].
  cbn [omap list_omap]. destruct (fetched this sym) as [pd|] eqn:Hf.
  - cbn [map]. rewrite (fetched_symbol _ _ _ Hf). by apply sublist_skip.
  - by apply sublist_cons.
Qed.

Lemma canonicalSymbols_NoDup : NoDup canonicalSymbols.
Proof. unfold canonicalSymbols. by apply NoDup_ListNoDup; repeat constructor;
  cbn; intros H; repeat (destruct H as [H|H]; [discriminate H|]). Qed.

(** X2.  [getAllPrices] returns four entries at most, and no two of them
    carry the same symbol: their symbols are the canonical ones, in that
    order, with those of the failed fetches left out.  So whatever symbols
    a bot is configured with, no two prices that pass its filter carry the
    same symbol. *)
Theorem getAllPrices_symbols_are_distinct this extra :
  let prices := omap (fetched this) canonicalSymbols in
  getAllPrices (enough + extra) this = Some (Returned prices) /\
  map symbol prices `sublist_of` canonicalSymbols /\
  NoDup (map symbol prices) /\
  (length prices <= 4)%nat /\
  forall configured : list string,
    NoDup (map symbol (filter (fun pd => symbol pd ∈ configured) prices)).
Proof.
  intros prices.
  pose proof (symbols_of_fetched this canonicalSymbols) as Hsub.
  fold prices in Hsub.
  assert (Hnd : NoDup (map symbol prices)).
  { exact (sublist_NoDup _ _ canonicalSymbols_NoDup Hsub). }
  split; [apply getAllPrices_fetched|]. split; [exact Hsub|].
  split; [exact Hnd|]. split.
  - apply sublist_length in Hsub. by rewrite length_map in Hsub.
  - intros configured. apply (sublist_NoDup _ (map symbol prices)); [exact Hnd|].
    apply fmap_sublist, sublist_filter.
Qed.

(** *** The feed tables *)

Lemma lookupFeed_is_Some table sym :
  is_Some (lookupFeed table sym) <-> sym ∈ map fst table.
Proof.
  induction table as [|[k v] table IH]; simpl.
  - split; [by intros [? ?]|by intros ?%elem_of_nil].
  - rewrite elem_of_cons. destruct (decide (k = sym)) as [->|Hne].
    + split; eauto.
    + rewrite IH. split; [auto|]. intros [->|H]; done.
Qed.

Lemma lookupFeed_address table sym address :
  lookupFeed table sym = Some address -> address ∈ map snd table.
Proof.
  induction table as [|[k v] table IH]; simpl; [done|].
  destruct (decide (k = sym)).
  - intros [= ->]. by left.
  - intros H. right. by apply IH.
Qed.

Lemma priceFeeds_new network config :
  map fst (priceFeeds (new network config)) = feedSymbols /\
  Forall (fun address => address <> EmptyString)
    (map snd (priceFeeds (new network config))).
Proof.
  unfold new. cbn [priceFeeds].
  destruct (isTestnet config) as [[]|]; (split; [reflexivity|]);
    repeat constructor; discriminate.
Qed.

(** X3.  Whatever configuration the service is constructed with, and on
    whatever network: its feed table has an address, and not an empty
    one, for BTC/USD, ETH/USD and BNB/USD and for no other symbol, so
    [getPrice] returns [null] for every symbol but these three and the two
    derived ones.  [chainId] plays no part; the Sepolia table is used
    exactly when [isTestnet] is [true]. *)
Theorem constructor_knows_three_feeds network config :
  (forall sym,
     is_Some (lookupFeed (priceFeeds (new network config)) sym) <-> sym ∈ feedSymbols) /\
  (forall sym address,
     lookupFeed (priceFeeds (new network config)) sym = Some address ->
     address <> EmptyString) /\
  (forall sym extra,
     sym ∉ supportedSymbols ->
     getPrice (enough + extra) (new network config) sym = Some (Returned None)) /\
  (forall otherChain,
     new network {| rpcUrl := rpcUrl config; chainId := otherChain;
                    isTestnet := isTestnet config |} = new network config) /\
  (priceFeeds (new network config) = CHAINLINK_PRICE_FEEDS_SEPOLIA
     <-> isTestnet config = Some true).
Proof.
  destruct (priceFeeds_new network config) as [Hfst Hsnd].
  assert (Hkeys : forall sym,
            is_Some (lookupFeed (priceFeeds (new network config)) sym)
              <-> sym ∈ feedSymbols).
  { intros sym. by rewrite lookupFeed_is_Some, Hfst. }
  split; [exact Hkeys|]. split.
  { intros sym address Hl%lookupFeed_address.
    by apply (proj1 (Forall_forall _ _) Hsnd). }
  split.
  { intros sym extra Hnot.
    assert (Hd : isDirect sym).
    { apply isDirect_iff. unfold supportedSymbols, feedSymbols in Hnot.
      split; intros ->; apply Hnot; cbn [app]; rewrite !elem_of_cons; auto 10. }
    unfold enough. change (3 + extra)%nat with (S (S (S extra))).
    rewrite getPrice_direct by done. unfold readFeed.
    destruct (lookupFeed (priceFeeds (new network config)) sym) eqn:Hl; [|done].
    exfalso. apply Hnot. unfold supportedSymbols. apply elem_of_app. left.
    apply Hkeys. by rewrite Hl. }
  split; [done|].
  unfold new. cbn [priceFeeds]. destruct (isTestnet config) as [[]|]; split; done.
Qed.

(** *** A denominator of zero *)

Lemma div_by_zero_not_finite x : isFinite (div x zero) = false.
Proof. by destruct x. Qed.

(** X4.  [getCalculatedPrice] does not look at the denominator before it
    divides.  When the feed of the denominator answers 0, the fetch of the
    denominator returns a price of zero, and the fetch of the derived
    symbol still returns a [PriceData], not [null]: its price is the
    numerator's price divided by zero, which is an infinity or [NaN],
    never a finite number. *)
Theorem zero_denominator_is_divided_by this sym num den address rd dec n extra :
  constituents sym = Some (num, den) ->
  lookupFeed (priceFeeds this) den = Some address -> address <> EmptyString ->
  latestRoundData (provider this address) = Returned rd ->
  getDecimals (provider this address) = Returned dec -> 0 <= dec <= 80 ->
  answer rd = 0 ->
  getPrice (enough + extra) this num = Some (Returned (Some n)) ->
  (exists d,
     getPrice (enough + extra) this den = Some (Returned (Some d)) /\
     price d = zero) /\
  (exists pd,
     getPrice (enough + extra) this sym = Some (Returned (Some pd)) /\
     price pd = div (price n) zero /\
     isFinite (price pd) = false).
Proof.
  intros Hc Hl Ha Hr Hd Hdec Hzero.
  destruct (constituents_direct _ _ _ Hc) as [Hdn Hdd].
  unfold enough. change (3 + extra)%nat with (S (S (S extra))).
  rewrite (getPrice_derived _ _ _ _ _ Hc), !getPrice_direct by done.
  rewrite (readFeed_success _ _ _ _ _ Hl Ha Hr Hd Hdec), Hzero.
  intros [= ->]. split.
  - eexists. split; [reflexivity|]. reflexivity.
  - eexists. split; [reflexivity|]. cbn [price]. split; [reflexivity|].
    apply div_by_zero_not_finite.
Qed.

Lemma zero_denominator_is_divided_by_witness :
  (exists d,
     getPrice (enough + 0) (priceService zeroEthNetwork) "ETH/USD"
       = Some (Returned (Some d)) /\
     price d = zero) /\
  (exists pd,
     getPrice (enough + 0) (priceService zeroEthNetwork) "BTC/ETH"
       = Some (Returned (Some pd)) /\
     price pd = div (price btcPrice) zero /\
     isFinite (price pd) = false).
Proof.
  apply (zero_denominator_is_divided_by (priceService zeroEthNetwork) "BTC/ETH"
           "BTC/USD" "ETH/USD" "0x694AA1769357215DE4FAC081bf1f309aDC325306"
           zeroRound 8 btcPrice 0).
  - reflexivity.
  - reflexivity.
  - discriminate.
  - reflexivity.
  - reflexivity.
  - lia.
  - reflexivity.
  - reflexivity.
Defined.

(** The price of BTC/ETH on that network is plus infinity. *)
Example zero_denominator_example :
  price <$> fetched (priceService zeroEthNetwork) "BTC/ETH" = Some (S754_infinity false).
Proof. vm_compute. reflexivity. Qed.

(** *** What a fetch does not check *)

Lemma hasSign_true_nonpos x :
  hasSign true x -> leb x zero = true /\ ltb zero x = false.
Proof. destruct x as [s|s| |s m e]; simpl; try done; intros ->; done. Qed.

(** X21.  [getPrice] does not check the sign of the answer.  For a direct
    symbol whose feed answers below zero, the fetch returns a [PriceData],
    not [null], and its price is a negative number (it is not [NaN], and
    it is not above zero). *)
Theorem negative_answer_is_passed_on this sym address rd dec extra :
  isDirect sym ->
  lookupFeed (priceFeeds this) sym = Some address -> address <> EmptyString ->
  latestRoundData (provider this address) = Returned rd ->
  getDecimals (provider this address) = Returned dec -> 0 <= dec <= 80 ->
  answer rd < 0 ->
  exists pd,
    getPrice (enough + extra) this sym = Some (Returned (Some pd)) /\
    price pd = scaleDown (answer rd) dec /\
    hasSign true (price pd) /\
    leb (price pd) zero = true /\ ltb zero (price pd) = false.
Proof.
  intros Hdir Hl Ha Hr Hd Hdec Hneg.
  unfold enough. change (3 + extra)%nat with (S (S (S extra))).
  rewrite getPrice_direct by done.
  rewrite (readFeed_success _ _ _ _ _ Hl Ha Hr Hd Hdec).
  eexists. split; [reflexivity|]. cbn [price]. split; [reflexivity|].
  assert (Hs : hasSign true (scaleDown (answer rd) dec)).
  { unfold scaleDown. destruct (answer rd) as [|m|m]; [lia|lia|].
    apply (div_finite_sign true m 0 false). }
  split; [exact Hs|]. by apply hasSign_true_nonpos.
Qed.

Lemma negative_answer_is_passed_on_witness :
  exists pd,
    getPrice (enough + 0) (priceService (withBtcRound negativeRound)) "BTC/USD"
      = Some (Returned (Some pd)) /\
    price pd = scaleDown (answer negativeRound) 8 /\
    hasSign true (price pd) /\
    leb (price pd) zero = true /\ ltb zero (price pd) = false.
Proof.
  apply (negative_answer_is_passed_on (priceService (withBtcRound negativeRound))
           "BTC/USD" "0x1b44F3514812d835EB1BDB0acB33d3fA3351Ee43" negativeRound 8 0).
  - reflexivity.
  - reflexivity.
  - discriminate.
  - reflexivity.
  - reflexivity.
  - lia.
  - reflexivity.
Defined.

Lemma readFeed_alike this this' sym :
  readAlike this this' ->
  try_catch (readFeed this sym) returnNull = try_catch (readFeed this' sym) returnNull.
Proof.
  intros [Htable Hread]. unfold readFeed, getPriceFeedContract. rewrite Htable.
  destruct (lookupFeed (priceFeeds this') sym) as [address|]; [|done].
  destruct (decide (address = EmptyString)); [done|]. cbn [bind].
  destruct (Hread address) as [Hdec Hround].
  destruct (latestRoundData (provider this address)) as [rd|e],
           (latestRoundData (provider this' address)) as [rd'|e']; try done;
  destruct (getDecimals (provider this address)) as [dec|d],
           (getDecimals (provider this' address)) as [dec'|d']; try done.
  destruct Hround as [Hanswer Hupdated]. subst dec'. simpl.
  rewrite Hanswer, Hupdated. done.
Qed.

(** X22.  [getPrice] reads of a round its answer and its time of update,
    and nothing else: [roundId], [startedAt] and [answeredInRound] play no
    part, and neither does what a failed call was rejected with.  Two
    services with the same feed table, whose contracts report the same
    decimals and rounds with the same answer and time of update (or both
    fail), return the same for every symbol.  So a round that was answered
    in an earlier round is not told from a current one. *)
Theorem fetch_reads_answer_and_time_only this this' sym extra :
  readAlike this this' ->
  getPrice (enough + extra) this sym = getPrice (enough + extra) this' sym.
Proof.
  intros Halike. unfold enough. change (3 + extra)%nat with (S (S (S extra))).
  destruct (constituents sym) as [[num den]|] eqn:Hc.
  - rewrite !(getPrice_derived _ _ _ _ _ Hc).
    by rewrite (readFeed_alike this this' num), (readFeed_alike this this' den).
  - rewrite !getPrice_direct by done. by rewrite (readFeed_alike this this' sym).
Qed.

Lemma fetch_reads_answer_and_time_only_witness :
  getPrice (enough + 0) (priceService (withBtcRound staleRound)) "BTC/ETH"
    = getPrice (enough + 0) (priceService sepoliaNetwork) "BTC/ETH".
Proof.
  apply (fetch_reads_answer_and_time_only (priceService (withBtcRound staleRound))
           (priceService sepoliaNetwork) "BTC/ETH" 0).
  split; [reflexivity|]. intros address.
  unfold priceService, new, withBtcRound, sepoliaNetwork. cbn [provider].
  repeat case_decide; simpl; done.
Defined.

(** *** Fraction digits *)

(** X5.  In the lines of a message, a price of BTC/USD or ETH/USD is
    rendered with two fraction digits, and a price of BTC/ETH or BNB/ETH
    with two to six: for every entry of a result of [getAllPrices], the
    upper bound [formatPrice] asks the host for is 6 when the symbol is a
    derived one and 2 when it is a direct one, and the lower bound is 2. *)
Theorem fraction_digits_follow_the_symbol this
  (toLocaleString : number -> Z -> Z -> string)
  (toLocaleTimeString : number -> string) :
  Forall (fun pd =>
            formatPrice toLocaleString toLocaleTimeString pd =
              symbol pd +:+ ": $" +:+
              toLocaleString (price pd) 2
                (match constituents (symbol pd) with Some _ => 6 | None => 2 end)
              +:+ " (" +:+ toLocaleTimeString (timestamp pd) +:+ ")")
    (omap (fetched this) canonicalSymbols).
Proof.
  apply Forall_forall. intros pd Hin.
  apply list_elem_of_omap in Hin as (sym & Hsym & Hf).
  rewrite (fetched_symbol _ _ _ Hf). unfold formatPrice.
  rewrite (fetched_symbol _ _ _ Hf).
  unfold canonicalSymbols in Hsym.
  repeat (apply elem_of_cons in Hsym as [-> | Hsym]; [reflexivity|]).
  by apply elem_of_nil in Hsym.
Qed.

(** *** The cache of contract objects *)

Lemma getPriceFeedContract_cached contracts address :
  (forall a object, contracts !! a = Some object -> ContractCache.target object = a) ->
  let result := ContractCache.getPriceFeedContract contracts address in
  fst result = Some (ContractCache.mkContractObject address) /\
  (forall a object, snd result !! a = Some object -> ContractCache.target object = a) /\
  dom (snd result) = {[address]} ∪ dom contracts /\
  (is_Some (contracts !! address) -> snd result = contracts).
Proof.
  intros Hco. unfold ContractCache.getPriceFeedContract. cbv zeta.
  destruct (contracts !! address) as [object|] eqn:Hl.
  - rewrite bool_decide_eq_true_2 by by eexists. simpl. rewrite Hl.
    pose proof (Hco _ _ Hl) as Ht. destruct object as [t]. simpl in Ht. subst t.
    split; [done|]. split; [exact Hco|]. split; [|done].
    apply (elem_of_dom_2 (D:=gset string)) in Hl.
    apply set_eq. intros a. rewrite elem_of_union, elem_of_singleton.
    split; [auto|]. by intros [->|H].
  - rewrite bool_decide_eq_false_2 by (by intros [? ?]). simpl.
    rewrite lookup_insert_eq. split; [done|]. split.
    { intros a object. destruct (decide (address = a)) as [<-|Hne].
      - rewrite lookup_insert_eq. by intros [= <-].
      - rewrite lookup_insert_ne by done. apply Hco. }
    split; [by rewrite dom_insert_L|]. by intros [? ?].
Qed.

Lemma requests_spec addresses contracts :
  (forall a object, contracts !! a = Some object -> ContractCache.target object = a) ->
  fst (requests addresses contracts)
    = map (fun a => Some (ContractCache.mkContractObject a)) addresses /\
  (forall a object, snd (requests addresses contracts) !! a = Some object ->
     ContractCache.target object = a) /\
  dom (snd (requests addresses contracts)) = list_to_set addresses ∪ dom contracts.
Proof.
  revert contracts. induction addresses as [|address rest IH]; intros contracts Hco.
  { simpl. split; [done|]. split; [exact Hco|].
    by rewrite (left_id_L ∅ (∪)). }
  cbn [requests].
  destruct (getPriceFeedContract_cached contracts address Hco) as (Hr & Hco' & Hd & _).
  destruct (ContractCache.getPriceFeedContract contracts address) as [object contracts'].
  simpl in Hr, Hco', Hd. destruct (IH contracts' Hco') as (Hr' & Hco'' & Hd').
  destruct (requests rest contracts') as [objects contracts''].
  simpl in Hr', Hco'', Hd' |- *. rewrite Hr, Hr'. split; [done|].
  split; [exact Hco''|].
  by rewrite Hd', Hd, (assoc_L (∪)), (comm_L (∪) (list_to_set rest) {[address]}).
Qed.

(** X19.  The cache of contract objects changes nothing in what is read.
    In a service whose cache started empty, whatever addresses
    [getPriceFeedContract] is called with and in whatever order: every call
    returns a contract object, never [undefined], and the object is the one
    for the address of the call, so a read through it is a read of the
    contract at that address; the cache holds an object for each address
    that was asked for and for no other; and a call with an address that
    is in the cache leaves the cache as it is. *)
Theorem contract_cache_is_transparent this addresses :
  let objects := fst (requests addresses ∅) in
  let contracts := snd (requests addresses ∅) in
  objects = map (fun a => Some (ContractCache.mkContractObject a)) addresses /\
  Forall2 (fun a object =>
             exists o, object = Some o /\
               provider this (ContractCache.target o) = getPriceFeedContract this a)
    addresses objects /\
  dom contracts = list_to_set addresses /\
  (forall a, a ∈ addresses ->
     ContractCache.getPriceFeedContract contracts a
       = (Some (ContractCache.mkContractObject a), contracts)).
Proof.
  assert (Hempty : forall a object,
            (∅ : gmap string ContractCache.ContractObject) !! a = Some object ->
            ContractCache.target object = a).
  { intros a object H. by rewrite lookup_empty in H. }
  destruct (requests_spec addresses ∅ Hempty) as (Hr & Hco & Hd).
  cbv zeta. split; [exact Hr|]. split.
  { rewrite Hr. clear. induction addresses as [|a rest IH]; constructor; [|exact IH].
    by eexists. }
  split; [by rewrite Hd, dom_empty_L, (right_id_L ∅ (∪))|].
  intros a Ha.
  assert (Hin : is_Some (snd (requests addresses ∅) !! a)).
  { apply (elem_of_dom (D:=gset string)). rewrite Hd, elem_of_union.
    left. by apply elem_of_list_to_set. }
  destruct (getPriceFeedContract_cached _ a Hco) as (Hfst & _ & _ & Hsame).
  specialize (Hsame Hin).
  destruct (ContractCache.getPriceFeedContract (snd (requests addresses ∅)) a)
    as [object contracts'].
  simpl in Hfst, Hsame. by rewrite Hfst, Hsame.
Qed.

(** The four fetches of [getAllPrices] on Sepolia ask for a contract
    object six times, and three are built. *)
Example contract_cache_example :
  let asked := ["0x1b44F3514812d835EB1BDB0acB33d3fA3351Ee43";
                "0x694AA1769357215DE4FAC081bf1f309aDC325306";
                "0x1b44F3514812d835EB1BDB0acB33d3fA3351Ee43";
                "0x694AA1769357215DE4FAC081bf1f309aDC325306";
                "0x2c9972C4C4C4C4C4C4C4C4C4C4C4C4C4C4C4C4C4";
                "0x694AA1769357215DE4FAC081bf1f309aDC325306"]%string in
  length (fst (requests asked ∅)) = 6%nat /\
  size (snd (requests asked ∅)) = 3%nat.
Proof. vm_compute. split; reflexivity. Qed.

End ServiceFacts.

(** ** More on the price bot *)

Module HistoryFacts.

Import Stdlib.Strings.Ascii Chainlink Bot BotSpec BotFacts.

(** *** How the world evolves *)

Lemma rememberPrices_app a b m :
  rememberPrices (a ++ b) m = rememberPrices b (rememberPrices a m).
Proof. apply foldl_app. Qed.

Lemma evolves_refl history w : evolves history w w.
Proof.
  split; try done.
  - by exists [].
  - exists []. by rewrite app_nil_r.
  - auto.
Qed.

Lemma evolves_trans history w1 w2 w3 :
  evolves history w1 w2 -> evolves history w2 w3 -> evolves history w1 w3.
Proof.
  intros [Hf1 Hs1 [r1 Hh1] (s1 & Hc1 & Hb1) Hn1 Ht1]
         [Hf2 Hs2 [r2 Hh2] (s2 & Hc2 & Hb2) Hn2 Ht2].
  split.
  - lia.
  - intros l Hl. destruct (Hs1 l Hl) as (Ha & Hb & Hc).
    assert (Hl2 : (l < fresh w2)%nat) by lia.
    destruct (Hs2 l Hl2) as (Ha' & Hb' & Hc').
    split; [congruence|]. split; [congruence|].
    intros Hne. by rewrite Hc', Hc.
  - exists (r1 ++ r2). by rewrite rememberPrices_app, <- Hh1.
  - exists (s1 ++ s2). split.
    + by rewrite Hc2, Hc1, app_assoc.
    + by apply Forall_app.
  - lia.
  - intros handle Hh. destruct (Ht2 handle Hh) as [H|H].
    + destruct (Ht1 handle H) as [H'|H']; [by left|right; lia].
    + right. lia.
Qed.

Lemma evolves_allocConfig history c w : evolves history w (snd (allocConfig c w)).
Proof.
  split; simpl; try done.
  - lia.
  - intros l Hl. split; [|done]. unfold insert, fn_insert.
    case_decide; [lia|done].
  - by exists [].
  - exists []. by rewrite app_nil_r.
  - auto.
Qed.

Lemma evolves_copyMap history w :
  evolves history w (snd (allocMap (maps w history) w)).
Proof.
  split; simpl; try done.
  - lia.
  - intros l Hl. split; [done|]. split; [done|]. intros _.
    unfold insert, fn_insert. case_decide; [lia|done].
  - exists []. unfold insert, fn_insert. by case_decide; subst.
  - exists []. by rewrite app_nil_r.
  - auto.
Qed.

Lemma evolves_remember history recorded w :
  evolves history w (writeMap history (rememberPrices recorded (maps w history)) w).
Proof.
  split; simpl; try done.
  - intros l Hl. split; [done|]. split; [done|]. intros Hne.
    by apply fn_lookup_insert_ne.
  - exists recorded. apply fn_lookup_insert.
  - exists []. by rewrite app_nil_r.
  - auto.
Qed.

Lemma evolves_invokeCallback history this m w :
  botMessage m -> evolves history w (fst (invokeCallback this m w)).
Proof.
  intros Hm. split; simpl; try done.
  - by exists [].
  - exists [m]. split; [done|]. by apply Forall_singleton.
  - auto.
Qed.

Lemma evolves_setInterval history period w :
  evolves history w (snd (setInterval period w)).
Proof.
  split; simpl; try done.
  - by exists [].
  - exists []. by rewrite app_nil_r.
  - lia.
  - intros handle [->|[Hne H]]%lookup_insert_is_Some; [right; lia|by left].
Qed.

Lemma evolves_clearInterval history handle w :
  evolves history w (clearInterval handle w).
Proof.
  split; simpl; try done.
  - by exists [].
  - exists []. by rewrite app_nil_r.
  - intros h [_ H]%lookup_delete_is_Some. by left.
Qed.

Lemma botMessage_priceMessage env content prices :
  prices <> [] -> botMessage (priceMessage env content prices).
Proof.
  intros H. split; [done|]. split; [done|]. left. exists prices.
  split; [done|]. split; [done|]. by exists (Date_now env PriceId).
Qed.

Lemma botMessage_errorMessage env : botMessage (errorMessage env).
Proof.
  split; [done|]. split; [done|]. right. split; [done|].
  by exists (Date_now env ErrorId).
Qed.

Lemma evolves_sendPriceUpdate_try env this w :
  evolves (previousPrices this) w (fst (sendPriceUpdate_try env this w)).
Proof.
  unfold sendPriceUpdate_try.
  destruct (getAllPrices env) as [allPrices|e]; [|apply evolves_refl].
  fold (selected this w allPrices).
  destruct (Z.of_nat (length (selected this w allPrices)) =? 0) eqn:Hz;
    [apply evolves_refl|].
  assert (Hs : selected this w allPrices <> []).
  { intros Hn. apply length_zero_nil in Hn. congruence. }
  destruct (formatPriceMessage env _) as [content|e]; [|apply evolves_refl].
  eapply evolves_trans; [apply evolves_remember|].
  by apply evolves_invokeCallback, botMessage_priceMessage.
Qed.

Lemma evolves_sendPriceUpdate env this w :
  evolves (previousPrices this) w (fst (sendPriceUpdate env this w)).
Proof.
  unfold sendPriceUpdate.
  pose proof (evolves_sendPriceUpdate_try env this w) as H.
  destruct (sendPriceUpdate_try env this w) as [w1 [[]|e]]; [exact H|].
  eapply evolves_trans; [exact H|].
  apply evolves_invokeCallback, botMessage_errorMessage.
Qed.

Lemma evolves_stop this w :
  evolves (previousPrices this) w (snd (stop this w)) /\
  previousPrices (fst (stop this w)) = previousPrices this.
Proof.
  unfold stop. destruct (intervalId this) as [handle|]; simpl.
  - split; [apply evolves_clearInterval|done].
  - split; [apply evolves_refl|done].
Qed.

Lemma evolves_start_stopped env this w :
  intervalId this = None ->
  evolves (previousPrices this) w (snd (start env this w)) /\
  previousPrices (fst (start env this w)) = previousPrices this.
Proof.
  intros Hi. destruct (enabled (theConfig this w)) eqn:He.
  - rewrite (start_stopped_enabled _ _ _ Hi He). simpl. split; [|done].
    eapply evolves_trans; [apply evolves_sendPriceUpdate|].
    apply (evolves_setInterval _ _ (fst (sendPriceUpdate env this w))).
  - rewrite (start_stopped_disabled _ _ _ Hi He). split; [apply evolves_refl|done].
Qed.

Lemma evolves_start env this w :
  evolves (previousPrices this) w (snd (start env this w)) /\
  previousPrices (fst (start env this w)) = previousPrices this.
Proof.
  destruct (intervalId this) as [handle|] eqn:Hi.
  - rewrite (start_running _ _ _ _ Hi).
    destruct (evolves_start_stopped env (setIntervalId None this)
                (clearInterval handle w) eq_refl) as [He Hp].
    split; [|exact Hp].
    eapply evolves_trans; [apply evolves_clearInterval|exact He].
  - by apply evolves_start_stopped.
Qed.

Lemma evolves_updateConfig env newConfig this w :
  evolves (previousPrices this) w (snd (updateConfig env newConfig this w)) /\
  previousPrices (fst (updateConfig env newConfig this w)) = previousPrices this.
Proof.
  destruct (updateConfig_unfold env newConfig this w) as [_ ->].
  set (merged := spread (theConfig this w) newConfig).
  set (this0 := setConfig (fresh w) this).
  set (w0 := snd (allocConfig merged w)).
  assert (H0 : evolves (previousPrices this) w w0) by apply evolves_allocConfig.
  destruct (enabled merged && negb (isRunning this)).
  { destruct (evolves_start env this0 w0) as [He Hp]. split; [|exact Hp].
    eapply evolves_trans; [exact H0|exact He]. }
  destruct (negb (enabled merged) && isRunning this).
  { destruct (evolves_stop this0 w0) as [He Hp]. split; [|exact Hp].
    eapply evolves_trans; [exact H0|exact He]. }
  done.
Qed.

Lemma step_evolves op this w :
  evolves (previousPrices this) w (snd (step op (this, w))) /\
  previousPrices (fst (step op (this, w))) = previousPrices this.
Proof.
  destruct op as [env| |newConfig env|env|handle env| |]; cbn [step].
  - apply evolves_start.
  - apply evolves_stop.
  - apply evolves_updateConfig.
  - split; [apply evolves_sendPriceUpdate|done].
  - split; [|done]. unfold tick. simpl.
    destruct (timers w !! handle); [apply evolves_sendPriceUpdate|apply evolves_refl].
  - split; [apply evolves_allocConfig|done].
  - split; [apply evolves_copyMap|done].
Qed.

Lemma run_evolves ops this w :
  evolves (previousPrices this) w (snd (run ops (this, w))) /\
  previousPrices (fst (run ops (this, w))) = previousPrices this.
Proof.
  revert this w. induction ops as [|op ops IH]; intros this w.
  { split; [apply evolves_refl|done]. }
  rewrite run_cons. destruct (step_evolves op this w) as [He Hp].
  destruct (step op (this, w)) as [this1 w1]. simpl in He, Hp.
  destruct (IH this1 w1) as [He' Hp']. rewrite Hp in *.
  split; [|exact Hp']. eapply evolves_trans; [exact He|exact He'].
Qed.

Lemma reachable_run ops s : reachable s -> reachable (run ops s).
Proof.
  revert s. induction ops as [|op ops IH]; intros s Hs; [done|].
  rewrite run_cons. by apply IH, reachable_step.
Qed.

(** *** The map of previous prices *)

Lemma rememberPrices_cons p recorded m :
  rememberPrices (p :: recorded) m = rememberPrices recorded (<[symbol p := p]> m).
Proof. reflexivity. Qed.

Lemma rememberPrices_keyed recorded m :
  keyedBySymbol m -> keyedBySymbol (rememberPrices recorded m).
Proof.
  revert m. induction recorded as [|q recorded IH]; intros m Hm; [done|].
  rewrite rememberPrices_cons. apply IH. intros k p.
  destruct (decide (symbol q = k)) as [<-|Hne].
  - rewrite lookup_insert_eq. by intros [= <-].
  - rewrite lookup_insert_ne by done. apply Hm.
Qed.

Lemma rememberPrices_lookup recorded m k :
  rememberPrices recorded m !! k =
    match last (filter (fun p => symbol p = k) recorded) with
    | Some p => Some p
    | None => m !! k
    end.
Proof.
  revert m. induction recorded as [|q recorded IH]; intros m; [done|].
  rewrite rememberPrices_cons, IH, filter_cons.
  destruct (decide (symbol q = k)) as [<-|Hne].
  - rewrite last_cons, lookup_insert_eq.
    by destruct (last (filter (fun p => symbol p = symbol q) recorded)).
  - by rewrite lookup_insert_ne.
Qed.

Lemma rememberPrices_is_Some recorded m k :
  is_Some (m !! k) -> is_Some (rememberPrices recorded m !! k).
Proof.
  intros H. rewrite rememberPrices_lookup.
  by destruct (last (filter (fun p => symbol p = k) recorded)).
Qed.

Lemma reachable_keyed s :
  reachable s -> keyedBySymbol (maps (snd s) (previousPrices (fst s))).
Proof.
  induction 1 as [config messageCallback w Hc Ht|op [this w] _ IH].
  - unfold new. simpl. rewrite fn_lookup_insert. intros k p H.
    by rewrite lookup_empty in H.
  - destruct (step_evolves op this w) as [[_ _ [recorded Hh] _ _ _] Hp].
    rewrite Hp, Hh. by apply rememberPrices_keyed.
Qed.

(** X6.  In every state the host can drive a bot to, each entry of the
    map of previous prices is filed under its own symbol: the price kept
    for a key is a price of that symbol. *)
Theorem previous_prices_are_keyed_by_symbol this w :
  reachable (this, w) ->
  forall k p, maps w (previousPrices this) !! k = Some p -> symbol p = k.
Proof. intros H. exact (reachable_keyed _ H). Qed.

Lemma previous_prices_are_keyed_by_symbol_witness :
  maps (fst (triggerManualUpdate btcEnv quietBot firstWorld))
    (previousPrices quietBot) !! "BTC/USD"%string = Some ChainlinkSpec.btcPrice /\
  forall k p,
    maps (fst (triggerManualUpdate btcEnv quietBot firstWorld))
      (previousPrices quietBot) !! k = Some p ->
    symbol p = k.
Proof.
  split; [vm_compute; reflexivity|].
  apply (previous_prices_are_keyed_by_symbol quietBot
           (fst (triggerManualUpdate btcEnv quietBot firstWorld))).
  exact (reachable_step (OpTriggerManualUpdate btcEnv) _
           (reachable_new defaultPriceBotConfig quietCallback moduleWorld
              (Nat.lt_0_1) eq_refl)).
Defined.

(** X7.  Whatever the host does with a bot (stopping it, starting it
    again, changing its configuration, reading it), the bot keeps the same
    map of previous prices, and a symbol that has a previous price keeps
    one. *)
Theorem previous_prices_are_never_forgotten ops this w :
  let this' := fst (run ops (this, w)) in
  let w' := snd (run ops (this, w)) in
  previousPrices this' = previousPrices this /\
  forall k,
    is_Some (maps w (previousPrices this) !! k) ->
    is_Some (maps w' (previousPrices this') !! k).
Proof.
  destruct (run_evolves ops this w) as [[_ _ [recorded Hh] _ _ _] Hp].
  split; [exact Hp|]. intros k Hk. rewrite Hp, Hh.
  by apply rememberPrices_is_Some.
Qed.

(** A bot that has sent the price of BTC/USD, and is then stopped,
    reconfigured for ETH/USD alone and started again on a service that
    fails, still holds that price of BTC/USD. *)
Example previous_prices_example :
  let '(a, w) := allocArray ["ETH/USD"%string] firstWorld in
  let chosen := {| intervalMinutes_opt := None; enabled_opt := None;
                   symbols_opt := Some a |} in
  let '(bot, w') :=
    run [OpStart btcEnv; OpStop; OpUpdateConfig chosen failingEnv; OpStart failingEnv]
      (quietBot, w) in
  maps w' (previousPrices bot) !! "BTC/USD"%string = Some ChainlinkSpec.btcPrice.
Proof. vm_compute. reflexivity. Qed.

(** X8.  A cycle records the prices it is about to send before it invokes
    the callback: once the formatting has succeeded, the map of previous
    prices holds, for every symbol among the filtered prices, the last of
    the filtered prices with that symbol, and for every other symbol what
    it held before, whether the callback then throws or not.  A cycle
    whose fetch or whose formatting throws leaves the map as it was.  No
    other map is written to. *)
Theorem cycle_records_prices_before_the_callback env this w :
  let w' := fst (sendPriceUpdate env this w) in
  (forall allPrices content k,
     getAllPrices env = Returned allPrices ->
     selected this w allPrices <> [] ->
     formatPriceMessage env (selected this w allPrices) = Returned content ->
     maps w' (previousPrices this) !! k =
       match last (filter (fun p => symbol p = k) (selected this w allPrices)) with
       | Some p => Some p
       | None => maps w (previousPrices this) !! k
       end) /\
  (forall e, getAllPrices env = Thrown e -> maps w' = maps w) /\
  (forall allPrices e,
     getAllPrices env = Returned allPrices ->
     formatPriceMessage env (selected this w allPrices) = Thrown e ->
     maps w' = maps w) /\
  (forall l, l <> previousPrices this -> maps w' l = maps w l).
Proof.
  cbv zeta. split.
  { intros allPrices content k Hf Hs Hc. unfold sendPriceUpdate.
    rewrite (cycle_try_emits _ _ _ _ _ Hf Hs Hc). unfold invokeCallback.
    destruct (messageCallback this _) as [[]|e]; simpl;
      rewrite fn_lookup_insert; apply rememberPrices_lookup. }
  split.
  { intros e Hf. unfold sendPriceUpdate, sendPriceUpdate_try. by rewrite Hf. }
  split.
  { intros allPrices e Hf Hc. unfold sendPriceUpdate, sendPriceUpdate_try.
    rewrite Hf. fold (selected this w allPrices).
    destruct (Z.of_nat (length (selected this w allPrices)) =? 0); [done|].
    by rewrite Hc. }
  intros l Hne. unfold sendPriceUpdate, sendPriceUpdate_try.
  destruct (getAllPrices env) as [allPrices|e]; [|done].
  destruct (Z.of_nat _ =? 0); [done|].
  destruct (formatPriceMessage env _) as [content|e]; [|done].
  unfold invokeCallback.
  destruct (messageCallback this _) as [[]|e]; simpl; by apply fn_lookup_insert_ne.
Qed.

(** With a callback that throws, the cycle sends the price message and
    the error message, and has recorded the price. *)
Example cycle_records_prices_example :
  let w' := fst (sendPriceUpdate btcEnv brokenBot firstWorld) in
  maps w' (previousPrices brokenBot) !! "BTC/USD"%string = Some ChainlinkSpec.btcPrice /\
  (priceData <$> calls w') = [Some [ChainlinkSpec.btcPrice]; None].
Proof. vm_compute. split; reflexivity. Qed.

(** *** The messages *)


(** The id and the time stamp of a message are two readings of the
    clock: when it moves between them, the id does not show the time
    stamp. *)
Example clock_moves_within_a_cycle :
  let w := fst (triggerManualUpdate driftingEnv quietBot firstWorld) in
  ((fun m => (id m, timestamp m)) <$> calls w)
    = [("price-bot-1700000000000"%string, 1700000000007)].
Proof. vm_compute. reflexivity. Qed.

Lemma pretty_N_go_no_letter x s s' :
  s <> String "e"%char s' -> pretty_N_go x s <> String "e"%char s'.
Proof.
  revert s. induction (N.lt_wf_0 x) as [x _ IH]; intros s Hs.
  assert (x = 0 \/ 0 < x)%N as [->|Hx] by lia.
  - by rewrite pretty_N_go_0.
  - rewrite pretty_N_go_step by done. apply IH.
    { by apply N.div_lt. }
    unfold pretty_N_char. by repeat case_match.
Qed.

Lemma pretty_Z_no_letter (z : Z) s : pretty z <> String "e"%char s.
Proof.
  destruct z as [|p|p]; [done| |done].
  unfold pretty, pretty_Z, pretty, pretty_positive, pretty, pretty_N.
  rewrite decide_False by done. by apply pretty_N_go_no_letter.
Qed.

(** X20.  The id of a message is made of its kind and of the clock: two
    price messages have the same id exactly when their ids were made at
    the same millisecond, and so have two error messages; a price message
    and an error message never have the same id. *)
Theorem message_ids_follow_the_clock env env' content content' prices prices' :
  (id (priceMessage env content prices) = id (priceMessage env' content' prices')
     <-> Date_now env PriceId = Date_now env' PriceId) /\
  (id (errorMessage env) = id (errorMessage env')
     <-> Date_now env ErrorId = Date_now env' ErrorId) /\
  id (priceMessage env content prices) <> id (errorMessage env').
Proof.
  unfold priceMessage, errorMessage. cbn [id].
  split; [|split].
  - split; [|by intros ->].
    intros H. by apply (inj (String.append _)), (inj pretty) in H.
  - split; [|by intros ->].
    intros H. by apply (inj (String.append _)), (inj pretty) in H.
  - intros H.
    change ("price-bot-error-" +:+ pretty (Date_now env' ErrorId))
      with ("price-bot-" +:+ String "e"%char ("rror-" +:+ pretty (Date_now env' ErrorId))) in H.
    apply (inj (String.append _)) in H. by apply pretty_Z_no_letter in H.
Qed.

(** *** The objects of the store *)

(** X10.  A bot writes to no object that exists but its own map of
    previous prices: whatever the host does with it, every configuration
    object, every array of symbols and every other map that was allocated
    holds what it held ([updateConfig] makes a new configuration object,
    it does not change the old one).  So a second bot, be it one that
    shares its configuration object with the first, as two bots of
    [createPriceBot] do, has the configuration, the symbols and the
    previous prices it had. *)
Theorem bot_writes_to_no_shared_object ops this w :
  let w' := snd (run ops (this, w)) in
  (forall l, (l < fresh w)%nat ->
     configs w' l = configs w l /\ arrays w' l = arrays w l /\
     (l <> previousPrices this -> maps w' l = maps w l)) /\
  (forall other,
     (config other < fresh w)%nat ->
     (symbols (theConfig other w) < fresh w)%nat ->
     (previousPrices other < fresh w)%nat ->
     previousPrices other <> previousPrices this ->
     theConfig other w' = theConfig other w /\
     theSymbols other w' = theSymbols other w /\
     maps w' (previousPrices other) = maps w (previousPrices other)).
Proof.
  destruct (run_evolves ops this w) as [[_ Hs _ _ _ _] _].
  split; [exact Hs|].
  intros other Hc Hsym Hp Hne.
  destruct (Hs _ Hc) as (Hcfg & _ & _).
  destruct (Hs _ Hsym) as (_ & Harr & _).
  destruct (Hs _ Hp) as (_ & _ & Hmap).
  assert (Hcfg' : theConfig other (snd (run ops (this, w))) = theConfig other w).
  { exact Hcfg. }
  split; [exact Hcfg'|]. split; [|by apply Hmap].
  unfold theSymbols. rewrite Hcfg'. exact Harr.
Qed.

(** Two bots of [createPriceBot]: the first is reconfigured for ETH/USD
    alone and disabled; the second still has the default configuration. *)
Example two_bots_example :
  let '(first, w) := createPriceBot quietCallback moduleWorld in
  let '(second, w) := createPriceBot quietCallback w in
  let '(a, w) := allocArray ["ETH/USD"%string] w in
  let chosen := {| intervalMinutes_opt := Some 1; enabled_opt := Some false;
                   symbols_opt := Some a |} in
  let '(first', w') := updateConfig btcEnv chosen first w in
  config first = config second /\
  theSymbols first' w' = ["ETH/USD"%string] /\
  theSymbols second w' = ["BTC/USD"; "ETH/USD"; "BTC/ETH"; "BNB/ETH"]%string /\
  theConfig second w' = {| intervalMinutes := 5; enabled := true; symbols := 0%nat |}.
Proof. vm_compute. repeat split; reflexivity. Qed.

(** *** The handles of the intervals *)

Lemma tick_not_armed (handle : TimerId) env this w :
  timers w !! handle = None -> tick handle env this w = w.
Proof. intros H. unfold tick. by rewrite H. Qed.

(** X11.  A handle that has been issued and is not armed (its interval
    has been cleared) is never armed again, whatever the host does with
    the bot: the handles [setInterval] issues are new ones.  So a firing
    that was pending when the interval was cleared does nothing, then and
    ever after. *)
Theorem cleared_handle_stays_cleared ops this w handle :
  (handle < nextTimer w)%positive ->
  timers w !! handle = None ->
  let this' := fst (run ops (this, w)) in
  let w' := snd (run ops (this, w)) in
  timers w' !! handle = None /\
  forall env, tick handle env this' w' = w'.
Proof.
  intros Hlt Hnone this' w'.
  destruct (run_evolves ops this w) as [[_ _ _ _ _ Ht] _]. fold w' in Ht.
  assert (Hcleared : timers w' !! handle = None).
  { apply eq_None_not_Some. intros [H|H]%Ht.
    - rewrite Hnone in H. by destruct H.
    - lia. }
  split; [exact Hcleared|]. intros env. by apply tick_not_armed.
Qed.

Lemma cleared_handle_stays_cleared_witness :
  let s := run [OpStart btcEnv; OpUpdateConfig
                  {| intervalMinutes_opt := Some 1; enabled_opt := None;
                     symbols_opt := None |} btcEnv]
             startedAndStopped in
  timers (snd s) !! 1%positive = None /\
  forall env, tick 1%positive env (fst s) (snd s) = snd s.
Proof.
  apply (cleared_handle_stays_cleared
           [OpStart btcEnv; OpUpdateConfig
              {| intervalMinutes_opt := Some 1; enabled_opt := None;
                 symbols_opt := None |} btcEnv]
           (fst startedAndStopped) (snd startedAndStopped) 1%positive).
  - vm_compute. reflexivity.
  - vm_compute. reflexivity.
Defined.

Lemma reachable_handles s :
  reachable s ->
  forall handle, is_Some (timers (snd s) !! handle) ->
    (handle < nextTimer (snd s))%positive.
Proof.
  induction 1 as [config messageCallback w Hc Ht|op [this w] _ IH].
  - unfold new. simpl. rewrite Ht. intros handle [? H].
    by rewrite lookup_empty in H.
  - destruct (step_evolves op this w) as [[_ _ _ _ Hn Hts] _].
    intros handle [H|H]%Hts; [|lia]. apply IH in H. simpl in H. lia.
Qed.

Lemma sendPriceUpdate_stopped env this handle w :
  sendPriceUpdate env (setIntervalId None this) (clearInterval handle w) =
    (clearInterval handle (fst (sendPriceUpdate env this w)),
     snd (sendPriceUpdate env this w)).
Proof.
  unfold sendPriceUpdate, sendPriceUpdate_try.
  change (theSymbols (setIntervalId None this) (clearInterval handle w))
    with (theSymbols this w).
  destruct (getAllPrices env) as [allPrices|e]; [|reflexivity].
  destruct (Z.of_nat _ =? 0); [reflexivity|].
  destruct (formatPriceMessage env _) as [content|e]; [|reflexivity].
  unfold invokeCallback. simpl.
  destruct (messageCallback this _) as [[]|e]; reflexivity.
Qed.

(** X12.  [start], on a bot whose [enabled] is true, leaves one interval
    armed: its period is [intervalMinutes] times 60000 milliseconds, and
    its handle is a new one, not the handle the bot held if it was
    running, whose interval is cleared.  The configuration is as it was.
    The bot and the armed interval do not depend on what the first cycle
    meets. *)
Theorem start_arms_a_new_interval env this w :
  reachable (this, w) ->
  enabled (theConfig this w) = true ->
  let this' := fst (start env this w) in
  let w' := snd (start env this w) in
  intervalId this' = Some (nextTimer w) /\
  intervalId this <> Some (nextTimer w) /\
  timers w' = {[nextTimer w := intervalMinutes (theConfig this w) * 60 * 1000]} /\
  nextTimer w' = Pos.succ (nextTimer w) /\
  theConfig this' w' = theConfig this w /\
  forall env',
    fst (start env' this w) = this' /\
    timers (snd (start env' this w)) = timers w' /\
    nextTimer (snd (start env' this w)) = nextTimer w'.
Proof.
  intros Hreach He. cbv zeta.
  pose proof (reachable_invariant _ Hreach) as (Hs & _ & _).
  pose proof (reachable_handles _ Hreach) as Hh. simpl in Hh.
  assert (Hall : forall env0,
            fst (start env0 this w) = setIntervalId (Some (nextTimer w)) this /\
            timers (snd (start env0 this w))
              = {[nextTimer w := intervalMinutes (theConfig this w) * 60 * 1000]} /\
            nextTimer (snd (start env0 this w)) = Pos.succ (nextTimer w)).
  { intros env0.
    destruct (sendPriceUpdate_frame env0 this w) as (_ & _ & _ & Ht & Hn).
    unfold timerShape in Hs.
    destruct (intervalId this) as [handle|] eqn:Hi.
    - destruct Hs as [period Hs].
      rewrite (start_running _ _ _ _ Hi).
      rewrite (start_stopped_enabled env0 (setIntervalId None this)
                 (clearInterval handle w) eq_refl He).
      rewrite sendPriceUpdate_stopped. simpl. rewrite Hn, Ht, Hs.
      by rewrite delete_singleton_eq, insert_empty.
    - rewrite (start_stopped_enabled _ _ _ Hi He). simpl.
      rewrite Hn, Ht, Hs, insert_empty. split; [|done].
      unfold setIntervalId. destruct this. simpl in *. by subst. }
  destruct (Hall env) as (Hbot & Htimers & Hnext).
  split; [by rewrite Hbot|]. split.
  { intros Hi. unfold timerShape in Hs. rewrite Hi in Hs. destruct Hs as [period Hs].
    assert (Hlt : (nextTimer w < nextTimer w)%positive).
    { apply Hh. rewrite Hs, lookup_singleton_eq. by eexists. }
    lia. }
  split; [exact Htimers|]. split; [exact Hnext|].
  split; [apply start_config|].
  intros env'. destruct (Hall env') as (Hbot' & Htimers' & Hnext').
  by rewrite Hbot, Hbot', Htimers, Htimers', Hnext, Hnext'.
Qed.

Lemma start_arms_a_new_interval_witness :
  let this := fst (start btcEnv quietBot firstWorld) in
  let w := snd (start btcEnv quietBot firstWorld) in
  let this' := fst (start btcEnv this w) in
  let w' := snd (start btcEnv this w) in
  intervalId this' = Some (nextTimer w) /\
  intervalId this <> Some (nextTimer w) /\
  timers w' = {[nextTimer w := intervalMinutes (theConfig this w) * 60 * 1000]} /\
  nextTimer w' = Pos.succ (nextTimer w) /\
  theConfig this' w' = theConfig this w /\
  forall env',
    fst (start env' this w) = this' /\
    timers (snd (start env' this w)) = timers w' /\
    nextTimer (snd (start env' this w)) = nextTimer w'.
Proof.
  apply (start_arms_a_new_interval btcEnv (fst (start btcEnv quietBot firstWorld))
           (snd (start btcEnv quietBot firstWorld))).
  - rewrite <- surjective_pairing.
    exact (reachable_step (OpStart btcEnv) _
             (reachable_new defaultPriceBotConfig quietCallback moduleWorld
                (Nat.lt_0_1) eq_refl)).
  - vm_compute. reflexivity.
Defined.

(** Whatever the first cycle meets, a price, no price or a rejected
    fetch, the interval that [start] arms is the same. *)
Example start_arms_alike_example :
  let armed env := map_to_list (timers (snd (start env quietBot firstWorld))) in
  armed btcEnv = [(1%positive, 300000)] /\
  armed emptyEnv = [(1%positive, 300000)] /\
  armed failingEnv = [(1%positive, 300000)].
Proof. vm_compute. repeat split; reflexivity. Qed.

(** A bot that is started twice holds the handle 2, of an interval of five
    minutes; the callback has been invoked twice. *)
Example start_twice_example :
  let '(bot, w) := run [OpStart btcEnv; OpStart btcEnv] (quietBot, firstWorld) in
  intervalId bot = Some 2%positive /\
  map_to_list (timers w) = [(2%positive, 300000)] /\
  length (calls w) = 2%nat.
Proof. vm_compute. repeat split; reflexivity. Qed.

End HistoryFacts.

(** ** The settings panel and the chat window *)

Module PanelFacts.

Import Chainlink Bot BotSpec BotFacts Settings ChatWindow PanelSpec HistoryFacts.

(** *** Ticking a symbol *)

(** X13.  What a click on the checkbox of a symbol makes of the list of
    symbols: the symbol is in the new list exactly when the box is now
    checked; every other symbol is in it exactly when it was, and the
    other symbols keep their order.  A checkbox shows whether its symbol
    is in the list, so a click sends the opposite: then a list without
    duplicates stays without duplicates.  And a list of available symbols
    stays one. *)
Theorem toggling_a_symbol current symbol checked :
  let toggled := newSymbols current symbol checked in
  (symbol ∈ toggled <-> checked = true) /\
  (forall other, other <> symbol -> other ∈ toggled <-> other ∈ current) /\
  filter (fun s => s <> symbol) toggled = filter (fun s => s <> symbol) current /\
  (checked = negb (bool_decide (symbol ∈ current)) -> NoDup current -> NoDup toggled) /\
  (symbol ∈ availableSymbols -> current ⊆ availableSymbols ->
   toggled ⊆ availableSymbols).
Proof.
  unfold newSymbols. destruct checked; cbv zeta.
  - split.
    { split; [done|]. intros _. apply elem_of_app. right. by left. }
    split.
    { intros other Hne. rewrite elem_of_app, list_elem_of_singleton.
      split; [intros [H|H]; [exact H|contradiction]|auto]. }
    split.
    { rewrite filter_app, filter_cons, decide_False by (intros H; by apply H).
      by rewrite filter_nil, app_nil_r. }
    split.
    { intros Hc Hnd. symmetry in Hc.
      apply negb_true_iff, bool_decide_eq_false in Hc.
      apply NoDup_app. split; [exact Hnd|]. split; [|apply NoDup_singleton].
      intros x Hx Hx'. apply list_elem_of_singleton in Hx'. congruence. }
    intros Hs Hsub x Hx. apply elem_of_app in Hx as [Hx|Hx]; [by apply Hsub|].
    apply list_elem_of_singleton in Hx. congruence.
  - split.
    { split; [|done]. intros H. apply list_elem_of_filter in H as [H _]. congruence. }
    split.
    { intros other Hne. rewrite list_elem_of_filter. split; [by intros [_ H]|auto]. }
    split.
    { induction current as [|x current IH]; [done|].
      rewrite !filter_cons. destruct (decide (x <> symbol)).
      - rewrite filter_cons, decide_True by done. by rewrite IH.
      - exact IH. }
    split.
    { intros _ Hnd. by apply NoDup_filter. }
    intros _ Hsub x Hx. apply list_elem_of_filter in Hx as [_ Hx]. by apply Hsub.
Qed.

(** The four boxes cleared and set again, one after the other, give the
    four symbols back; a box that is set while its symbol is in the list,
    which the panel does not offer, would list the symbol twice. *)
Example toggling_example :
  newSymbols (newSymbols availableSymbols "ETH/USD" false) "ETH/USD" true
    = ["BTC/USD"; "BTC/ETH"; "BNB/ETH"; "ETH/USD"]%string /\
  newSymbols ["BTC/USD"%string] "BTC/USD" true = ["BTC/USD"; "BTC/USD"]%string.
Proof. split; reflexivity. Qed.

(** *** Editing, then Apply *)

Lemma edit_spec e c w :
  (symbols (configs w c) < fresh w)%nat ->
  let c' := fst (edit e (c, w)) in
  let w' := snd (edit e (c, w)) in
  (fresh w <= fresh w')%nat /\
  (forall l, (l < fresh w)%nat ->
     configs w' l = configs w l /\ arrays w' l = arrays w l) /\
  maps w' = maps w /\ timers w' = timers w /\ nextTimer w' = nextTimer w /\
  calls w' = calls w /\
  (symbols (configs w' c') < fresh w')%nat /\
  arrays w' (symbols (configs w' c'))
    = editedSymbols [e] (arrays w (symbols (configs w c))) /\
  intervalMinutes (configs w' c') = intervalMinutes (configs w c) /\
  enabled (configs w' c') = editedEnabled [e] (enabled (configs w c)).
Proof.
  intros Hs. destruct e as [symbol checked|checked]; simpl;
    unfold insert, fn_insert; simpl.
  - rewrite !decide_True by done. simpl. rewrite ?decide_True by done.
    split; [lia|]. split.
    { intros l Hl. rewrite !decide_False by lia. done. }
    repeat split; lia.
  - rewrite !decide_True by done. simpl.
    split; [lia|]. split.
    { intros l Hl. rewrite !decide_False by lia. done. }
    repeat split; lia.
Qed.

Lemma edits_cons e es s : edits (e :: es) s = edits es (edit e s).
Proof. reflexivity. Qed.

Lemma edits_spec es c w :
  (symbols (configs w c) < fresh w)%nat ->
  let c' := fst (edits es (c, w)) in
  let w' := snd (edits es (c, w)) in
  (fresh w <= fresh w')%nat /\
  (forall l, (l < fresh w)%nat ->
     configs w' l = configs w l /\ arrays w' l = arrays w l) /\
  maps w' = maps w /\ timers w' = timers w /\ nextTimer w' = nextTimer w /\
  calls w' = calls w /\
  (symbols (configs w' c') < fresh w')%nat /\
  arrays w' (symbols (configs w' c'))
    = editedSymbols es (arrays w (symbols (configs w c))) /\
  intervalMinutes (configs w' c') = intervalMinutes (configs w c) /\
  enabled (configs w' c') = editedEnabled es (enabled (configs w c)).
Proof.
  revert c w. induction es as [|e es IH]; intros c w Hs; cbv zeta.
  { simpl. repeat split; try done; lia. }
  rewrite edits_cons.
  destruct (edit_spec e c w Hs) as (Hf & Hst & Hm & Ht & Hn & Hc & Hs1 & Ha & Hi & He).
  destruct (edit e (c, w)) as [c1 w1]. simpl in Hf, Hst, Hm, Ht, Hn, Hc, Hs1, Ha, Hi, He.
  destruct (IH c1 w1 Hs1) as (Hf' & Hst' & Hm' & Ht' & Hn' & Hc' & Hs2 & Ha' & Hi' & He').
  split; [lia|]. split.
  { intros l Hl. destruct (Hst l Hl) as [<- <-]. apply Hst'. lia. }
  split; [congruence|]. split; [congruence|]. split; [congruence|].
  split; [congruence|]. split; [exact Hs2|].
  split; [by rewrite Ha', Ha|]. split; [congruence|]. by rewrite He', He.
Qed.

Lemma updateConfig_config env newConfig this w :
  timerShape this w ->
  let s' := updateConfig env newConfig this w in
  theConfig (fst s') (snd s') = spread (theConfig this w) newConfig /\
  isRunning (fst s') = enabled (spread (theConfig this w) newConfig).
Proof.
  intros Hs. cbv zeta.
  destruct (updateConfig_unfold env newConfig this w) as [Hcfg ->].
  set (merged := spread (theConfig this w) newConfig) in *.
  set (this0 := setConfig (fresh w) this) in *.
  set (w0 := snd (allocConfig merged w)) in *.
  assert (Hs0 : timerShape this0 w0) by exact Hs.
  change (isRunning this) with (isRunning this0).
  destruct (enabled merged) eqn:Hen, (isRunning this0) eqn:Hr; simpl.
  - by rewrite Hr.
  - rewrite start_config. split; [done|].
    apply start_enabled; [exact Hs0|]. by rewrite Hcfg.
  - destruct (stop_shape this0 w0 Hs0) as (Hi & _ & Hc & _ & Hcf & _).
    unfold theConfig in *. rewrite Hc, Hcf. split; [done|].
    unfold isRunning. by rewrite Hi.
  - by rewrite Hr.
Qed.

(** X14.  The settings panel edits a copy.  From the configuration the
    panel opens with, [getConfig()] of the bot, whatever boxes and switch
    the user clicks before Apply: the bot has the configuration and the
    symbols it had, its intervals, its previous prices and the invocations
    of its callback are as they were (a click makes a new array of symbols,
    it does not change the one the copy shares with the bot); the edited
    configuration holds the bot's symbols with the clicks applied, in
    their order, the last position of the switch, and the bot's
    [intervalMinutes].  Apply hands that configuration to [updateConfig]
    and closes the panel: then the bot has the edited configuration, reads
    the edited symbols, and is running exactly when the edited [enabled]
    is true. *)
Theorem panel_edits_reach_the_bot_on_apply env this w es :
  reachable (this, w) ->
  (symbols (theConfig this w) < fresh w)%nat ->
  let panel := edits es (initialConfig (Some this) w) in
  let w1 := snd panel in
  let edited := configs w1 (fst panel) in
  (theConfig this w1 = theConfig this w /\
   theSymbols this w1 = theSymbols this w /\
   maps w1 = maps w /\ timers w1 = timers w /\ calls w1 = calls w) /\
  (arrays w1 (symbols edited) = editedSymbols es (theSymbols this w) /\
   enabled edited = editedEnabled es (enabled (theConfig this w)) /\
   intervalMinutes edited = intervalMinutes (theConfig this w)) /\
  let s' := handleApply (handlePriceBotConfigChange env) closeSettings edited
              {| priceBot := Some this; showPriceBotSettings := true;
                 world := w1 |} in
  exists bot',
    priceBot s' = Some bot' /\
    showPriceBotSettings s' = false /\
    theConfig bot' (world s') = edited /\
    theSymbols bot' (world s') = editedSymbols es (theSymbols this w) /\
    isRunning bot' = editedEnabled es (enabled (theConfig this w)).
Proof.
  intros Hreach Hsym panel w1 edited.
  pose proof (reachable_invariant _ Hreach) as (Hshape & _ & Hc & _).
  set (w0 := snd (getConfig this w)).
  assert (Hopen : initialConfig (Some this) w = (fresh w, w0)) by reflexivity.
  assert (Hcopy : configs w0 (fresh w) = theConfig this w).
  { unfold w0, getConfig. simpl. apply fn_lookup_insert. }
  assert (Hs0 : (symbols (configs w0 (fresh w)) < fresh w0)%nat).
  { rewrite Hcopy. unfold w0. simpl. lia. }
  destruct (edits_spec es (fresh w) w0 Hs0)
    as (Hf & Hst & Hm & Ht & Hn & Hcl & Hs1 & Ha & Hi & He).
  rewrite <- Hopen in Hf, Hst, Hm, Ht, Hn, Hcl, Hs1, Ha, Hi, He.
  fold panel in Hf, Hst, Hm, Ht, Hn, Hcl, Hs1, Ha, Hi, He.
  fold w1 in Hf, Hst, Hm, Ht, Hn, Hcl, Hs1, Ha, Hi, He.
  fold edited in Hs1, Ha, Hi, He. rewrite Hcopy in Ha, Hi, He.
  assert (Hold : forall l, (l < fresh w)%nat ->
            configs w1 l = configs w l /\ arrays w1 l = arrays w l).
  { intros l Hl. assert (Hl0 : (l < fresh w0)%nat) by (unfold w0; simpl; lia).
    destruct (Hst l Hl0) as [-> ->]. unfold w0, getConfig. simpl.
    split; [|done]. apply fn_lookup_insert_ne. lia. }
  assert (Hcfg : theConfig this w1 = theConfig this w).
  { unfold theConfig. by apply Hold. }
  assert (Harr : arrays w0 (symbols (theConfig this w)) = theSymbols this w).
  { reflexivity. }
  rewrite Harr in Ha.
  split.
  { split; [exact Hcfg|]. split.
    - unfold theSymbols. rewrite Hcfg. by apply Hold.
    - by rewrite Hm, Ht, Hcl. }
  split; [done|].
  cbv zeta. unfold handleApply, handlePriceBotConfigChange, closeSettings.
  cbn [priceBot world showPriceBotSettings].
  assert (Hshape1 : timerShape this w1).
  { unfold timerShape in *. rewrite Ht. exact Hshape. }
  destruct (updateConfig_config env (asPartial edited) this w1 Hshape1) as [Hnew Hrun].
  destruct (evolves_updateConfig env (asPartial edited) this w1) as [[_ Hstore _ _ _ _] _].
  assert (Hspread : spread (theConfig this w1) (asPartial edited) = edited).
  { unfold spread, asPartial. simpl. by destruct edited. }
  rewrite Hspread in Hnew, Hrun.
  destruct (updateConfig env (asPartial edited) this w1) as [bot' w'].
  simpl in Hnew, Hrun, Hstore. exists bot'. cbn [priceBot world showPriceBotSettings].
  split; [done|]. split; [done|]. split; [exact Hnew|]. split.
  - unfold theSymbols. rewrite Hnew.
    destruct (Hstore _ Hs1) as (_ & -> & _). exact Ha.
  - by rewrite Hrun, He.
Qed.

Lemma panel_edits_reach_the_bot_on_apply_witness :
  let es := [Toggle "ETH/USD" false; Enable false; Toggle "ETH/USD" true] in
  let panel := edits es (initialConfig (Some quietBot) firstWorld) in
  let w1 := snd panel in
  let edited := configs w1 (fst panel) in
  (theConfig quietBot w1 = theConfig quietBot firstWorld /\
   theSymbols quietBot w1 = theSymbols quietBot firstWorld /\
   maps w1 = maps firstWorld /\ timers w1 = timers firstWorld /\
   calls w1 = calls firstWorld) /\
  (arrays w1 (symbols edited) = editedSymbols es (theSymbols quietBot firstWorld) /\
   enabled edited = editedEnabled es (enabled (theConfig quietBot firstWorld)) /\
   intervalMinutes edited = intervalMinutes (theConfig quietBot firstWorld)) /\
  let s' := handleApply (handlePriceBotConfigChange btcEnv) closeSettings edited
              {| priceBot := Some quietBot; showPriceBotSettings := true;
                 world := w1 |} in
  exists bot',
    priceBot s' = Some bot' /\
    showPriceBotSettings s' = false /\
    theConfig bot' (world s') = edited /\
    theSymbols bot' (world s') = editedSymbols es (theSymbols quietBot firstWorld) /\
    isRunning bot' = editedEnabled es (enabled (theConfig quietBot firstWorld)).
Proof.
  apply (panel_edits_reach_the_bot_on_apply btcEnv quietBot firstWorld
           [Toggle "ETH/USD" false; Enable false; Toggle "ETH/USD" true]).
  - exact (reachable_new defaultPriceBotConfig quietCallback moduleWorld
             (Nat.lt_0_1) eq_refl).
  - vm_compute. lia.
Defined.

(** The edits of the example leave the bot alone, and Apply gives it the
    symbols in their new order and stops nothing, since it was not
    running. *)
Example panel_example :
  let es := [Toggle "ETH/USD" false; Enable false; Toggle "ETH/USD" true] in
  let panel := edits es (initialConfig (Some quietBot) firstWorld) in
  theSymbols quietBot (snd panel)
    = ["BTC/USD"; "ETH/USD"; "BTC/ETH"; "BNB/ETH"]%string /\
  arrays (snd panel) (symbols (configs (snd panel) (fst panel)))
    = ["BTC/USD"; "BTC/ETH"; "BNB/ETH"; "ETH/USD"]%string /\
  enabled (configs (snd panel) (fst panel)) = false.
Proof. vm_compute. repeat split; reflexivity. Qed.

(** *** The Test button *)

(** X15.  [handleTest] never rejects: whatever the bot, its callback and
    the service do, its promise is fulfilled, after the cycle of one
    manual update when there is a bot, and at once when there is none. *)
Theorem test_button_never_rejects env bot w :
  snd (handleTest env bot w) = Returned tt /\
  fst (handleTest env bot w) =
    match bot with
    | Some bot => fst (triggerManualUpdate env bot w)
    | None => w
    end.
Proof.
  unfold handleTest. destruct bot as [bot|]; [|done].
  by destruct (triggerManualUpdate env bot w) as [w' [[]|e]].
Qed.

(** The manual update of a bot whose callback throws rejects; the Test
    button on that bot does not. *)
Example test_button_example :
  snd (triggerManualUpdate failingEnv brokenBot firstWorld)
    = Thrown (mkError "sink failed") /\
  snd (handleTest failingEnv (Some brokenBot) firstWorld) = Returned tt.
Proof. split; reflexivity. Qed.

End PanelFacts.

Module WindowFacts.

Import Chainlink Bot BotSpec BotFacts ChatWindow HistoryFacts.

(** *** The bot of the window *)

Lemma step_messageCallback op this w :
  messageCallback (fst (step op (this, w))) = messageCallback this.
Proof.
  assert (Hstop : forall this' w', messageCallback (fst (stop this' w'))
                                   = messageCallback this').
  { intros this' w'. unfold stop. by destruct (intervalId this'). }
  assert (Hstart : forall env this' w', messageCallback (fst (start env this' w'))
                                        = messageCallback this').
  { intros env this' w'. unfold start.
    destruct (intervalId this') as [handle|] eqn:Hi.
    - unfold stop. rewrite Hi. simpl.
      by destruct (negb (enabled _)).
    - by destruct (negb (enabled _)). }
  destruct op as [env| |newConfig env|env|handle env| |]; cbn [step];
    [apply Hstart|apply Hstop| |done..].
  destruct (updateConfig_unfold env newConfig this w) as [_ ->].
  destruct (_ && _); [by rewrite Hstart|].
  destruct (_ && _); [by rewrite Hstop|]. done.
Qed.

Lemma run_messageCallback ops this w :
  messageCallback (fst (run ops (this, w))) = messageCallback this.
Proof.
  revert this w. induction ops as [|op ops IH]; intros this w; [done|].
  rewrite run_cons. pose proof (step_messageCallback op this w) as H.
  destruct (step op (this, w)) as [this1 w1]. simpl in H.
  by rewrite IH.
Qed.

Lemma accepted_cycle_settles env this w :
  (forall m, messageCallback this m = Returned tt) ->
  snd (sendPriceUpdate env this w) = Returned tt.
Proof.
  intros Hcb. unfold sendPriceUpdate, sendPriceUpdate_try.
  destruct (getAllPrices env) as [allPrices|e]; [|simpl; apply Hcb].
  destruct (Z.of_nat _ =? 0); [done|].
  destruct (formatPriceMessage env _) as [content|e]; [|simpl; apply Hcb].
  unfold invokeCallback. by rewrite Hcb.
Qed.

(** X16.  The bot of the chat window.  The effect creates the bot on the
    default configuration, with a callback that adds the message to the
    list and never throws, and starts it: when the default configuration
    is enabled the bot is running, on one interval.  Whatever is done with
    the bot while the window is shown, its manual updates never reject,
    and the clean-up of the effect, [stop()], leaves it stopped with no
    interval armed: however the intervals fire after that, the callback
    is not invoked again, so the list of the messages stays as it is. *)
Theorem window_stops_its_bot env w ops :
  timers w = ∅ ->
  (defaultPriceBotConfig < fresh w)%nat ->
  let s := mount env w in
  exists bot,
    priceBot s = Some bot /\
    (enabled (configs w defaultPriceBotConfig) = true ->
     isRunning bot = true /\ size (timers (world s)) = 1%nat) /\
    let after := run ops (bot, world s) in
    (forall env', snd (triggerManualUpdate env' (fst after) (snd after)) = Returned tt) /\
    let s' := unmount {| priceBot := Some (fst after);
                         showPriceBotSettings := showPriceBotSettings s;
                         world := snd after |} in
    exists bot',
      priceBot s' = Some bot' /\
      isRunning bot' = false /\
      timers (world s') = ∅ /\
      calls (world s') = calls (snd after) /\
      forall fired, calls (ticks fired bot' (world s')) = calls (snd after).
Proof.
  intros Ht Hc. cbv zeta. unfold mount, createPriceBot.
  pose proof (reachable_new defaultPriceBotConfig onPriceBotMessage w Hc Ht) as Hnew.
  destruct (new defaultPriceBotConfig onPriceBotMessage w) as [bot0 w0] eqn:Hb0.
  assert (Hcb0 : messageCallback bot0 = onPriceBotMessage).
  { unfold new in Hb0. simpl in Hb0. by injection Hb0 as <- _. }
  assert (Hcfg0 : theConfig bot0 w0 = configs w defaultPriceBotConfig).
  { unfold new in Hb0. simpl in Hb0. by injection Hb0 as <- <-. }
  pose proof (reachable_step (OpStart env) _ Hnew) as Hstarted. cbn [step] in Hstarted.
  pose proof (reachable_invariant _ Hnew) as (Hshape0 & _ & _).
  pose proof (start_enabled env bot0 w0 Hshape0) as Hen.
  pose proof (step_messageCallback (OpStart env) bot0 w0) as Hcb1. cbn [step] in Hcb1.
  destruct (start env bot0 w0) as [bot w1]. cbn [priceBot world showPriceBotSettings].
  exists bot. split; [done|]. split.
  { intros He. rewrite <- Hcfg0 in He. destruct (Hen He) as (Hr & Hsz & _). done. }
  pose proof (reachable_run ops _ Hstarted) as Hafter.
  pose proof (run_messageCallback ops bot w1) as Hcb2.
  destruct (run ops (bot, w1)) as [bot2 w2]. simpl in Hcb1, Hcb2 |- *.
  split.
  { intros env'. apply accepted_cycle_settles. intros m.
    by rewrite Hcb2, Hcb1, Hcb0. }
  pose proof (reachable_invariant _ Hafter) as (Hshape2 & _ & _).
  destruct (stop_shape bot2 w2 Hshape2) as (Hi & Htm & _ & _ & _ & _ & Hcalls).
  unfold unmount. cbn [priceBot world showPriceBotSettings].
  destruct (stop bot2 w2) as [bot3 w3]. simpl in Hi, Htm, Hcalls.
  exists bot3. cbn [priceBot world].
  split; [done|]. split; [unfold isRunning; by rewrite Hi|].
  split; [done|]. split; [done|].
  intros fired. by rewrite ticks_cleared.
Qed.

Lemma window_stops_its_bot_witness :
  let ops := [OpTriggerManualUpdate btcEnv; OpTick 1%positive failingEnv] in
  let s := mount btcEnv moduleWorld in
  exists bot,
    priceBot s = Some bot /\
    (enabled (configs moduleWorld defaultPriceBotConfig) = true ->
     isRunning bot = true /\ size (timers (world s)) = 1%nat) /\
    let after := run ops (bot, world s) in
    (forall env', snd (triggerManualUpdate env' (fst after) (snd after)) = Returned tt) /\
    let s' := unmount {| priceBot := Some (fst after);
                         showPriceBotSettings := showPriceBotSettings s;
                         world := snd after |} in
    exists bot',
      priceBot s' = Some bot' /\
      isRunning bot' = false /\
      timers (world s') = ∅ /\
      calls (world s') = calls (snd after) /\
      forall fired, calls (ticks fired bot' (world s')) = calls (snd after).
Proof.
  apply (window_stops_its_bot btcEnv moduleWorld
           [OpTriggerManualUpdate btcEnv; OpTick 1%positive failingEnv]).
  - reflexivity.
  - vm_compute. lia.
Defined.

(** The window of the example has shown three messages when it is
    closed: that of the start, that of the manual update, and the error
    message of the tick on a service that fails. *)
Example window_example :
  let s := mount btcEnv moduleWorld in
  let after := run [OpTriggerManualUpdate btcEnv; OpTick 1%positive failingEnv]
                 (default BotSpec.quietBot (priceBot s), world s) in
  (priceData <$> calls (snd after))
    = [Some [ChainlinkSpec.btcPrice]; Some [ChainlinkSpec.btcPrice]; None].
Proof. vm_compute. reflexivity. Qed.

(** *** What the window shows of a message *)

(** X17.  The chat window shows of a message of the bot its prices and
    its time, nothing else: two messages with the same prices and the same
    time stamp are shown alike, whatever their texts.  The error message is
    shown as a card with no row: its text is not shown.  A price message
    is shown as a card with one row for each price, in their order; the
    price in a row is the price in the line of the text of the message for
    the same entry, rendered with the same bounds on the fraction
    digits. *)
Theorem window_shows_prices_and_time_only
  (toLocaleString : number -> Z -> Z -> string)
  (toLocaleTimeString : number -> string)
  (dateToLocaleTimeString : Z -> string) :
  let render := renderPriceBotMessage toLocaleString dateToLocaleTimeString in
  (forall m m',
     priceData m = priceData m' -> Bot.timestamp m = Bot.timestamp m' ->
     render m = render m') /\
  (forall env,
     render (errorMessage env)
       = {| time := dateToLocaleTimeString (Date_now env ErrorTimestamp);
            rows := [] |}) /\
  (forall env content prices,
     time (render (priceMessage env content prices))
       = dateToLocaleTimeString (Date_now env PriceTimestamp) /\
     map fst (rows (render (priceMessage env content prices)))
       = map (fun p => symbol p +:+ ":") prices /\
     Forall2 (fun p row =>
                Chainlink.formatPrice toLocaleString toLocaleTimeString p
                  = symbol p +:+ ": " +:+ snd row +:+ " (" +:+
                    toLocaleTimeString (Chainlink.timestamp p) +:+ ")")
       prices (rows (render (priceMessage env content prices)))).
Proof.
  cbv zeta. split.
  { intros m m' Hp Ht. unfold renderPriceBotMessage. by rewrite Hp, Ht. }
  split; [done|].
  intros env content prices. split; [done|].
  unfold renderPriceBotMessage, SimplePriceMessage. cbn [priceData default rows Bot.timestamp].
  split.
  - rewrite map_map. done.
  - induction prices as [|p prices IH]; [constructor|].
    cbn [map]. constructor; [|exact IH]. reflexivity.
Qed.

(** *** Trends *)

Lemma ofBigInt_100 : exists m e, ofBigInt 100 = S754_finite false m e.
Proof. by eexists _, _. Qed.

Lemma no_change_no_trend x :
  let change := mul (div (sub x x) x) (ofBigInt 100) in
  ltb zero change = false /\ ltb change zero = false.
Proof.
  destruct ofBigInt_100 as (m100 & e100 & ->).
  destruct x as [s|s| |s m e]; cbv zeta.
  - by destruct s.
  - by destruct s.
  - done.
  - assert (Hsub : sub (S754_finite s m e) (S754_finite s m e) = S754_zero false).
    { unfold sub, SFsub. cbv zeta. by rewrite Z.sub_diag. }
    rewrite Hsub. by destruct s.
Qed.

Lemma change_from_zero x s :
  ChainlinkSpec.isFinite (mul (div (sub x (S754_zero s)) (S754_zero s)) (ofBigInt 100))
    = false.
Proof.
  destruct ofBigInt_100 as (m100 & e100 & ->).
  destruct x as [s'|s'| |s' m e]; try done; by destruct s, s'.
Qed.

(** X23.  The trend the price card shows for a price.  Without a previous
    price of the same symbol there is no change, and the neutral icon.
    When the previous price is the current one, whatever number it is, the
    icon is the neutral one, never an arrow.  When the previous price is
    zero the change is not a finite number: the division is not guarded.
    And the icon and the colour always agree: the rising arrow is green,
    the falling one red, the neutral icon grey. *)
Theorem unchanged_price_has_no_trend current previousPrices :
  let previous := PriceMessage.previousOf previousPrices current in
  let change := PriceMessage.getPriceChange current previous in
  (previous = None ->
   change = None /\ PriceMessage.getTrendIcon change = PriceMessage.Minus) /\
  (forall p, previous = Some p -> price p = price current ->
     PriceMessage.getTrendIcon change = PriceMessage.Minus) /\
  (forall p s, previous = Some p -> price p = S754_zero s ->
     exists c, change = Some c /\ ChainlinkSpec.isFinite c = false) /\
  (PriceMessage.getTrendIcon change = PriceMessage.TrendingUp
     <-> PriceMessage.getTrendColor change = "text-green-500"%string) /\
  (PriceMessage.getTrendIcon change = PriceMessage.TrendingDown
     <-> PriceMessage.getTrendColor change = "text-red-500"%string) /\
  (PriceMessage.getTrendIcon change = PriceMessage.Minus
     <-> PriceMessage.getTrendColor change = "text-gray-400"%string).
Proof.
  intros previous change. split.
  { intros Hp. unfold change. by rewrite Hp. }
  split.
  { intros p Hp Heq. unfold change, PriceMessage.getPriceChange. rewrite Hp, Heq.
    destruct (no_change_no_trend (price current)) as [H1 H2].
    unfold PriceMessage.getTrendIcon. by rewrite H1, H2. }
  split.
  { intros p s Hp Hz. unfold change, PriceMessage.getPriceChange. rewrite Hp, Hz.
    eexists. split; [reflexivity|]. apply change_from_zero. }
  unfold PriceMessage.getTrendIcon, PriceMessage.getTrendColor.
  destruct change as [c|]; [|done].
  destruct (ltb zero c); [done|]. by destruct (ltb c zero).
Qed.

(** The price of BTC/USD against itself, against a previous price of zero,
    and against the lower price of ETH/USD, were it filed under the same
    symbol. *)
Example trend_example :
  let lower := mkPriceData "BTC/USD" (price ChainlinkSpec.ethPrice)
                 (Chainlink.timestamp ChainlinkSpec.ethPrice) (ofBigInt 8) in
  let free := mkPriceData "BTC/USD" zero
                (Chainlink.timestamp ChainlinkSpec.ethPrice) (ofBigInt 8) in
  let trend previousPrices :=
    PriceMessage.getTrendIcon
      (PriceMessage.getPriceChange ChainlinkSpec.btcPrice
         (PriceMessage.previousOf previousPrices ChainlinkSpec.btcPrice)) in
  trend None = PriceMessage.Minus /\
  trend (Some [ChainlinkSpec.ethPrice]) = PriceMessage.Minus /\
  trend (Some [ChainlinkSpec.ethPrice; ChainlinkSpec.btcPrice]) = PriceMessage.Minus /\
  trend (Some [lower]) = PriceMessage.TrendingUp /\
  trend (Some [free]) = PriceMessage.TrendingUp.
Proof. vm_compute. repeat split; reflexivity. Qed.

End WindowFacts.

(** ** The bot on the imported price service *)

Module WiringFacts.

Import Chainlink Bot BotSpec ChainlinkSpec ChainlinkFacts BotFacts.

Lemma omap_all_None {A B} (f : A -> option B) (l : list A) :
  (forall x, x ∈ l -> f x = None) -> omap f l = [].
Proof.
  induction l as [|x l IH]; [done|]. intros H. cbn [omap list_omap].
  rewrite (H x) by by left. apply IH. intros y Hy. apply H. by right.
Qed.

Lemma formatPriceMessage_not_noDataLine
  (toLocaleString : number -> Z -> Z -> string)
  (toLocaleTimeString : number -> string) (nowLocaleString : string) prices :
  prices <> [] ->
  Chainlink.formatPriceMessage toLocaleString toLocaleTimeString nowLocaleString prices
    <> noDataLine.
Proof.
  intros Hne H. unfold Chainlink.formatPriceMessage in H.
  destruct prices as [|p prices]; [done|].
  apply (f_equal (String.get 10)) in H. vm_compute in H. discriminate H.
Qed.

(** X18.  The bot on the price service it imports, on any network and
    with any renderings of the host.  The fetch of a cycle never throws,
    and neither does the formatting: a cycle can fail only in the callback,
    on the price message.  So when the fetches of the four canonical
    symbols all fail, the cycle is skipped: the world is as it was, and
    the callback is not invoked, not even with the error message.  With a
    callback that does not throw, the promise of a cycle is fulfilled and
    no error message is sent.  And the text of a price message is never
    the line that says that there is no data, which is what
    [formatPriceBotMessage] makes of the empty list. *)
Theorem price_service_failures_are_silent
  (toLocaleString : number -> Z -> Z -> string)
  (toLocaleTimeString : number -> string) (dateToLocaleString : Z -> string)
  (network : string -> JsonRpcProvider) (now : Reading -> Z) this w :
  let env := priceServiceEnv toLocaleString toLocaleTimeString dateToLocaleString
               network now in
  let service := priceService network in
  getAllPrices env = Returned (omap (fetched service) canonicalSymbols) /\
  (forall e, cycleFails env this w e ->
     exists content prices,
       prices <> [] /\
       messageCallback this (priceMessage env content prices) = Thrown e) /\
  ((forall sym, sym ∈ canonicalSymbols -> fetched service sym = None) ->
   sendPriceUpdate env this w = (w, Returned tt)) /\
  ((forall m, messageCallback this m = Returned tt) ->
   snd (sendPriceUpdate env this w) = Returned tt /\
   exists sent,
     calls (fst (sendPriceUpdate env this w)) = calls w ++ sent /\
     Forall (fun m => ~ isErrorMessage m) sent) /\
  (forall prices content,
     prices <> [] -> formatPriceMessage env prices = Returned content ->
     content <> noDataLine) /\
  formatPriceBotMessage env [] = Returned noDataLine.
Proof.
  intros env service.
  assert (Hfetch : getAllPrices env
                   = Returned (omap (fetched service) canonicalSymbols)).
  { unfold env, priceServiceEnv. cbn [getAllPrices].
    pose proof (getAllPrices_fetched 0 service) as H.
    rewrite Nat.add_0_r in H. fold service. by rewrite H. }
  split; [exact Hfetch|]. split.
  { intros e [Hf | allPrices Hf Hs Hc | allPrices content Hf Hs Hc Hcb].
    - rewrite Hfetch in Hf. discriminate Hf.
    - discriminate Hc.
    - by exists content, (selected this w allPrices). }
  split.
  { intros Hnone. apply (cycle_skipped _ _ _ _ Hfetch).
    by rewrite (omap_all_None _ _ Hnone). }
  split.
  { intros Hcb. unfold sendPriceUpdate, sendPriceUpdate_try. rewrite Hfetch.
    destruct (Z.of_nat _ =? 0).
    { split; [done|]. exists []. by rewrite app_nil_r. }
    cbn [formatPriceMessage env priceServiceEnv]. unfold invokeCallback.
    rewrite Hcb. simpl. split; [done|]. eexists. split; [reflexivity|].
    apply Forall_singleton. by intros [_ H]. }
  split; [|reflexivity].
  intros prices content Hne [= <-].
  by apply formatPriceMessage_not_noDataLine.
Qed.

(** On a network where every call is rejected, a manual update of the
    default bot sends nothing. *)
Example dead_network_example :
  triggerManualUpdate
    (priceServiceEnv plainNumber plainTime plainDate deadNetwork
       (fun _ => 1700000000000))
    quietBot firstWorld
    = (firstWorld, Returned tt).
Proof. vm_compute. reflexivity. Qed.

(** On the Sepolia network of the examples it sends one message, of
    three prices, whose text has five lines. *)
Example sepolia_network_example :
  let w' := fst (triggerManualUpdate
                   (priceServiceEnv plainNumber plainTime plainDate sepoliaNetwork
                      (fun _ => 1700000000000))
                   quietBot firstWorld) in
  (fmap (length (A:=PriceData)) <$> (priceData <$> calls w')) = [Some 3%nat] /\
  (length <$> (lines <$> (content <$> calls w'))) = [5%nat].
Proof. vm_compute. split; reflexivity. Qed.

End WiringFacts.
